(** * sokol-shdc: SPIRV-Cross wrapper (src/shdc/spirvcross.cc)

    A shallow embedding of the cross-compilation back end: binding-slot
    assignment, layout fixups, reflection extraction, cross-shader
    deduplication, vertex/fragment interface validation and the binary
    reflection writer, followed by the properties proved about them.

    Conventions of the embedding:
    - [uint32_t] values are [Z] in [0, 2^32) with the wrap-around written
      [u32]; a conversion to [int] is [to_int]; container sizes and loop
      indices stay far below 2^31 and are plain [Z]/[nat].
    - Code whose behaviour C++ leaves undefined or that terminates the
      process (out-of-bounds array access, a failed [assert], [map::at] on
      a missing key) returns [None]; errors the code reports travel in the
      [errmsg_t] record, as in the source.
    - The translator (SPIRV-Cross) is an external collaborator: its state
      is the record [Compiler], its opaque operations are the class
      [Translator].
    - Declarations of [shdc.h] that the source file uses but which are not
      part of it are the class [ShdcDecls] (parameters) or are modelled
      from the specification where marked. *)

From Stdlib Require Import ZArith Lia List DecimalString.
From Stdlib.Strings Require Import String Ascii Byte.
From stdpp Require Import base option list gmap strings.

Open Scope Z_scope.

(** ** Machine integers *)

Definition u32 (z : Z) : Z := z mod 2 ^ 32.
Definition u16 (z : Z) : Z := z mod 2 ^ 16.
Definition u8 (z : Z) : Z := z mod 2 ^ 8.

(** conversion of a 32-bit (or wider) unsigned value to [int] *)
Definition to_int (z : Z) : Z := (z + 2 ^ 31) mod 2 ^ 32 - 2 ^ 31.

Definition UINT16_MAX : Z := 65535.

(** [fmt::format("{}", i)] for an integer argument *)
Definition fmt_int (i : Z) : string := NilZero.string_of_int (Z.to_int i).

(** [v[i]] on a [std::vector] or array: undefined out of range *)
Definition vec_at {A} (v : list A) (i : Z) : option A :=
  if bool_decide (0 ≤ i) then v !! Z.to_nat i else None.

(** [v[i] = x] on a fixed-size array: undefined out of range *)
Definition array_store {A} (v : list A) (i : Z) (x : A) : option (list A) :=
  if bool_decide (0 ≤ i < Z.of_nat (length v)) then Some (<[Z.to_nat i := x]> v)
  else None.

(** ** The translator's data (SPIRV-Cross) *)

Definition ID := N.
Definition TypeID := N.

Inductive Decoration :=
  | DecorationColMajor | DecorationLocation | DecorationBinding
  | DecorationDescriptorSet.

Definition Decoration_code (d : Decoration) : nat :=
  match d with
  | DecorationColMajor => 5 | DecorationLocation => 30
  | DecorationBinding => 33 | DecorationDescriptorSet => 34
  end%nat.

Definition Decoration_of_code (n : nat) : Decoration :=
  match n with
  | 5 => DecorationColMajor | 30 => DecorationLocation
  | 33 => DecorationBinding | _ => DecorationDescriptorSet
  end%nat.

#[global] Instance Decoration_eq_dec : EqDecision Decoration.
Proof. solve_decision. Defined.

#[global] Instance Decoration_countable : Countable Decoration.
Proof.
  apply (inj_countable' Decoration_code Decoration_of_code).
  by intros [].
Defined.

Inductive BaseType :=
  | Unknown | Void | Boolean | SByte | UByte | Short | UShort | Int | UInt
  | Int64 | UInt64 | AtomicCounter | Half | Float | Double | Struct | Image
  | SampledImage | Sampler.

Inductive Dim :=
  | Dim1D | Dim2D | Dim3D | DimCube | DimRect | DimBuffer | DimSubpassData.

Inductive ExecutionModel :=
  | ExecutionModelVertex | ExecutionModelTessellationControl
  | ExecutionModelTessellationEvaluation | ExecutionModelGeometry
  | ExecutionModelFragment | ExecutionModelGLCompute | ExecutionModelKernel.

#[global] Instance BaseType_eq_dec : EqDecision BaseType.
Proof. solve_decision. Defined.
#[global] Instance Dim_eq_dec : EqDecision Dim.
Proof. solve_decision. Defined.
#[global] Instance ExecutionModel_eq_dec : EqDecision ExecutionModel.
Proof. solve_decision. Defined.

Record ImageType := {
  image_type : TypeID;        (* type of the sampled component *)
  image_dim : Dim;
  image_arrayed : bool
}.

Record SPIRType := {
  basetype : BaseType;
  vecsize : Z;
  columns : Z;
  array : list Z;
  member_types : list TypeID;
  image : ImageType
}.

Record Resource := {
  res_id : ID;
  res_type_id : TypeID;
  res_base_type_id : TypeID;
  res_name : string
}.

Record ShaderResources := {
  uniform_buffers : list Resource;
  stage_inputs : list Resource;
  stage_outputs : list Resource;
  sampled_images : list Resource
}.

Record EntryPoint := {
  ep_name : string;
  ep_execution_model : ExecutionModel
}.

(** The state of one [Compiler] object: the parsed module and the
    decorations that the wrapper reads and overwrites. *)
Record Compiler := {
  shader_resources : ShaderResources;
  types : TypeID → SPIRType;
  member_names : TypeID → nat → string;
  decorations : gmap (ID * Decoration) Z;
  member_decorations : gmap (TypeID * nat * Decoration) Z;
  flattened_blocks : list ID;
  execution_model : ExecutionModel;
  entry_points : list EntryPoint
}.

Definition get_shader_resources (c : Compiler) : ShaderResources :=
  shader_resources c.
Definition get_type (c : Compiler) (id : TypeID) : SPIRType := types c id.
Definition get_member_name (c : Compiler) (id : TypeID) (index : nat) : string :=
  member_names c id index.
Definition get_execution_model (c : Compiler) : ExecutionModel :=
  execution_model c.
Definition get_entry_points_and_stages (c : Compiler) : list EntryPoint :=
  entry_points c.

(** the result is a [uint32_t]; an absent decoration reads as 0 *)
Definition get_decoration (c : Compiler) (id : ID) (d : Decoration) : Z :=
  u32 (default 0 (decorations c !! (id, d))).

Definition set_decoration (c : Compiler) (id : ID) (d : Decoration) (v : Z)
  : Compiler :=
  {| shader_resources := shader_resources c;
     types := types c;
     member_names := member_names c;
     decorations := <[(id, d) := v]> (decorations c);
     member_decorations := member_decorations c;
     flattened_blocks := flattened_blocks c;
     execution_model := execution_model c;
     entry_points := entry_points c |}.

Definition set_member_decoration (c : Compiler) (id : TypeID) (index : nat)
    (d : Decoration) : Compiler :=
  {| shader_resources := shader_resources c;
     types := types c;
     member_names := member_names c;
     decorations := decorations c;
     member_decorations := <[(id, index, d) := 0]> (member_decorations c);
     flattened_blocks := flattened_blocks c;
     execution_model := execution_model c;
     entry_points := entry_points c |}.

Definition has_member_decoration (c : Compiler) (id : TypeID) (index : nat)
    (d : Decoration) : bool :=
  bool_decide (is_Some (member_decorations c !! (id, index, d))).

Definition flatten_buffer_block (c : Compiler) (id : ID) : Compiler :=
  {| shader_resources := shader_resources c;
     types := types c;
     member_names := member_names c;
     decorations := decorations c;
     member_decorations := member_decorations c;
     flattened_blocks := flattened_blocks c ++ [id];
     execution_model := execution_model c;
     entry_points := entry_points c |}.

Inductive MSLPlatform := iOS | macOS.

(** The options the wrapper hands to a back end; options it leaves at the
    library's defaults are not listed. *)
Inductive backend_options :=
  | GLSLOptions (emit_line_directives : bool) (version : Z) (es : bool)
      (vulkan_semantics : bool) (enable_420pack_extension : bool)
      (fixup_clipspace : bool) (flip_vert_y : bool)
  | HLSLOptions (emit_line_directives : bool) (fixup_clipspace : bool)
      (flip_vert_y : bool) (shader_model : Z) (point_size_compat : bool)
  | MSLOptions (emit_line_directives : bool) (fixup_clipspace : bool)
      (flip_vert_y : bool) (platform : MSLPlatform)
      (enable_decoration_binding : bool).

(** The translator's opaque operations: code emission (which may change
    the translator's state and yields the empty string on failure) and the
    two layout queries. *)
Class Translator := {
  compile : backend_options → Compiler → string * Compiler;
  get_declared_struct_size : Compiler → SPIRType → Z;
  type_struct_member_offset : Compiler → SPIRType → nat → Z
}.

(** ** The data model of shdc.h, as this file uses it *)

Inductive slang_t :=
  | GLSL330 | GLSL100 | GLSL300ES | HLSL5 | METAL_MACOS | METAL_IOS
  | METAL_SIM | WGPU.

(** Modelled from the spec: [snippet_t::type_t] is declared in shdc.h; a
    snippet's stage kind is vertex or fragment, and the assertion in
    [translate] shows that the enumeration has other members, which are
    collected in [SNIPPET_OTHER]. *)
Inductive snippet_type := SNIPPET_OTHER | VS | FS.

Inductive stage_t := STAGE_INVALID | STAGE_VS | STAGE_FS.

Inductive uniform_type :=
  | UNIFORM_INVALID | FLOAT | FLOAT2 | FLOAT3 | FLOAT4 | MAT4.

Inductive image_type_t :=
  | IMAGE_TYPE_INVALID | IMAGE_TYPE_2D | IMAGE_TYPE_CUBE | IMAGE_TYPE_3D
  | IMAGE_TYPE_ARRAY.

Inductive image_basetype_t :=
  | IMAGE_BASETYPE_NONE | IMAGE_BASETYPE_SINT | IMAGE_BASETYPE_UINT
  | IMAGE_BASETYPE_FLOAT.

#[global] Instance slang_t_eq_dec : EqDecision slang_t.
Proof. solve_decision. Defined.
#[global] Instance snippet_type_eq_dec : EqDecision snippet_type.
Proof. solve_decision. Defined.
#[global] Instance stage_t_eq_dec : EqDecision stage_t.
Proof. solve_decision. Defined.
#[global] Instance uniform_type_eq_dec : EqDecision uniform_type.
Proof. solve_decision. Defined.
#[global] Instance image_type_t_eq_dec : EqDecision image_type_t.
Proof. solve_decision. Defined.
#[global] Instance image_basetype_t_eq_dec : EqDecision image_basetype_t.
Proof. solve_decision. Defined.

Record attr_t := {
  attr_slot : Z;
  attr_name : string;
  attr_sem_name : string;
  attr_sem_index : Z
}.

Record uniform_t := {
  uniform_name : string;
  uniform_type_of : uniform_type;
  uniform_array_count : Z;
  uniform_offset : Z
}.

Record uniform_block_t := {
  ub_slot : Z;
  ub_size : Z;
  ub_name : string;
  ub_uniforms : list uniform_t;
  ub_unique_index : Z
}.

Record image_t := {
  img_slot : Z;
  img_name : string;
  img_type : image_type_t;
  img_base_type : image_basetype_t;
  img_unique_index : Z
}.

Record errmsg_t := {
  err_valid : bool;
  err_file : string;
  err_line_index : Z;
  err_msg : string
}.

Record spirvcross_refl_t := {
  stage : stage_t;
  entry_point : string;
  inputs : list attr_t;
  outputs : list attr_t;
  uniform_blocks : list uniform_block_t;
  images : list image_t
}.

Record spirvcross_source_t := {
  src_valid : bool;
  source_code : string;
  refl : spirvcross_refl_t;
  src_snippet_index : Z
}.

Record spirvcross_t := {
  sources : list spirvcross_source_t;
  unique_uniform_blocks : list uniform_block_t;
  unique_images : list image_t;
  error : errmsg_t
}.

Record snippet_t := {
  snippet_type_of : snippet_type;
  snippet_options : slang_t → Z;
  snippet_lines : list Z
}.

Record program_t := {
  prog_vs_name : string;
  prog_fs_name : string;
  prog_line_index : Z
}.

(** [programs] is a [std::map]: its entries in iteration (key) order. *)
Record input_t := {
  base_path : string;
  snippets : list snippet_t;
  programs : list (string * program_t);
  vs_map : gmap string Z;
  fs_map : gmap string Z
}.

(** the bytecode of a blob is represented by the module the translator's
    parser builds from it *)
Record spirv_blob_t := {
  blob_snippet_index : Z;
  bytecode : Compiler
}.

Record spirv_t := { blobs : list spirv_blob_t }.

(** Declarations of shdc.h that the source uses and that are not part of
    the source file: the capacity of the attribute arrays, the structural
    equalities, the option bits, the target names and the numbering of the
    enumerations written as bytes. *)
Class ShdcDecls := {
  attr_NUM : nat;
  attr_equals : attr_t → attr_t → bool;
  ub_equals : uniform_block_t → uniform_block_t → bool;
  img_equals : image_t → image_t → bool;
  FIXUP_CLIPSPACE : Z;
  FLIP_VERT_Y : Z;
  slang_to_str : slang_t → string;
  stage_code : stage_t → Z;
  uniform_type_code : uniform_type → Z;
  image_type_code : image_type_t → Z;
  image_basetype_code : image_basetype_t → Z
}.

(** Modelled from the spec: the default-constructed records of shdc.h. An
    unused attribute carries a negative sentinel slot, [unique_index] is -1
    until assigned, an array count of 0 means no array. *)
Definition attr_default : attr_t :=
  {| attr_slot := -1; attr_name := ""; attr_sem_name := "";
     attr_sem_index := 0 |}.

Definition uniform_default : uniform_t :=
  {| uniform_name := ""; uniform_type_of := UNIFORM_INVALID;
     uniform_array_count := 0; uniform_offset := 0 |}.

Definition errmsg_default : errmsg_t :=
  {| err_valid := false; err_file := ""; err_line_index := -1; err_msg := "" |}.

(** Modelled from the spec: [errmsg_t::error] and [input_t::error] are
    declared in shdc.h; an ErrorRecord is a source location, a message and
    a validity flag, which both set. *)
Definition errmsg_error (file : string) (line : Z) (msg : string) : errmsg_t :=
  {| err_valid := true; err_file := file; err_line_index := line;
     err_msg := msg |}.

Definition input_error (inp : input_t) (index : Z) (msg : string) : errmsg_t :=
  errmsg_error (base_path inp) index msg.

(** ** The wrapper's functions *)

Section Model.
Context `{!ShdcDecls, !Translator}.

Definition vk_fs_ub_binding_offset : Z := 4.

Fixpoint find_source_from (srcs : list spirvcross_source_t) (snippet_index : Z)
    (i : Z) : Z :=
  match srcs with
  | [] => -1
  | s :: srcs =>
      if bool_decide (src_snippet_index s = snippet_index) then i
      else find_source_from srcs snippet_index (i + 1)
  end.

Definition find_source_by_snippet_index (spv_cross : spirvcross_t)
    (snippet_index : Z) : Z :=
  find_source_from (sources spv_cross) snippet_index 0.

(** *** Layout fixups *)

(** the loop over the members of one uniform block, from [m_index] on *)
Fixpoint colmajor_members (compiler : Compiler) (base_type_id : TypeID)
    (members : list TypeID) (m_index : nat) : Compiler :=
  match members with
  | [] => compiler
  | m :: members =>
      let m_type := get_type compiler m in
      let compiler :=
        if bool_decide (basetype m_type = Float)
           && bool_decide (1 < vecsize m_type)
           && bool_decide (1 < columns m_type)
        then set_member_decoration compiler base_type_id m_index
               DecorationColMajor
        else compiler in
      colmajor_members compiler base_type_id members (S m_index)
  end.

Fixpoint colmajor_blocks (compiler : Compiler) (ubs : list Resource) : Compiler :=
  match ubs with
  | [] => compiler
  | ub_res :: ubs =>
      let ub_type := get_type compiler (res_base_type_id ub_res) in
      let compiler :=
        colmajor_members compiler (res_base_type_id ub_res)
          (member_types ub_type) 0 in
      colmajor_blocks compiler ubs
  end.

Definition fix_ub_matrix_force_colmajor (compiler : Compiler) : Compiler :=
  let res := get_shader_resources compiler in
  colmajor_blocks compiler (uniform_buffers res).

(** *** Binding slot assigner *)

Fixpoint bind_uniform_buffers (compiler : Compiler) (ubs : list Resource)
    (ub_slot : Z) : Compiler :=
  match ubs with
  | [] => compiler
  | ub_res :: ubs =>
      let compiler :=
        set_decoration compiler (res_id ub_res) DecorationDescriptorSet 0 in
      let compiler :=
        set_decoration compiler (res_id ub_res) DecorationBinding ub_slot in
      bind_uniform_buffers compiler ubs (u32 (ub_slot + 1))
  end.

Fixpoint bind_sampled_images (compiler : Compiler) (imgs : list Resource)
    (img_set : Z) (img_slot : Z) : Compiler :=
  match imgs with
  | [] => compiler
  | img_res :: imgs =>
      let compiler :=
        set_decoration compiler (res_id img_res) DecorationDescriptorSet
          img_set in
      let compiler :=
        set_decoration compiler (res_id img_res) DecorationBinding img_slot in
      bind_sampled_images compiler imgs img_set (u32 (img_slot + 1))
  end.

Definition fix_bind_slots (compiler : Compiler) (type : snippet_type)
    (is_vulkan : bool) : Compiler :=
  let res := get_shader_resources compiler in
  let ub_slot :=
    if is_vulkan then
      (if bool_decide (type = VS) then 0 else vk_fs_ub_binding_offset)
    else 0 in
  let compiler := bind_uniform_buffers compiler (uniform_buffers res) ub_slot in
  let img_slot := 0 in
  let img_set := if bool_decide (type = VS) then 1 else 2 in
  bind_sampled_images compiler (sampled_images res) img_set img_slot.

Definition flatten_uniform_blocks (compiler : Compiler) : Compiler :=
  let res := get_shader_resources compiler in
  foldl (λ c ub_res, flatten_buffer_block c (res_id ub_res)) compiler
    (uniform_buffers res).

(** *** Reflection extractor *)

Definition spirtype_to_uniform_type (type : SPIRType) : uniform_type :=
  if bool_decide (basetype type = Float) then
    if bool_decide (columns type = 1) then
      if bool_decide (vecsize type = 1) then FLOAT
      else if bool_decide (vecsize type = 2) then FLOAT2
      else if bool_decide (vecsize type = 3) then FLOAT3
      else if bool_decide (vecsize type = 4) then FLOAT4
      else UNIFORM_INVALID
    else
      if bool_decide (vecsize type = 4) && bool_decide (columns type = 4)
      then MAT4 else UNIFORM_INVALID
  else UNIFORM_INVALID.

Definition spirtype_to_image_type (type : SPIRType) : image_type_t :=
  if image_arrayed (image type) then
    if bool_decide (image_dim (image type) = Dim2D) then IMAGE_TYPE_ARRAY
    else IMAGE_TYPE_INVALID
  else
    match image_dim (image type) with
    | Dim2D => IMAGE_TYPE_2D
    | DimCube => IMAGE_TYPE_CUBE
    | Dim3D => IMAGE_TYPE_3D
    | _ => IMAGE_TYPE_INVALID
    end.

Definition spirtype_to_image_basetype (type : SPIRType) : image_basetype_t :=
  match basetype type with
  | Int | Short | SByte => IMAGE_BASETYPE_SINT
  | UInt | UShort | UByte => IMAGE_BASETYPE_UINT
  | _ => IMAGE_BASETYPE_FLOAT
  end.

Definition reflect_stage (compiler : Compiler) : stage_t :=
  match get_execution_model compiler with
  | ExecutionModelVertex => STAGE_VS
  | ExecutionModelFragment => STAGE_FS
  | _ => STAGE_INVALID
  end.

(** the entry-point search: the first entry point of the module's
    execution model, the empty name when there is none *)
Fixpoint reflect_entry_point (compiler : Compiler) (items : list EntryPoint)
    : string :=
  match items with
  | [] => ""
  | item :: items =>
      if bool_decide (get_execution_model compiler = ep_execution_model item)
      then ep_name item
      else reflect_entry_point compiler items
  end.

Definition reflect_attr (compiler : Compiler) (res_attr : Resource) : attr_t :=
  let slot := to_int (get_decoration compiler (res_id res_attr)
                        DecorationLocation) in
  {| attr_slot := slot; attr_name := res_name res_attr;
     attr_sem_name := "TEXCOORD"; attr_sem_index := slot |}.

(** the loops over stage inputs and over stage outputs: each attribute is
    stored at the index given by its location *)
Fixpoint reflect_attrs (compiler : Compiler) (attrs : list Resource)
    (slots : list attr_t) : option (list attr_t) :=
  match attrs with
  | [] => Some slots
  | res_attr :: attrs =>
      let refl_attr := reflect_attr compiler res_attr in
      slots ← array_store slots (attr_slot refl_attr) refl_attr;
      reflect_attrs compiler attrs slots
  end.

Definition reflect_uniform (compiler : Compiler) (ub_res : Resource)
    (ub_type : SPIRType) (m_index : nat) (member : TypeID) : uniform_t :=
  let m_type := get_type compiler member in
  {| uniform_name := get_member_name compiler (res_base_type_id ub_res) m_index;
     uniform_type_of := spirtype_to_uniform_type m_type;
     uniform_array_count :=
       match array m_type with
       | [] => uniform_array_count uniform_default
       | n :: _ => to_int n
       end;
     uniform_offset :=
       to_int (type_struct_member_offset compiler ub_type m_index) |}.

Definition reflect_uniform_block (compiler : Compiler) (is_vulkan : bool)
    (ub_res : Resource) : uniform_block_t :=
  let ub_type := get_type compiler (res_base_type_id ub_res) in
  let slot := to_int (get_decoration compiler (res_id ub_res)
                        DecorationBinding) in
  let slot :=
    if is_vulkan && bool_decide (vk_fs_ub_binding_offset ≤ slot)
    then slot - 4 else slot in
  {| ub_slot := slot;
     ub_size := to_int (get_declared_struct_size compiler ub_type);
     ub_name := res_name ub_res;
     ub_uniforms :=
       imap (reflect_uniform compiler ub_res ub_type) (member_types ub_type);
     ub_unique_index := -1 |}.

Definition reflect_image (compiler : Compiler) (img_res : Resource) : image_t :=
  let img_type := get_type compiler (res_type_id img_res) in
  {| img_slot := to_int (get_decoration compiler (res_id img_res)
                           DecorationBinding);
     img_name := res_name img_res;
     img_type := spirtype_to_image_type img_type;
     img_base_type :=
       spirtype_to_image_basetype
         (get_type compiler (image_type (image img_type)));
     img_unique_index := -1 |}.

Definition parse_reflection (compiler : Compiler) (is_vulkan : bool)
    : option spirvcross_refl_t :=
  let shd_resources := get_shader_resources compiler in
  let unused := replicate attr_NUM attr_default in
  ins ← reflect_attrs compiler (stage_inputs shd_resources) unused;
  outs ← reflect_attrs compiler (stage_outputs shd_resources) unused;
  Some {| stage := reflect_stage compiler;
          entry_point :=
            reflect_entry_point compiler (get_entry_points_and_stages compiler);
          inputs := ins;
          outputs := outs;
          uniform_blocks :=
            map (reflect_uniform_block compiler is_vulkan)
              (uniform_buffers shd_resources);
          images := map (reflect_image compiler) (sampled_images shd_resources) |}.

(** *** The three back ends *)

Definition refl_default : spirvcross_refl_t :=
  {| stage := STAGE_INVALID; entry_point := "";
     inputs := replicate attr_NUM attr_default;
     outputs := replicate attr_NUM attr_default;
     uniform_blocks := []; images := [] |}.

Definition source_default : spirvcross_source_t :=
  {| src_valid := false; source_code := ""; refl := refl_default;
     src_snippet_index := -1 |}.

Definition option_set (opt_mask flag : Z) : bool :=
  negb (bool_decide (0 = Z.land opt_mask flag)).

Definition set_entry_point (r : spirvcross_refl_t) (name : string)
    : spirvcross_refl_t :=
  {| stage := stage r; entry_point := name; inputs := inputs r;
     outputs := outputs r; uniform_blocks := uniform_blocks r;
     images := images r |}.

Definition glsl_options (glsl_version : Z) (is_gles is_vulkan : bool)
    (opt_mask : Z) : backend_options :=
  GLSLOptions false glsl_version is_gles is_vulkan false
    (option_set opt_mask FIXUP_CLIPSPACE) (option_set opt_mask FLIP_VERT_Y).

(** the translator as [to_glsl] has prepared it when it calls [compile] *)
Definition to_glsl_prepare (blob : spirv_blob_t) (is_vulkan : bool)
    (type : snippet_type) : Compiler :=
  let compiler := bytecode blob in
  let compiler := fix_bind_slots compiler type is_vulkan in
  let compiler := fix_ub_matrix_force_colmajor compiler in
  if negb is_vulkan then flatten_uniform_blocks compiler else compiler.

Definition to_glsl (blob : spirv_blob_t) (glsl_version : Z)
    (is_gles is_vulkan : bool) (opt_mask : Z) (type : snippet_type)
    : option spirvcross_source_t :=
  let options := glsl_options glsl_version is_gles is_vulkan opt_mask in
  let compiler := to_glsl_prepare blob is_vulkan type in
  let '(src, compiler) := compile options compiler in
  if negb (bool_decide (src = "")) then
    r ← parse_reflection compiler is_vulkan;
    Some {| src_valid := true; source_code := src; refl := r;
            src_snippet_index := -1 |}
  else Some source_default.

Definition hlsl5_options (opt_mask : Z) : backend_options :=
  HLSLOptions true (option_set opt_mask FIXUP_CLIPSPACE)
    (option_set opt_mask FLIP_VERT_Y) 50 true.

Definition to_hlsl5_prepare (blob : spirv_blob_t) (type : snippet_type)
    : Compiler :=
  let compiler := bytecode blob in
  let compiler := fix_bind_slots compiler type false in
  fix_ub_matrix_force_colmajor compiler.

Definition to_hlsl5 (blob : spirv_blob_t) (opt_mask : Z) (type : snippet_type)
    : option spirvcross_source_t :=
  let compiler := to_hlsl5_prepare blob type in
  let '(src, compiler) := compile (hlsl5_options opt_mask) compiler in
  if negb (bool_decide (src = "")) then
    r ← parse_reflection compiler false;
    Some {| src_valid := true; source_code := src; refl := r;
            src_snippet_index := -1 |}
  else Some source_default.

Definition msl_options (plat : MSLPlatform) (opt_mask : Z) : backend_options :=
  MSLOptions true (option_set opt_mask FIXUP_CLIPSPACE)
    (option_set opt_mask FLIP_VERT_Y) plat true.

Definition to_msl_prepare (blob : spirv_blob_t) (type : snippet_type)
    : Compiler :=
  let compiler := bytecode blob in
  fix_bind_slots compiler type false.

Definition to_msl (blob : spirv_blob_t) (plat : MSLPlatform) (opt_mask : Z)
    (type : snippet_type) : option spirvcross_source_t :=
  let compiler := to_msl_prepare blob type in
  let '(src, compiler) := compile (msl_options plat opt_mask) compiler in
  if negb (bool_decide (src = "")) then
    r ← parse_reflection compiler false;
    (* Metal's entry point functions are called main0() because main() is
       reserved *)
    let r := set_entry_point r (entry_point r +:+ "0") in
    Some {| src_valid := true; source_code := src; refl := r;
            src_snippet_index := -1 |}
  else Some source_default.

(** *** Cross-shader deduplicator *)

Fixpoint find_ub_from (pool : list uniform_block_t) (name : string) (i : Z) : Z :=
  match pool with
  | [] => -1
  | ub :: pool =>
      if bool_decide (ub_name ub = name) then i
      else find_ub_from pool name (i + 1)
  end.

(** the function reads [spv_cross.unique_uniform_blocks] only, which is
    passed here as [pool] *)
Definition find_unique_uniform_block_by_name (pool : list uniform_block_t)
    (name : string) : Z :=
  find_ub_from pool name 0.

Fixpoint find_img_from (pool : list image_t) (name : string) (i : Z) : Z :=
  match pool with
  | [] => -1
  | img :: pool =>
      if bool_decide (img_name img = name) then i
      else find_img_from pool name (i + 1)
  end.

Definition find_unique_image_by_name (pool : list image_t) (name : string)
    : Z :=
  find_img_from pool name 0.

Definition set_ub_unique_index (ub : uniform_block_t) (i : Z) : uniform_block_t :=
  {| ub_slot := ub_slot ub; ub_size := ub_size ub; ub_name := ub_name ub;
     ub_uniforms := ub_uniforms ub; ub_unique_index := i |}.

Definition set_img_unique_index (img : image_t) (i : Z) : image_t :=
  {| img_slot := img_slot img; img_name := img_name img;
     img_type := img_type img; img_base_type := img_base_type img;
     img_unique_index := i |}.

Definition set_uniform_blocks (src : spirvcross_source_t)
    (ubs : list uniform_block_t) : spirvcross_source_t :=
  {| src_valid := src_valid src; source_code := source_code src;
     refl := {| stage := stage (refl src); entry_point := entry_point (refl src);
                inputs := inputs (refl src); outputs := outputs (refl src);
                uniform_blocks := ubs; images := images (refl src) |};
     src_snippet_index := src_snippet_index src |}.

Definition set_images (src : spirvcross_source_t) (imgs : list image_t)
    : spirvcross_source_t :=
  {| src_valid := src_valid src; source_code := source_code src;
     refl := {| stage := stage (refl src); entry_point := entry_point (refl src);
                inputs := inputs (refl src); outputs := outputs (refl src);
                uniform_blocks := uniform_blocks (refl src); images := imgs |};
     src_snippet_index := src_snippet_index src |}.

Definition set_snippet_index (src : spirvcross_source_t) (i : Z)
    : spirvcross_source_t :=
  {| src_valid := src_valid src; source_code := source_code src;
     refl := refl src; src_snippet_index := i |}.

Definition set_error (spv_cross : spirvcross_t) (e : errmsg_t) : spirvcross_t :=
  {| sources := sources spv_cross;
     unique_uniform_blocks := unique_uniform_blocks spv_cross;
     unique_images := unique_images spv_cross; error := e |}.

Definition push_source (spv_cross : spirvcross_t) (src : spirvcross_source_t)
    : spirvcross_t :=
  {| sources := sources spv_cross ++ [src];
     unique_uniform_blocks := unique_uniform_blocks spv_cross;
     unique_images := unique_images spv_cross; error := error spv_cross |}.

(** The body of the inner loop of [gather_unique_uniform_blocks] for one
    block [ub] against the pool: the pool and the block as the body leaves
    them, and the error when the body returns [false]. *)
Definition gather_uniform_block (inp : input_t) (pool : list uniform_block_t)
    (ub : uniform_block_t)
    : list uniform_block_t * uniform_block_t * option errmsg_t :=
  let other_ub_index :=
    find_unique_uniform_block_by_name pool (ub_name ub) in
  if bool_decide (0 ≤ other_ub_index) then
    if ub_equals ub (nth (Z.to_nat other_ub_index) pool ub) then
      (* identical uniform block already exists, take note of the index *)
      (pool, set_ub_unique_index ub other_ub_index, None)
    else
      (pool, ub,
       Some (errmsg_error (base_path inp) 0
               ("conflicting uniform block definitions found for '"
                +:+ ub_name ub +:+ "'")))
  else
    (* a new unique uniform block *)
    let ub := set_ub_unique_index ub (Z.of_nat (length pool)) in
    (pool ++ [ub], ub, None).

(** the inner loop: the blocks of one source, in place *)
Fixpoint gather_uniform_blocks_of (inp : input_t) (pool : list uniform_block_t)
    (ubs : list uniform_block_t)
    : list uniform_block_t * list uniform_block_t * option errmsg_t :=
  match ubs with
  | [] => (pool, [], None)
  | ub :: ubs =>
      match gather_uniform_block inp pool ub with
      | (pool, ub, Some err) => (pool, ub :: ubs, Some err)
      | (pool, ub, None) =>
          let '(pool, ubs, err) := gather_uniform_blocks_of inp pool ubs in
          (pool, ub :: ubs, err)
      end
  end.

(** the outer loop over the sources *)
Fixpoint gather_uniform_blocks_in (inp : input_t) (pool : list uniform_block_t)
    (srcs : list spirvcross_source_t)
    : list uniform_block_t * list spirvcross_source_t * option errmsg_t :=
  match srcs with
  | [] => (pool, [], None)
  | src :: srcs =>
      match gather_uniform_blocks_of inp pool (uniform_blocks (refl src)) with
      | (pool, ubs, Some err) =>
          (pool, set_uniform_blocks src ubs :: srcs, Some err)
      | (pool, ubs, None) =>
          let '(pool, srcs, err) := gather_uniform_blocks_in inp pool srcs in
          (pool, set_uniform_blocks src ubs :: srcs, err)
      end
  end.

(** [spv_cross] is updated in place; the flag is the function's result *)
Definition gather_unique_uniform_blocks (inp : input_t) (spv_cross : spirvcross_t)
    : bool * spirvcross_t :=
  let '(pool, srcs, err) :=
    gather_uniform_blocks_in inp (unique_uniform_blocks spv_cross)
      (sources spv_cross) in
  let spv_cross :=
    {| sources := srcs; unique_uniform_blocks := pool;
       unique_images := unique_images spv_cross; error := error spv_cross |} in
  match err with
  | Some e => (false, set_error spv_cross e)
  | None => (true, spv_cross)
  end.

Definition gather_image (inp : input_t) (pool : list image_t) (img : image_t)
    : list image_t * image_t * option errmsg_t :=
  let other_img_index := find_unique_image_by_name pool (img_name img) in
  if bool_decide (0 ≤ other_img_index) then
    if img_equals img (nth (Z.to_nat other_img_index) pool img) then
      (* identical image already exists, take note of the index *)
      (pool, set_img_unique_index img other_img_index, None)
    else
      (pool, img,
       Some (errmsg_error (base_path inp) 0
               ("conflicting texture definitions found for '"
                +:+ img_name img +:+ "'")))
  else
    (* new unique image *)
    let img := set_img_unique_index img (Z.of_nat (length pool)) in
    (pool ++ [img], img, None).

Fixpoint gather_images_of (inp : input_t) (pool : list image_t)
    (imgs : list image_t) : list image_t * list image_t * option errmsg_t :=
  match imgs with
  | [] => (pool, [], None)
  | img :: imgs =>
      match gather_image inp pool img with
      | (pool, img, Some err) => (pool, img :: imgs, Some err)
      | (pool, img, None) =>
          let '(pool, imgs, err) := gather_images_of inp pool imgs in
          (pool, img :: imgs, err)
      end
  end.

Fixpoint gather_images_in (inp : input_t) (pool : list image_t)
    (srcs : list spirvcross_source_t)
    : list image_t * list spirvcross_source_t * option errmsg_t :=
  match srcs with
  | [] => (pool, [], None)
  | src :: srcs =>
      match gather_images_of inp pool (images (refl src)) with
      | (pool, imgs, Some err) => (pool, set_images src imgs :: srcs, Some err)
      | (pool, imgs, None) =>
          let '(pool, srcs, err) := gather_images_in inp pool srcs in
          (pool, set_images src imgs :: srcs, err)
      end
  end.

Definition gather_unique_images (inp : input_t) (spv_cross : spirvcross_t)
    : bool * spirvcross_t :=
  let '(pool, srcs, err) :=
    gather_images_in inp (unique_images spv_cross) (sources spv_cross) in
  let spv_cross :=
    {| sources := srcs;
       unique_uniform_blocks := unique_uniform_blocks spv_cross;
       unique_images := pool; error := error spv_cross |} in
  match err with
  | Some e => (false, set_error spv_cross e)
  | None => (true, spv_cross)
  end.

(** *** Interface validator *)

(** the loop over the attribute slots, [count] slots from slot [i] on; the
    inner [Some err] is the early return *)
Fixpoint link_slots (inp : input_t) (prog : program_t)
    (vs_src fs_src : spirvcross_source_t) (count : nat) (i : Z)
    : option (option errmsg_t) :=
  match count with
  | O => Some None
  | S count =>
      vs_out ← vec_at (outputs (refl vs_src)) i;
      fs_inp ← vec_at (inputs (refl fs_src)) i;
      if negb (attr_equals vs_out fs_inp) then
        Some (Some (input_error inp (prog_line_index prog)
          ("outputs of vs '" +:+ prog_vs_name prog
           +:+ "' don't match inputs of fs '" +:+ prog_fs_name prog
           +:+ "' for attr #" +:+ fmt_int i
           +:+ " (vs=" +:+ attr_name vs_out +:+ ",fs=" +:+ attr_name fs_inp
           +:+ ")" +:+ String (ascii_of_nat 10) "")))
      else link_slots inp prog vs_src fs_src count (i + 1)
  end.

(** the head of the body of the loop over the programs: the two sources
    of a program, found by snippet index *)
Definition linked_sources (inp : input_t) (spv_cross : spirvcross_t)
    (prog : program_t) : option (spirvcross_source_t * spirvcross_source_t) :=
  vs_snippet_index ← vs_map inp !! prog_vs_name prog;
  fs_snippet_index ← fs_map inp !! prog_fs_name prog;
  let vs_src_index := find_source_by_snippet_index spv_cross vs_snippet_index in
  let fs_src_index := find_source_by_snippet_index spv_cross fs_snippet_index in
  if negb (bool_decide (0 ≤ vs_src_index) && bool_decide (0 ≤ fs_src_index))
  then None
  else
    vs_src ← vec_at (sources spv_cross) vs_src_index;
    fs_src ← vec_at (sources spv_cross) fs_src_index;
    if negb (bool_decide (vs_snippet_index = src_snippet_index vs_src)) then None
    else if negb (bool_decide (fs_snippet_index = src_snippet_index fs_src))
    then None
    else Some (vs_src, fs_src).

Definition link_program (inp : input_t) (spv_cross : spirvcross_t)
    (prog : program_t) : option (option errmsg_t) :=
  match linked_sources inp spv_cross prog with
  | Some (vs_src, fs_src) => link_slots inp prog vs_src fs_src attr_NUM 0
  | None => None
  end.

Fixpoint link_programs (inp : input_t) (spv_cross : spirvcross_t)
    (progs : list (string * program_t)) : option errmsg_t :=
  match progs with
  | [] => Some errmsg_default
  | prog_item :: progs =>
      let prog := prog_item.2 in
      r ← link_program inp spv_cross prog;
      match r with
      | Some err => Some err
      | None => link_programs inp spv_cross progs
      end
  end.

Definition validate_linking (inp : input_t) (spv_cross : spirvcross_t)
    : option errmsg_t :=
  link_programs inp spv_cross (programs inp).

(** *** One target pass *)

Definition spirvcross_empty : spirvcross_t :=
  {| sources := []; unique_uniform_blocks := []; unique_images := [];
     error := errmsg_default |}.

(** the [switch] over the target language; no branch of it is taken for a
    value outside the eight targets, which leaves [src] default-constructed *)
Definition translate_switch (slang : slang_t) (blob : spirv_blob_t)
    (opt_mask : Z) (type : snippet_type) : option spirvcross_source_t :=
  match slang with
  | GLSL330 => to_glsl blob 330 false false opt_mask type
  | GLSL100 => to_glsl blob 100 true false opt_mask type
  | GLSL300ES => to_glsl blob 300 true false opt_mask type
  | HLSL5 => to_hlsl5 blob opt_mask type
  | METAL_MACOS => to_msl blob macOS opt_mask type
  | METAL_IOS | METAL_SIM => to_msl blob iOS opt_mask type
  | WGPU =>
      (* just compile to GLSL even for SPIRV output so that the same
         reflection calls can be used as for the other output types *)
      to_glsl blob 450 false true opt_mask type
  end.

(** The body of the loop over the blobs. The flag tells whether the loop
    goes on ([true]) or [translate] returns from within the body. *)
Definition translate_blob (inp : input_t) (slang : slang_t)
    (spv_cross : spirvcross_t) (blob : spirv_blob_t)
    : option (bool * spirvcross_t) :=
  snippet ← vec_at (snippets inp) (blob_snippet_index blob);
  let opt_mask := snippet_options snippet slang in
  let type := snippet_type_of snippet in
  if negb (bool_decide (type = VS) || bool_decide (type = FS)) then None
  else
    src ← translate_switch slang blob opt_mask type;
    if src_valid src then
      let src := set_snippet_index src (blob_snippet_index blob) in
      let spv_cross := push_source spv_cross src in
      let '(ok, spv_cross) := gather_unique_uniform_blocks inp spv_cross in
      if negb ok then
        (* error has been set in spv_cross.error *)
        Some (false, spv_cross)
      else
        let '(ok, spv_cross) := gather_unique_images inp spv_cross in
        if negb ok then Some (false, spv_cross)
        else Some (true, spv_cross)
    else
      line_index ← vec_at (snippet_lines snippet) 0;
      let err_msg :=
        "Failed to cross-compile to " +:+ slang_to_str slang +:+ "." in
      Some (false, set_error spv_cross (input_error inp line_index err_msg)).

Fixpoint translate_blobs (inp : input_t) (slang : slang_t)
    (spv_cross : spirvcross_t) (blobs : list spirv_blob_t)
    : option (bool * spirvcross_t) :=
  match blobs with
  | [] => Some (true, spv_cross)
  | blob :: blobs =>
      match translate_blob inp slang spv_cross blob with
      | Some (true, spv_cross) => translate_blobs inp slang spv_cross blobs
      | Some (false, spv_cross) => Some (false, spv_cross)
      | None => None
      end
  end.

Definition translate (inp : input_t) (spirv : spirv_t) (slang : slang_t)
    : option spirvcross_t :=
  match translate_blobs inp slang spirvcross_empty (blobs spirv) with
  | Some (true, spv_cross) =>
      (* check that vertex-shader outputs match their fragment shader inputs *)
      err ← validate_linking inp spv_cross;
      if err_valid err then Some (set_error spv_cross err) else Some spv_cross
  | Some (false, spv_cross) => Some spv_cross
  | None => None
  end.

(** *** Binary serializer

    The stream is the list of the bytes written so far; integers are
    written in the host's byte order, little-endian. A failed assertion
    is [None]. *)

Definition byte_of_Z (z : Z) : byte :=
  default x00 (Byte.of_N (Z.to_N (u8 z))).

Definition write_byte (stream : list byte) (b : Z) : list byte :=
  stream ++ [byte_of_Z b].

Definition write_u16 (stream : list byte) (val : Z) : list byte :=
  let val := u16 val in
  stream ++ [byte_of_Z val; byte_of_Z (val / 256)].

Definition write_string (stream : list byte) (str : string)
    : option (list byte) :=
  if negb (bool_decide (Z.of_nat (String.length str) < UINT16_MAX)) then None
  else
    let sz := u16 (Z.of_nat (String.length str)) in
    (* write the length of the string as a u16 *)
    let stream := write_u16 stream sz in
    (* write the string's bytes *)
    Some (stream ++ list_byte_of_string str).

Definition write_attr (stream : list byte) (attr : attr_t)
    : option (list byte) :=
  stream ← write_string stream (attr_name attr);
  let stream := write_u16 stream (attr_slot attr) in
  stream ← write_string stream (attr_sem_name attr);
  Some (write_byte stream (attr_sem_index attr)).

Fixpoint write_uniforms (stream : list byte) (uniforms : list uniform_t)
    : option (list byte) :=
  match uniforms with
  | [] => Some stream
  | uniform :: uniforms =>
      stream ← write_string stream (uniform_name uniform);
      let stream :=
        write_byte stream (uniform_type_code (uniform_type_of uniform)) in
      let stream := write_u16 stream (uniform_array_count uniform) in
      let stream := write_u16 stream (uniform_offset uniform) in
      write_uniforms stream uniforms
  end.

Definition write_uniform_block (stream : list byte) (ub : uniform_block_t)
    : option (list byte) :=
  let stream := write_u16 stream (Z.of_nat (length (ub_uniforms ub))) in
  write_uniforms stream (ub_uniforms ub).

Definition write_image (stream : list byte) (img : image_t)
    : option (list byte) :=
  stream ← write_string stream (img_name img);
  let stream := write_u16 stream (img_slot img) in
  let stream := write_byte stream (image_type_code (img_type img)) in
  Some (write_byte stream (image_basetype_code (img_base_type img))).

Definition write_chars (stream : list byte) (chars : string) : list byte :=
  stream ++ list_byte_of_string chars.

Definition BINARY_FORMAT_VERSION : Z := 1.

Definition count_attrs (attrs : list attr_t) : Z :=
  foldl (λ count attr, if bool_decide (0 ≤ attr_slot attr) then count + 1
                       else count) 0 attrs.

Fixpoint write_attrs (stream : list byte) (attrs : list attr_t)
    : option (list byte) :=
  match attrs with
  | [] => Some stream
  | attr :: attrs =>
      if bool_decide (0 ≤ attr_slot attr) then
        stream ← write_attr stream attr;
        write_attrs stream attrs
      else write_attrs stream attrs
  end.

Fixpoint write_uniform_blocks (stream : list byte) (ubs : list uniform_block_t)
    : option (list byte) :=
  match ubs with
  | [] => Some stream
  | ub :: ubs =>
      stream ← write_uniform_block stream ub;
      write_uniform_blocks stream ubs
  end.

Fixpoint write_images (stream : list byte) (imgs : list image_t)
    : option (list byte) :=
  match imgs with
  | [] => Some stream
  | img :: imgs =>
      stream ← write_image stream img;
      write_images stream imgs
  end.

Definition write_binary_reflection_info (stream : list byte)
    (refl : spirvcross_refl_t) : option (list byte) :=
  let stream := write_chars stream "SHDC" in
  let stream := write_u16 stream BINARY_FORMAT_VERSION in
  let stream := write_byte stream (stage_code (stage refl)) in
  stream ← write_string stream (entry_point refl);
  (* inputs *)
  let count := count_attrs (inputs refl) in
  let stream := write_u16 stream count in
  stream ← write_attrs stream (inputs refl);
  (* outputs *)
  let count := count_attrs (outputs refl) in
  let stream := write_u16 stream count in
  stream ← write_attrs stream (outputs refl);
  (* uniform blocks *)
  let stream := write_u16 stream (Z.of_nat (length (uniform_blocks refl))) in
  stream ← write_uniform_blocks stream (uniform_blocks refl);
  (* images *)
  let stream := write_u16 stream (Z.of_nat (length (images refl))) in
  write_images stream (images refl).

End Model.

(** ** A reader for the binary reflection format

    Written against the layout table of the format, not against the
    writer: magic, version (u16), stage (u8), entry point (string), the
    counted input and output attributes, the counted uniform blocks, each
    a counted list of members, and the counted images. Integers are
    little-endian; a string is its u16 length followed by that many
    bytes. Every reader returns the value and the rest of the stream. *)

Record layout_uniform := {
  lu_name : string;
  lu_type : Z;
  lu_array_count : Z;
  lu_offset : Z
}.

Record layout_image := {
  li_name : string;
  li_slot : Z;
  li_type : Z;
  li_base_type : Z
}.

Record layout_refl := {
  lr_version : Z;
  lr_stage : Z;
  lr_entry_point : string;
  lr_inputs : list attr_t;
  lr_outputs : list attr_t;
  lr_uniform_blocks : list (list layout_uniform);
  lr_images : list layout_image
}.

Definition Z_of_byte (b : byte) : Z := Z.of_N (Byte.to_N b).

Definition read_u8 (bs : list byte) : option (Z * list byte) :=
  match bs with
  | b :: bs => Some (Z_of_byte b, bs)
  | [] => None
  end.

Definition read_u16 (bs : list byte) : option (Z * list byte) :=
  match bs with
  | lo :: hi :: bs => Some (Z_of_byte lo + 256 * Z_of_byte hi, bs)
  | _ => None
  end.

Definition read_bytes (n : nat) (bs : list byte)
    : option (list byte * list byte) :=
  if decide (n ≤ length bs)%nat then Some (take n bs, drop n bs) else None.

Definition read_string (bs : list byte) : option (string * list byte) :=
  match read_u16 bs with
  | Some (len, bs) =>
      match read_bytes (Z.to_nat len) bs with
      | Some (chars, bs) => Some (string_of_list_byte chars, bs)
      | None => None
      end
  | None => None
  end.

(** [n] items, each read by [read] *)
Fixpoint read_many {A} (read : list byte → option (A * list byte)) (n : nat)
    (bs : list byte) : option (list A * list byte) :=
  match n with
  | O => Some ([], bs)
  | S n =>
      match read bs with
      | Some (x, bs) =>
          match read_many read n bs with
          | Some (xs, bs) => Some (x :: xs, bs)
          | None => None
          end
      | None => None
      end
  end.

(** a u16 count followed by that many items *)
Definition read_counted {A} (read : list byte → option (A * list byte))
    (bs : list byte) : option (list A * list byte) :=
  match read_u16 bs with
  | Some (count, bs) => read_many read (Z.to_nat count) bs
  | None => None
  end.

Definition read_attr (bs : list byte) : option (attr_t * list byte) :=
  match read_string bs with
  | Some (name, bs) =>
      match read_u16 bs with
      | Some (slot, bs) =>
          match read_string bs with
          | Some (sem_name, bs) =>
              match read_u8 bs with
              | Some (sem_index, bs) =>
                  Some ({| attr_slot := slot; attr_name := name;
                           attr_sem_name := sem_name;
                           attr_sem_index := sem_index |}, bs)
              | None => None
              end
          | None => None
          end
      | None => None
      end
  | None => None
  end.

Definition read_uniform (bs : list byte) : option (layout_uniform * list byte) :=
  match read_string bs with
  | Some (name, bs) =>
      match read_u8 bs with
      | Some (type, bs) =>
          match read_u16 bs with
          | Some (array_count, bs) =>
              match read_u16 bs with
              | Some (offset, bs) =>
                  Some ({| lu_name := name; lu_type := type;
                           lu_array_count := array_count;
                           lu_offset := offset |}, bs)
              | None => None
              end
          | None => None
          end
      | None => None
      end
  | None => None
  end.

Definition read_image (bs : list byte) : option (layout_image * list byte) :=
  match read_string bs with
  | Some (name, bs) =>
      match read_u16 bs with
      | Some (slot, bs) =>
          match read_u8 bs with
          | Some (type, bs) =>
              match read_u8 bs with
              | Some (base_type, bs) =>
                  Some ({| li_name := name; li_slot := slot; li_type := type;
                           li_base_type := base_type |}, bs)
              | None => None
              end
          | None => None
          end
      | None => None
      end
  | None => None
  end.

Definition read_magic (bs : list byte) : option (list byte) :=
  match read_bytes 4 bs with
  | Some (magic, bs) =>
      if decide (string_of_list_byte magic = "SHDC") then Some bs else None
  | None => None
  end.

Definition read_binary_reflection_info (bs : list byte)
    : option (layout_refl * list byte) :=
  match read_magic bs with
  | Some bs =>
  match read_u16 bs with
  | Some (version, bs) =>
  match read_u8 bs with
  | Some (stage, bs) =>
  match read_string bs with
  | Some (entry, bs) =>
  match read_counted read_attr bs with
  | Some (ins, bs) =>
  match read_counted read_attr bs with
  | Some (outs, bs) =>
  match read_counted (read_counted read_uniform) bs with
  | Some (ubs, bs) =>
  match read_counted read_image bs with
  | Some (imgs, bs) =>
      Some ({| lr_version := version; lr_stage := stage;
               lr_entry_point := entry; lr_inputs := ins; lr_outputs := outs;
               lr_uniform_blocks := ubs; lr_images := imgs |}, bs)
  | None => None end
  | None => None end
  | None => None end
  | None => None end
  | None => None end
  | None => None end
  | None => None end
  | None => None end.

(** ** Declarations and data used in the examples

    Modelled from the spec: one choice of the declarations of shdc.h. The
    attribute arrays have sixteen entries; attributes are equal when slot,
    name and semantic identity agree; uniform blocks are equal when their
    ordered member lists agree in name, type, array count and offset;
    images are equal when dimensionality and base type agree; the binding
    slot takes no part in either. The stage is written as 0 (invalid),
    1 (vertex) or 2 (fragment), the other enumerations are numbered in the
    order of their declaration. *)

Definition uniform_equals (a b : uniform_t) : bool :=
  bool_decide (uniform_name a = uniform_name b)
  && bool_decide (uniform_type_of a = uniform_type_of b)
  && bool_decide (uniform_array_count a = uniform_array_count b)
  && bool_decide (uniform_offset a = uniform_offset b).

Fixpoint uniforms_equal (l1 l2 : list uniform_t) : bool :=
  match l1, l2 with
  | [], [] => true
  | a :: l1, b :: l2 => uniform_equals a b && uniforms_equal l1 l2
  | _, _ => false
  end.

Definition spec_decls : ShdcDecls :=
  {| attr_NUM := 16;
     attr_equals a b :=
       bool_decide (attr_slot a = attr_slot b)
       && bool_decide (attr_name a = attr_name b)
       && bool_decide (attr_sem_name a = attr_sem_name b)
       && bool_decide (attr_sem_index a = attr_sem_index b);
     ub_equals a b := uniforms_equal (ub_uniforms a) (ub_uniforms b);
     img_equals a b :=
       bool_decide (img_type a = img_type b)
       && bool_decide (img_base_type a = img_base_type b);
     FIXUP_CLIPSPACE := 1;
     FLIP_VERT_Y := 2;
     slang_to_str s :=
       match s with
       | GLSL330 => "glsl330" | GLSL100 => "glsl100"
       | GLSL300ES => "glsl300es" | HLSL5 => "hlsl5"
       | METAL_MACOS => "metal_macos" | METAL_IOS => "metal_ios"
       | METAL_SIM => "metal_sim" | WGPU => "wgpu"
       end;
     stage_code s :=
       match s with STAGE_INVALID => 0 | STAGE_VS => 1 | STAGE_FS => 2 end;
     uniform_type_code t :=
       match t with
       | UNIFORM_INVALID => 0 | FLOAT => 1 | FLOAT2 => 2 | FLOAT3 => 3
       | FLOAT4 => 4 | MAT4 => 5
       end;
     image_type_code t :=
       match t with
       | IMAGE_TYPE_INVALID => 0 | IMAGE_TYPE_2D => 1 | IMAGE_TYPE_CUBE => 2
       | IMAGE_TYPE_3D => 3 | IMAGE_TYPE_ARRAY => 4
       end;
     image_basetype_code t :=
       match t with
       | IMAGE_BASETYPE_NONE => 0 | IMAGE_BASETYPE_SINT => 1
       | IMAGE_BASETYPE_UINT => 2 | IMAGE_BASETYPE_FLOAT => 3
       end |}.

(** A translator for the examples: it emits a fixed text, leaves its state
    as it is and reports sixteen bytes per block member. *)
Definition example_translator : Translator :=
  {| compile _ c := ("void main() {}", c);
     get_declared_struct_size _ t := 16 * Z.of_nat (length (member_types t));
     type_struct_member_offset _ _ m_index := 16 * Z.of_nat m_index |}.

(** a translator that rejects every module *)
Definition failing_translator : Translator :=
  {| compile _ c := ("", c);
     get_declared_struct_size _ _ := 0;
     type_struct_member_offset _ _ _ := 0 |}.

Definition float_type (vecsize columns : Z) : SPIRType :=
  {| basetype := Float; vecsize := vecsize; columns := columns; array := [];
     member_types := [];
     image := {| image_type := 0%N; image_dim := Dim2D;
                 image_arrayed := false |} |}.

(** type 1: a block [params] of one [mat4 mvp] (type 2) and one [vec4 tint]
    (type 3); type 4: a 2D float texture; type 5: [vec4] *)
Definition example_types (id : TypeID) : SPIRType :=
  if decide (id = 1%N) then
    {| basetype := Struct; vecsize := 1; columns := 1; array := [];
       member_types := [2%N; 3%N];
       image := {| image_type := 0%N; image_dim := Dim2D;
                   image_arrayed := false |} |}
  else if decide (id = 2%N) then float_type 4 4
  else if decide (id = 4%N) then
    {| basetype := SampledImage; vecsize := 1; columns := 1; array := [];
       member_types := [];
       image := {| image_type := 5%N; image_dim := Dim2D;
                   image_arrayed := false |} |}
  else float_type 4 1.

Definition example_member_names (id : TypeID) (index : nat) : string :=
  match index with O => "mvp" | _ => "tint" end.

Definition resource (id : ID) (type_id : TypeID) (name : string) : Resource :=
  {| res_id := id; res_type_id := type_id; res_base_type_id := type_id;
     res_name := name |}.

(** a vertex shader: input [position] at location 0, outputs [color] at
    location 0 and [uv] at location 1, the block [params] and a texture *)
Definition example_vs : Compiler :=
  {| shader_resources :=
       {| uniform_buffers := [resource 10%N 1%N "params"];
          stage_inputs := [resource 20%N 5%N "position"];
          stage_outputs := [resource 21%N 5%N "color"; resource 22%N 5%N "uv"];
          sampled_images := [resource 30%N 4%N "tex"] |};
     types := example_types;
     member_names := example_member_names;
     decorations :=
       {[ (20%N, DecorationLocation) := 0; (21%N, DecorationLocation) := 0;
          (22%N, DecorationLocation) := 1;
          (10%N, DecorationBinding) := 7; (30%N, DecorationBinding) := 9 ]};
     member_decorations := ∅;
     flattened_blocks := [];
     execution_model := ExecutionModelVertex;
     entry_points :=
       [{| ep_name := "main"; ep_execution_model := ExecutionModelVertex |}] |}.

(** the matching fragment shader: inputs [color] and [uv], output
    [frag_color], the same block and texture *)
Definition example_fs : Compiler :=
  {| shader_resources :=
       {| uniform_buffers := [resource 10%N 1%N "params"];
          stage_inputs := [resource 21%N 5%N "color"; resource 22%N 5%N "uv"];
          stage_outputs := [];
          sampled_images := [resource 30%N 4%N "tex"] |};
     types := example_types;
     member_names := example_member_names;
     decorations :=
       {[ (21%N, DecorationLocation) := 0; (22%N, DecorationLocation) := 1 ]};
     member_decorations := ∅;
     flattened_blocks := [];
     execution_model := ExecutionModelFragment;
     entry_points :=
       [{| ep_name := "main"; ep_execution_model := ExecutionModelFragment |}] |}.

Definition example_vs_blob : spirv_blob_t :=
  {| blob_snippet_index := 0; bytecode := example_vs |}.
Definition example_fs_blob : spirv_blob_t :=
  {| blob_snippet_index := 1; bytecode := example_fs |}.

Definition example_snippet (type : snippet_type) : snippet_t :=
  {| snippet_type_of := type; snippet_options := λ _, 0; snippet_lines := [3] |}.

Definition example_input : input_t :=
  {| base_path := "shader.glsl";
     snippets := [example_snippet VS; example_snippet FS];
     programs :=
       [("prog", {| prog_vs_name := "vs"; prog_fs_name := "fs";
                    prog_line_index := 9 |})];
     vs_map := {[ "vs" := 0 ]};
     fs_map := {[ "fs" := 1 ]} |}.

Definition example_spirv : spirv_t :=
  {| blobs := [example_vs_blob; example_fs_blob] |}.


(** a reflection record with a block of a [mat4] array of 1024 elements,
    which fills bytes 0 to 65535, followed by a [vec4] at [offset] *)
Definition bones_refl (offset : Z) : spirvcross_refl_t :=
  {| stage := STAGE_VS; entry_point := "main";
     inputs := replicate 16 attr_default;
     outputs := replicate 16 attr_default;
     uniform_blocks :=
       [{| ub_slot := 0; ub_size := 65552; ub_name := "skin";
           ub_uniforms :=
             [{| uniform_name := "bones"; uniform_type_of := MAT4;
                 uniform_array_count := 1024; uniform_offset := 0 |};
              {| uniform_name := "tint"; uniform_type_of := FLOAT4;
                 uniform_array_count := 0; uniform_offset := offset |}];
           ub_unique_index := 0 |}];
     images := [] |}.


(** [bones_refl 0] with another name, slot, size and pool index for its
    block *)
Definition renamed_refl : spirvcross_refl_t :=
  {| stage := STAGE_VS; entry_point := "main";
     inputs := replicate 16 attr_default;
     outputs := replicate 16 attr_default;
     uniform_blocks :=
       [{| ub_slot := 3; ub_size := 16; ub_name := "other";
           ub_uniforms :=
             [{| uniform_name := "bones"; uniform_type_of := MAT4;
                 uniform_array_count := 1024; uniform_offset := 0 |};
              {| uniform_name := "tint"; uniform_type_of := FLOAT4;
                 uniform_array_count := 0; uniform_offset := 0 |}];
           ub_unique_index := 5 |}];
     images := [] |}.

(** a fragment shader that reads [uv] at location 0, where the vertex
    shader writes [color] *)
Definition example_fs_uv : Compiler :=
  {| shader_resources :=
       {| uniform_buffers := [resource 10%N 1%N "params"];
          stage_inputs := [resource 22%N 5%N "uv"];
          stage_outputs := [];
          sampled_images := [resource 30%N 4%N "tex"] |};
     types := example_types;
     member_names := example_member_names;
     decorations := {[ (22%N, DecorationLocation) := 0 ]};
     member_decorations := ∅;
     flattened_blocks := [];
     execution_model := ExecutionModelFragment;
     entry_points :=
       [{| ep_name := "main"; ep_execution_model := ExecutionModelFragment |}] |}.

Definition mismatch_spirv : spirv_t :=
  {| blobs := [example_vs_blob;
               {| blob_snippet_index := 1; bytecode := example_fs_uv |}] |}.

(** a fragment shader whose block [params] has one member only (type 6) *)
Definition example_fs_small : Compiler :=
  {| shader_resources :=
       {| uniform_buffers := [resource 10%N 6%N "params"];
          stage_inputs := [resource 21%N 5%N "color"; resource 22%N 5%N "uv"];
          stage_outputs := [];
          sampled_images := [] |};
     types := λ id,
       if decide (id = 6%N) then
         {| basetype := Struct; vecsize := 1; columns := 1; array := [];
            member_types := [3%N];
            image := {| image_type := 0%N; image_dim := Dim2D;
                        image_arrayed := false |} |}
       else example_types id;
     member_names := example_member_names;
     decorations :=
       {[ (21%N, DecorationLocation) := 0; (22%N, DecorationLocation) := 1 ]};
     member_decorations := ∅;
     flattened_blocks := [];
     execution_model := ExecutionModelFragment;
     entry_points :=
       [{| ep_name := "main"; ep_execution_model := ExecutionModelFragment |}] |}.

Definition conflict_spirv : spirv_t :=
  {| blobs := [example_vs_blob;
               {| blob_snippet_index := 1; bytecode := example_fs_small |}] |}.

(** ** Statements used by the theorems *)

(** [c'] carries the slot assignment for the resources [res]: the k-th
    uniform block is in set 0 at binding [ub_start + k], the k-th sampled
    image in set [img_set] at binding [k]. *)
Definition slots_assigned (res : ShaderResources) (c' : Compiler)
    (ub_start img_set : Z) : Prop :=
  (∀ (k : nat) ub_res, uniform_buffers res !! k = Some ub_res →
     get_decoration c' (res_id ub_res) DecorationDescriptorSet = 0
     ∧ get_decoration c' (res_id ub_res) DecorationBinding
       = ub_start + Z.of_nat k)
  ∧ (∀ (k : nat) img_res, sampled_images res !! k = Some img_res →
       get_decoration c' (res_id img_res) DecorationDescriptorSet = img_set
       ∧ get_decoration c' (res_id img_res) DecorationBinding = Z.of_nat k).

(** the first uniform-block binding that [fix_bind_slots] hands out *)
Definition ub_start (type : snippet_type) (is_vulkan : bool) : Z :=
  if is_vulkan then (if bool_decide (type = VS) then 0 else 4) else 0.

Definition img_set_of (type : snippet_type) : Z :=
  if bool_decide (type = VS) then 1 else 2.

(** the resources of a module carry pairwise different ids, and there are
    fewer of them than 32-bit slots *)
Definition resources_wf (res : ShaderResources) : Prop :=
  NoDup (map res_id (uniform_buffers res ++ sampled_images res))
  ∧ Z.of_nat (length (uniform_buffers res)) + 4 < 2 ^ 31
  ∧ Z.of_nat (length (sampled_images res)) < 2 ^ 31.

(** a member type that is a float matrix *)
Definition is_float_matrix (t : SPIRType) : Prop :=
  basetype t = Float ∧ 1 < vecsize t ∧ 1 < columns t.

(** every float-matrix member of every uniform block of [c] is decorated
    column-major in [c'] *)
Definition matrices_colmajor (c c' : Compiler) : Prop :=
  ∀ ub_res (m_index : nat) member,
    ub_res ∈ uniform_buffers (get_shader_resources c) →
    member_types (get_type c (res_base_type_id ub_res)) !! m_index
      = Some member →
    is_float_matrix (get_type c member) →
    has_member_decoration c' (res_base_type_id ub_res) m_index
      DecorationColMajor = true.

(** The translator state that [translate]'s switch hands to [compile] for
    a target, the options it passes, whether it treats the target as
    Vulkan-style, and whether the target belongs to the Metal family. *)
Definition prepared (slang : slang_t) (blob : spirv_blob_t)
    (type : snippet_type) : Compiler :=
  match slang with
  | GLSL330 | GLSL100 | GLSL300ES => to_glsl_prepare blob false type
  | HLSL5 => to_hlsl5_prepare blob type
  | METAL_MACOS | METAL_IOS | METAL_SIM => to_msl_prepare blob type
  | WGPU => to_glsl_prepare blob true type
  end.

Definition is_vulkan_target (slang : slang_t) : bool :=
  bool_decide (slang = WGPU).

Definition is_metal (slang : slang_t) : bool :=
  bool_decide (slang = METAL_MACOS) || bool_decide (slang = METAL_IOS)
  || bool_decide (slang = METAL_SIM).


Section TargetStatements.
Context `{!ShdcDecls, !Translator}.

Definition target_options (slang : slang_t) (opt_mask : Z) : backend_options :=
  match slang with
  | GLSL330 => glsl_options 330 false false opt_mask
  | GLSL100 => glsl_options 100 true false opt_mask
  | GLSL300ES => glsl_options 300 true false opt_mask
  | HLSL5 => hlsl5_options opt_mask
  | METAL_MACOS => msl_options macOS opt_mask
  | METAL_IOS | METAL_SIM => msl_options iOS opt_mask
  | WGPU => glsl_options 450 false true opt_mask
  end.

(** the source text that [compile] returns for a blob and a target, and
    the translator as [compile] leaves it *)
Definition emitted (slang : slang_t) (blob : spirv_blob_t) (opt_mask : Z)
    (type : snippet_type) : string :=
  (compile (target_options slang opt_mask) (prepared slang blob type)).1.

Definition translated (slang : slang_t) (blob : spirv_blob_t) (opt_mask : Z)
    (type : snippet_type) : Compiler :=
  (compile (target_options slang opt_mask) (prepared slang blob type)).2.

(** the entry-point name that the translator reports *)
Definition reported_entry_point (c : Compiler) : string :=
  reflect_entry_point c (get_entry_points_and_stages c).

End TargetStatements.


(** *** What the binary format carries *)

Definition string_fits (s : string) : Prop :=
  Z.of_nat (String.length s) < UINT16_MAX.
Definition fits_u16 (z : Z) : Prop := 0 ≤ z < 2 ^ 16.
Definition fits_u8 (z : Z) : Prop := 0 ≤ z < 2 ^ 8.

(** the attributes that the writer does not skip *)
Definition used_attrs (attrs : list attr_t) : list attr_t :=
  filter (λ a, 0 ≤ attr_slot a) attrs.

Definition attr_encodable (a : attr_t) : Prop :=
  string_fits (attr_name a) ∧ fits_u16 (attr_slot a)
  ∧ string_fits (attr_sem_name a) ∧ fits_u8 (attr_sem_index a).

Definition uniform_encodable (u : uniform_t) : Prop :=
  string_fits (uniform_name u) ∧ fits_u16 (uniform_array_count u)
  ∧ fits_u16 (uniform_offset u).

Definition ub_encodable (ub : uniform_block_t) : Prop :=
  fits_u16 (Z.of_nat (length (ub_uniforms ub)))
  ∧ Forall uniform_encodable (ub_uniforms ub).

Definition image_encodable (img : image_t) : Prop :=
  string_fits (img_name img) ∧ fits_u16 (img_slot img).

(** every string is shorter than [UINT16_MAX] and every count and number
    fits the width of its field *)
Definition refl_encodable (r : spirvcross_refl_t) : Prop :=
  string_fits (entry_point r)
  ∧ fits_u16 (Z.of_nat (length (used_attrs (inputs r))))
  ∧ Forall attr_encodable (used_attrs (inputs r))
  ∧ fits_u16 (Z.of_nat (length (used_attrs (outputs r))))
  ∧ Forall attr_encodable (used_attrs (outputs r))
  ∧ fits_u16 (Z.of_nat (length (uniform_blocks r)))
  ∧ Forall ub_encodable (uniform_blocks r)
  ∧ fits_u16 (Z.of_nat (length (images r)))
  ∧ Forall image_encodable (images r).

Section Layout.
Context `{!ShdcDecls}.

Definition layout_of_uniform (u : uniform_t) : layout_uniform :=
  {| lu_name := uniform_name u;
     lu_type := u8 (uniform_type_code (uniform_type_of u));
     lu_array_count := uniform_array_count u;
     lu_offset := uniform_offset u |}.

Definition layout_of_image (img : image_t) : layout_image :=
  {| li_name := img_name img; li_slot := img_slot img;
     li_type := u8 (image_type_code (img_type img));
     li_base_type := u8 (image_basetype_code (img_base_type img)) |}.

(** the fields of a ReflectionInfo that the format has a place for *)
Definition layout_of (r : spirvcross_refl_t) : layout_refl :=
  {| lr_version := BINARY_FORMAT_VERSION;
     lr_stage := u8 (stage_code (stage r));
     lr_entry_point := entry_point r;
     lr_inputs := used_attrs (inputs r);
     lr_outputs := used_attrs (outputs r);
     lr_uniform_blocks :=
       map (λ ub, map layout_of_uniform (ub_uniforms ub)) (uniform_blocks r);
     lr_images := map layout_of_image (images r) |}.

End Layout.

(** [read] recovers [x] from what [write] appends to a stream *)
Definition encodes {A} (write : list byte → option (list byte))
    (read : list byte → option (A * list byte)) (x : A) : Prop :=
  ∃ bs, (∀ stream, write stream = Some (stream ++ bs))
        ∧ (∀ rest, read (bs ++ rest) = Some (x, rest)).

(** a string of 65535 characters *)
Definition long_string : string :=
  string_of_list_ascii (replicate (Z.to_nat 65535) "a"%char).


(** *** Deduplication *)

(** the names of [names] in the order in which they are first seen, after
    those already [seen] *)
Fixpoint first_seen (seen names : list string) : list string :=
  match names with
  | [] => seen
  | n :: names =>
      if decide (n ∈ seen) then first_seen seen names
      else first_seen (seen ++ [n]) names
  end.

(** the names of the uniform blocks (images) of a list of sources, in the
    order in which the deduplicator walks them *)
Definition ub_names_of (srcs : list spirvcross_source_t) : list string :=
  concat (map (λ src, map ub_name (uniform_blocks (refl src))) srcs).

Definition img_names_of (srcs : list spirvcross_source_t) : list string :=
  concat (map (λ src, map img_name (images (refl src))) srcs).

(** every pool entry carries its position as [unique_index] *)
Definition ub_pool_indexed (pool : list uniform_block_t) : Prop :=
  ∀ (k : nat) e, pool !! k = Some e → ub_unique_index e = Z.of_nat k.

Definition img_pool_indexed (pool : list image_t) : Prop :=
  ∀ (k : nat) e, pool !! k = Some e → img_unique_index e = Z.of_nat k.

(** the [unique_index] of a block (image) is the position of the pool
    entry of its name *)
Definition ub_assigned (pool : list uniform_block_t) (ub : uniform_block_t)
    : Prop :=
  ∃ (k : nat) e, ub_unique_index ub = Z.of_nat k ∧ pool !! k = Some e
                 ∧ ub_name e = ub_name ub.

Definition img_assigned (pool : list image_t) (img : image_t) : Prop :=
  ∃ (k : nat) e, img_unique_index img = Z.of_nat k ∧ pool !! k = Some e
                 ∧ img_name e = img_name img.

(** the two errors of the deduplicator *)
Definition ub_conflict (inp : input_t) (name : string) : errmsg_t :=
  errmsg_error (base_path inp) 0
    ("conflicting uniform block definitions found for '" +:+ name +:+ "'").

Definition img_conflict (inp : input_t) (name : string) : errmsg_t :=
  errmsg_error (base_path inp) 0
    ("conflicting texture definitions found for '" +:+ name +:+ "'").

(** [src'] is [src] up to the uniform blocks (images) of its reflection *)
Definition same_but_ubs (src src' : spirvcross_source_t) : Prop :=
  src' = set_uniform_blocks src (uniform_blocks (refl src')).

Definition same_but_images (src src' : spirvcross_source_t) : Prop :=
  src' = set_images src (images (refl src')).


(** what the deduplicator never touches in a source *)
Definition src_core (src : spirvcross_source_t) :=
  (src_valid src, source_code src, src_snippet_index src, stage (refl src),
   entry_point (refl src), inputs (refl src), outputs (refl src)).


(** the pools of a pass result are in first-seen order, indexed from 0,
    and every block and image of every source points at the pool entry of
    its name *)
Definition pools_in_first_seen_order (r : spirvcross_t) : Prop :=
  ub_pool_indexed (unique_uniform_blocks r)
  ∧ map ub_name (unique_uniform_blocks r)
    = first_seen [] (ub_names_of (sources r))
  ∧ (∀ src ub, src ∈ sources r → ub ∈ uniform_blocks (refl src) →
       ub_assigned (unique_uniform_blocks r) ub)
  ∧ img_pool_indexed (unique_images r)
  ∧ map img_name (unique_images r) = first_seen [] (img_names_of (sources r))
  ∧ (∀ src img, src ∈ sources r → img ∈ images (refl src) →
       img_assigned (unique_images r) img).


(** *** Interface validation and the pass *)

(** the error for a vertex output that differs from the fragment input at
    slot [i] *)
Definition mismatch_error (inp : input_t) (prog : program_t) (i : Z)
    (vs_out fs_inp : attr_t) : errmsg_t :=
  input_error inp (prog_line_index prog)
    ("outputs of vs '" +:+ prog_vs_name prog
     +:+ "' don't match inputs of fs '" +:+ prog_fs_name prog
     +:+ "' for attr #" +:+ fmt_int i
     +:+ " (vs=" +:+ attr_name vs_out +:+ ",fs=" +:+ attr_name fs_inp
     +:+ ")" +:+ String (ascii_of_nat 10) "").

Section PassStatements.
Context `{!ShdcDecls, !Translator}.

(** the vertex outputs and the fragment inputs are attribute-equal at
    every slot from [from] up to, not including, [to] *)
Definition slots_equal (vs_src fs_src : spirvcross_source_t) (from to : Z)
    : Prop :=
  ∀ j : Z, from ≤ j < to →
    ∃ vs_out fs_inp,
      vec_at (outputs (refl vs_src)) j = Some vs_out
      ∧ vec_at (inputs (refl fs_src)) j = Some fs_inp
      ∧ attr_equals vs_out fs_inp = true.

(** the program's two sources are found and agree at every slot of the
    attribute arrays *)
Definition program_links (inp : input_t) (spv_cross : spirvcross_t)
    (prog : program_t) : Prop :=
  ∃ vs_src fs_src,
    linked_sources inp spv_cross prog = Some (vs_src, fs_src)
    ∧ slots_equal vs_src fs_src 0 (Z.of_nat attr_NUM).

(** both attribute arrays of a source have [attr_NUM] entries *)
Definition attrs_sized (src : spirvcross_source_t) : Prop :=
  length (inputs (refl src)) = attr_NUM
  ∧ length (outputs (refl src)) = attr_NUM.

(** one valid source per blob, in the order of the blobs *)
Definition sources_match (srcs : list spirvcross_source_t)
    (blobs : list spirv_blob_t) : Prop :=
  Forall2 (λ src blob, src_valid src = true
                       ∧ src_snippet_index src = blob_snippet_index blob
                       ∧ attrs_sized src) srcs blobs.

(** the error of a pass that stops inside the loop over the blobs: a
    translation failure or a conflict of the deduplicator *)
Definition blob_failure (inp : input_t) (slang : slang_t) (e : errmsg_t)
    : Prop :=
  (∃ line, e = input_error inp line
                 ("Failed to cross-compile to " +:+ slang_to_str slang +:+ "."))
  ∨ (∃ name, e = ub_conflict inp name)
  ∨ (∃ name, e = img_conflict inp name).

(** the input of a pass is well formed: every blob belongs to a vertex or
    fragment snippet that has a source line, the translator's result for
    it can be reflected, and every program names snippets for which there
    is a blob *)
Definition pass_wf (inp : input_t) (spirv : spirv_t) (slang : slang_t) : Prop :=
  (∀ blob, blob ∈ blobs spirv →
     ∃ snippet,
       vec_at (snippets inp) (blob_snippet_index blob) = Some snippet
       ∧ (snippet_type_of snippet = VS ∨ snippet_type_of snippet = FS)
       ∧ snippet_lines snippet ≠ []
       ∧ is_Some (translate_switch slang blob (snippet_options snippet slang)
                    (snippet_type_of snippet)))
  ∧ (∀ prog_item, prog_item ∈ programs inp →
       ∃ vs_snippet_index fs_snippet_index,
         vs_map inp !! prog_vs_name prog_item.2 = Some vs_snippet_index
         ∧ fs_map inp !! prog_fs_name prog_item.2 = Some fs_snippet_index
         ∧ vs_snippet_index ∈ map blob_snippet_index (blobs spirv)
         ∧ fs_snippet_index ∈ map blob_snippet_index (blobs spirv)).

End PassStatements.


Section PassInvariant.
Context `{!ShdcDecls, !Translator}.

(** what holds of the pass result while the loop over the blobs goes on,
    [done] being the blobs translated so far *)
Definition pass_inv (spv_cross : spirvcross_t) (done : list spirv_blob_t)
    : Prop :=
  pools_in_first_seen_order spv_cross
  ∧ err_valid (error spv_cross) = false
  ∧ sources_match (sources spv_cross) done.

End PassInvariant.

(** *** The outcomes of the deduplicator and of a pass *)

Section DedupOutcomes.
Context `{!ShdcDecls, !Translator}.

(** [ub'] is the occurrence [ub] after the deduplicator has dealt with
    it: it carries the index of a pool entry of its name, to which [ub]
    was found structurally equal, or which is the occurrence itself,
    appended as a new entry *)
Definition ub_matched (pool : list uniform_block_t) (ub ub' : uniform_block_t)
    : Prop :=
  ∃ (k : nat) e,
    ub' = set_ub_unique_index ub (Z.of_nat k)
    ∧ pool !! k = Some e ∧ ub_name e = ub_name ub
    ∧ (ub_equals ub e = true ∨ e = ub').

Definition img_matched (pool : list image_t) (img img' : image_t) : Prop :=
  ∃ (k : nat) e,
    img' = set_img_unique_index img (Z.of_nat k)
    ∧ pool !! k = Some e ∧ img_name e = img_name img
    ∧ (img_equals img e = true ∨ e = img').

(** a block (image) of a pass result agrees with the pool entry it points
    at: it is that entry, or it was found structurally equal to it when
    the deduplicator compared the two, be it with its index or, as
    reflected, without one *)
Definition ub_agrees (pool : list uniform_block_t) (ub : uniform_block_t)
    : Prop :=
  ∃ (k : nat) e,
    ub_unique_index ub = Z.of_nat k
    ∧ pool !! k = Some e ∧ ub_name e = ub_name ub
    ∧ (e = ub ∨ ub_equals ub e = true
       ∨ ub_equals (set_ub_unique_index ub (-1)) e = true).

Definition img_agrees (pool : list image_t) (img : image_t) : Prop :=
  ∃ (k : nat) e,
    img_unique_index img = Z.of_nat k
    ∧ pool !! k = Some e ∧ img_name e = img_name img
    ∧ (e = img ∨ img_equals img e = true
       ∨ img_equals (set_img_unique_index img (-1)) e = true).

Definition pools_agree (r : spirvcross_t) : Prop :=
  (∀ src ub, src ∈ sources r → ub ∈ uniform_blocks (refl src) →
     ub_agrees (unique_uniform_blocks r) ub)
  ∧ (∀ src img, src ∈ sources r → img ∈ images (refl src) →
       img_agrees (unique_images r) img).

(** The deduplicator, walking the sources of [spv_cross], reaches the
    block [ub] without a conflict before it, and the first pool entry of
    the name of [ub] is structurally different from [ub]; [result] is
    [spv_cross] with the indices handed out and the entries appended up to
    there, and with the conflict error for [ub]. *)
Definition ub_conflict_reached (inp : input_t) (spv_cross : spirvcross_t)
    (ub : uniform_block_t) (result : spirvcross_t) : Prop :=
  ∃ spre spre' src spost pre pre' post pool0 pool1 (k : nat) e,
    sources spv_cross = spre ++ src :: spost
    ∧ uniform_blocks (refl src) = pre ++ ub :: post
    ∧ gather_uniform_blocks_in inp (unique_uniform_blocks spv_cross) spre
      = (pool0, spre', None)
    ∧ gather_uniform_blocks_of inp pool0 pre = (pool1, pre', None)
    ∧ list_find (λ e, ub_name e = ub_name ub) pool1 = Some (k, e)
    ∧ ub_equals ub e = false
    ∧ result
      = {| sources :=
             spre' ++ set_uniform_blocks src (pre' ++ ub :: post) :: spost;
           unique_uniform_blocks := pool1;
           unique_images := unique_images spv_cross;
           error := ub_conflict inp (ub_name ub) |}.

Definition img_conflict_reached (inp : input_t) (spv_cross : spirvcross_t)
    (img : image_t) (result : spirvcross_t) : Prop :=
  ∃ spre spre' src spost pre pre' post pool0 pool1 (k : nat) e,
    sources spv_cross = spre ++ src :: spost
    ∧ images (refl src) = pre ++ img :: post
    ∧ gather_images_in inp (unique_images spv_cross) spre
      = (pool0, spre', None)
    ∧ gather_images_of inp pool0 pre = (pool1, pre', None)
    ∧ list_find (λ e, img_name e = img_name img) pool1 = Some (k, e)
    ∧ img_equals img e = false
    ∧ result
      = {| sources := spre' ++ set_images src (pre' ++ img :: post) :: spost;
           unique_uniform_blocks := unique_uniform_blocks spv_cross;
           unique_images := pool1;
           error := img_conflict inp (img_name img) |}.

(** the switch over the target turns [blob] into the valid source [src] *)
Definition blob_translates (inp : input_t) (slang : slang_t)
    (blob : spirv_blob_t) (src : spirvcross_source_t) : Prop :=
  ∃ snippet,
    vec_at (snippets inp) (blob_snippet_index blob) = Some snippet
    ∧ (snippet_type_of snippet = VS ∨ snippet_type_of snippet = FS)
    ∧ translate_switch slang blob (snippet_options snippet slang)
        (snippet_type_of snippet) = Some src
    ∧ src_valid src = true.

(** the pass result [spv_cross] with the source of [blob] pushed, as the
    deduplicator finds it *)
Definition with_source_of (spv_cross : spirvcross_t) (blob : spirv_blob_t)
    (src : spirvcross_source_t) : spirvcross_t :=
  push_source spv_cross (set_snippet_index src (blob_snippet_index blob)).

End DedupOutcomes.


(** *** Further statements: what the fixups leave alone *)

(** [c'] is [c] up to its decorations *)
Definition only_decorations_differ (c c' : Compiler) : Prop :=
  shader_resources c' = shader_resources c
  ∧ types c' = types c
  ∧ member_names c' = member_names c
  ∧ member_decorations c' = member_decorations c
  ∧ flattened_blocks c' = flattened_blocks c
  ∧ execution_model c' = execution_model c
  ∧ entry_points c' = entry_points c.

(** [c'] is [c] up to its member decorations *)
Definition only_member_decorations_differ (c c' : Compiler) : Prop :=
  shader_resources c' = shader_resources c
  ∧ types c' = types c
  ∧ member_names c' = member_names c
  ∧ decorations c' = decorations c
  ∧ flattened_blocks c' = flattened_blocks c
  ∧ execution_model c' = execution_model c
  ∧ entry_points c' = entry_points c.

(** the targets for which [to_glsl] is called without Vulkan semantics *)
Definition is_flat_glsl (slang : slang_t) : bool :=
  match slang with
  | GLSL330 | GLSL100 | GLSL300ES => true
  | _ => false
  end.


(** the fixed-size attribute array rebuilt from the attributes that the
    binary format carries: every attribute goes to the index given by its
    slot, every other entry is unused *)
Definition place_attrs (n : nat) (attrs : list attr_t) : list attr_t :=
  foldl (λ slots a, <[Z.to_nat (attr_slot a) := a]> slots)
    (replicate n attr_default) attrs.

(** the translator's code emission keeps the resource lists and the
    binding decorations that the wrapper has set *)
Definition compile_keeps_bindings `{!Translator} : Prop :=
  ∀ options c,
    shader_resources (compile options c).2 = shader_resources c
    ∧ ∀ id, get_decoration (compile options c).2 id DecorationBinding
            = get_decoration c id DecorationBinding.

(** a vertex shader with five uniform blocks *)
Definition five_blocks_vs : Compiler :=
  {| shader_resources :=
       {| uniform_buffers :=
            [resource 10%N 1%N "a"; resource 11%N 1%N "b";
             resource 12%N 1%N "c"; resource 13%N 1%N "d";
             resource 14%N 1%N "e"];
          stage_inputs := [resource 20%N 5%N "position"];
          stage_outputs := [];
          sampled_images := [resource 30%N 4%N "tex"] |};
     types := example_types;
     member_names := example_member_names;
     decorations := {[ (20%N, DecorationLocation) := 0 ]};
     member_decorations := ∅;
     flattened_blocks := [];
     execution_model := ExecutionModelVertex;
     entry_points :=
       [{| ep_name := "main"; ep_execution_model := ExecutionModelVertex |}] |}.

Definition five_blocks_blob : spirv_blob_t :=
  {| blob_snippet_index := 0; bytecode := five_blocks_vs |}.

(** *** Further statements: what the deduplicator leaves alone *)

(** the fields of a uniform block (image) other than its [unique_index] *)
Definition ub_core (ub : uniform_block_t) :=
  (ub_slot ub, ub_size ub, ub_name ub, ub_uniforms ub).

Definition img_core (img : image_t) :=
  (img_slot img, img_name img, img_type img, img_base_type img).

(** [src'] is [src] up to the [unique_index] of its blocks and images *)
Definition same_up_to_unique_index (src src' : spirvcross_source_t) : Prop :=
  src_core src' = src_core src
  ∧ map ub_core (uniform_blocks (refl src'))
    = map ub_core (uniform_blocks (refl src))
  ∧ map img_core (images (refl src')) = map img_core (images (refl src)).

(** [pool'] is [pool] followed by entries that are blocks (images) of
    [srcs] *)
Definition ub_pool_extended (pool pool' : list uniform_block_t)
    (srcs : list spirvcross_source_t) : Prop :=
  ∃ added, pool' = pool ++ added
           ∧ ∀ e, e ∈ added →
               ∃ src, src ∈ srcs ∧ e ∈ uniform_blocks (refl src).

Definition img_pool_extended (pool pool' : list image_t)
    (srcs : list spirvcross_source_t) : Prop :=
  ∃ added, pool' = pool ++ added
           ∧ ∀ e, e ∈ added → ∃ src, src ∈ srcs ∧ e ∈ images (refl src).


Section TranslationStatements.
Context `{!ShdcDecls, !Translator}.

(** [src] is what the switch over the target returns for [blob], with the
    blob's snippet index, up to the [unique_index] of its blocks and
    images *)
Definition translation_of (inp : input_t) (slang : slang_t)
    (blob : spirv_blob_t) (src : spirvcross_source_t) : Prop :=
  ∃ snippet src0,
    vec_at (snippets inp) (blob_snippet_index blob) = Some snippet
    ∧ translate_switch slang blob (snippet_options snippet slang)
        (snippet_type_of snippet) = Some src0
    ∧ same_up_to_unique_index
        (set_snippet_index src0 (blob_snippet_index blob)) src.

(** the error that [translate] reports for a blob that the translator
    turns into no text *)
Definition cross_compile_error (inp : input_t) (slang : slang_t)
    (line_index : Z) : errmsg_t :=
  input_error inp line_index
    ("Failed to cross-compile to " +:+ slang_to_str slang +:+ ".").

End TranslationStatements.


(** *** Further statements: when the binary serializer is defined *)

(** [write] either appends bytes that do not depend on the stream, which
    it does exactly under [P], or fails its assertion *)
Definition appends_iff (write : list byte → option (list byte)) (P : Prop)
    : Prop :=
  (P → ∃ bs, ∀ stream, write stream = Some (stream ++ bs))
  ∧ (∀ stream, is_Some (write stream) → P).

Definition attr_strings_fit (a : attr_t) : Prop :=
  string_fits (attr_name a) ∧ string_fits (attr_sem_name a).

(** every string that the serializer writes is shorter than [UINT16_MAX] *)
Definition refl_strings_fit (r : spirvcross_refl_t) : Prop :=
  string_fits (entry_point r)
  ∧ Forall attr_strings_fit (used_attrs (inputs r))
  ∧ Forall attr_strings_fit (used_attrs (outputs r))
  ∧ Forall (λ ub, Forall (λ u, string_fits (uniform_name u)) (ub_uniforms ub))
      (uniform_blocks r)
  ∧ Forall (λ img, string_fits (img_name img)) (images r).

(** the first six bytes of a record: the magic and the version *)
Definition record_header : list byte :=
  list_byte_of_string "SHDC" ++ [x01; x00].


(** ** Properties *)

Section Properties.
Context `{!ShdcDecls, !Translator}.

(** *** Machine integers *)

Lemma u32_small z : 0 ≤ z < 2 ^ 32 → u32 z = z.
Proof. intros. unfold u32. by apply Z.mod_small. Qed.

Lemma u32_range z : 0 ≤ u32 z < 2 ^ 32.
Proof. unfold u32. apply Z.mod_pos_bound. lia. Qed.

Lemma to_int_small z : 0 ≤ z < 2 ^ 31 → to_int z = z.
Proof. intros. unfold to_int. rewrite Z.mod_small; lia. Qed.

Lemma to_int_high z : 2 ^ 31 ≤ z < 2 ^ 32 → to_int z = z - 2 ^ 32.
Proof.
  intros. unfold to_int.
  replace (z + 2 ^ 31) with (z - 2 ^ 31 + 1 * 2 ^ 32) by lia.
  rewrite Z.mod_add by lia. rewrite Z.mod_small; lia.
Qed.

(** *** Decorations *)

Lemma get_set_decoration c id d v :
  get_decoration (set_decoration c id d v) id d = u32 v.
Proof. unfold get_decoration. simpl. by rewrite lookup_insert_eq. Qed.

Lemma get_set_decoration_ne c id d v id' d' :
  (id, d) ≠ (id', d') →
  get_decoration (set_decoration c id d v) id' d' = get_decoration c id' d'.
Proof. intros. unfold get_decoration. simpl. by rewrite lookup_insert_ne. Qed.

Lemma get_decoration_range c id d : 0 ≤ get_decoration c id d < 2 ^ 32.
Proof. apply u32_range. Qed.

(** *** The slot assigner's loops *)

Lemma bind_uniform_buffers_resources c ubs s :
  shader_resources (bind_uniform_buffers c ubs s) = shader_resources c
  ∧ types (bind_uniform_buffers c ubs s) = types c
  ∧ member_decorations (bind_uniform_buffers c ubs s) = member_decorations c.
Proof.
  revert c s. induction ubs as [|u ubs IH]; intros; simpl; [done|].
  by edestruct IH as (-> & -> & ->).
Qed.

Lemma bind_sampled_images_resources c imgs set s :
  shader_resources (bind_sampled_images c imgs set s) = shader_resources c
  ∧ types (bind_sampled_images c imgs set s) = types c
  ∧ member_decorations (bind_sampled_images c imgs set s)
    = member_decorations c.
Proof.
  revert c s. induction imgs as [|u imgs IH]; intros; simpl; [done|].
  by edestruct IH as (-> & -> & ->).
Qed.

Lemma bind_uniform_buffers_other c ubs s id d :
  id ∉ map res_id ubs →
  get_decoration (bind_uniform_buffers c ubs s) id d = get_decoration c id d.
Proof.
  revert c s. induction ubs as [|u ubs IH]; intros c s Hid; simpl; [done|].
  simpl in Hid. apply not_elem_of_cons in Hid as [Hne Hid].
  rewrite IH by done.
  rewrite !get_set_decoration_ne; [done|congruence..].
Qed.

Lemma bind_sampled_images_other c imgs set s id d :
  id ∉ map res_id imgs →
  get_decoration (bind_sampled_images c imgs set s) id d = get_decoration c id d.
Proof.
  revert c s. induction imgs as [|u imgs IH]; intros c s Hid; simpl; [done|].
  simpl in Hid. apply not_elem_of_cons in Hid as [Hne Hid].
  rewrite IH by done.
  rewrite !get_set_decoration_ne; [done|congruence..].
Qed.

Lemma bind_uniform_buffers_lookup c ubs s (k : nat) ub_res :
  NoDup (map res_id ubs) →
  0 ≤ s → s + Z.of_nat (length ubs) ≤ 2 ^ 32 →
  ubs !! k = Some ub_res →
  get_decoration (bind_uniform_buffers c ubs s) (res_id ub_res)
    DecorationDescriptorSet = 0
  ∧ get_decoration (bind_uniform_buffers c ubs s) (res_id ub_res)
      DecorationBinding = s + Z.of_nat k.
Proof.
  revert c s k. induction ubs as [|u ubs IH]; intros c s k Hnd Hs Hlen Hk;
    [done|].
  cbn [map length] in *. apply NoDup_cons in Hnd as [Hu Hnd].
  destruct k as [|k]; cbn [lookup list_lookup] in Hk; simplify_eq; simpl.
  - rewrite !bind_uniform_buffers_other by done.
    rewrite get_set_decoration, get_set_decoration_ne by congruence.
    rewrite get_set_decoration, !u32_small by lia. lia.
  - pose proof (lookup_lt_Some _ _ _ Hk).
    assert (u32 (s + 1) = s + 1) as -> by (apply u32_small; lia).
    destruct (IH (set_decoration
                    (set_decoration c (res_id u) DecorationDescriptorSet 0)
                    (res_id u) DecorationBinding s) (s + 1) k)
      as [-> ->]; [done|lia|lia|done|]. lia.
Qed.

Lemma bind_sampled_images_lookup c imgs set s (k : nat) img_res :
  NoDup (map res_id imgs) →
  0 ≤ set < 2 ^ 32 →
  0 ≤ s → s + Z.of_nat (length imgs) ≤ 2 ^ 32 →
  imgs !! k = Some img_res →
  get_decoration (bind_sampled_images c imgs set s) (res_id img_res)
    DecorationDescriptorSet = set
  ∧ get_decoration (bind_sampled_images c imgs set s) (res_id img_res)
      DecorationBinding = s + Z.of_nat k.
Proof.
  revert c s k. induction imgs as [|u imgs IH]; intros c s k Hnd Hset Hs Hlen Hk;
    [done|].
  cbn [map length] in *. apply NoDup_cons in Hnd as [Hu Hnd].
  destruct k as [|k]; cbn [lookup list_lookup] in Hk; simplify_eq; simpl.
  - rewrite !bind_sampled_images_other by done.
    rewrite get_set_decoration, get_set_decoration_ne by congruence.
    rewrite get_set_decoration, !u32_small by lia. lia.
  - pose proof (lookup_lt_Some _ _ _ Hk).
    assert (u32 (s + 1) = s + 1) as -> by (apply u32_small; lia).
    destruct (IH (set_decoration
                    (set_decoration c (res_id u) DecorationDescriptorSet set)
                    (res_id u) DecorationBinding s) (s + 1) k)
      as [-> ->]; [done|lia|lia|lia|done|]. lia.
Qed.

Lemma fix_bind_slots_resources c type is_vulkan :
  shader_resources (fix_bind_slots c type is_vulkan) = shader_resources c
  ∧ types (fix_bind_slots c type is_vulkan) = types c
  ∧ member_decorations (fix_bind_slots c type is_vulkan)
    = member_decorations c.
Proof.
  unfold fix_bind_slots.
  destruct (bind_sampled_images_resources
    (bind_uniform_buffers c (uniform_buffers (get_shader_resources c))
       (if is_vulkan then if bool_decide (type = VS) then 0
                          else vk_fs_ub_binding_offset else 0))
    (sampled_images (get_shader_resources c))
    (if bool_decide (type = VS) then 1 else 2) 0) as (-> & -> & ->).
  apply bind_uniform_buffers_resources.
Qed.

Lemma fix_bind_slots_assigned c type is_vulkan :
  resources_wf (get_shader_resources c) →
  slots_assigned (get_shader_resources c) (fix_bind_slots c type is_vulkan)
    (ub_start type is_vulkan) (img_set_of type).
Proof.
  intros (Hnd & Hub & Himg).
  rewrite map_app in Hnd. apply NoDup_app in Hnd as (Hnd1 & Hdisj & Hnd2).
  unfold fix_bind_slots, ub_start, img_set_of, vk_fs_ub_binding_offset.
  set (s := if is_vulkan then _ else _).
  assert (0 ≤ s ≤ 4) by (subst s; repeat case_match; lia).
  split.
  - intros k ub_res Hk.
    rewrite !bind_sampled_images_other.
    + apply bind_uniform_buffers_lookup; [done|lia|lia|done].
    + apply Hdisj. apply list_elem_of_fmap. exists ub_res. split; [done|].
      by eapply list_elem_of_lookup_2.
    + apply Hdisj. apply list_elem_of_fmap. exists ub_res. split; [done|].
      by eapply list_elem_of_lookup_2.
  - intros k img_res Hk.
    destruct (bind_sampled_images_lookup
      (bind_uniform_buffers c (uniform_buffers (get_shader_resources c)) s)
      (sampled_images (get_shader_resources c))
      (if bool_decide (type = VS) then 1 else 2) 0 k img_res)
      as [-> ->]; [done|case_bool_decide; lia|lia|lia|done|]. split; [done|lia].
Qed.

(** *** Layout fixups *)

Lemma has_member_decoration_true c id i d :
  has_member_decoration c id i d = true
  ↔ is_Some (member_decorations c !! (id, i, d)).
Proof. unfold has_member_decoration. by rewrite bool_decide_eq_true. Qed.

Lemma colmajor_members_frame c id ms i :
  shader_resources (colmajor_members c id ms i) = shader_resources c
  ∧ types (colmajor_members c id ms i) = types c
  ∧ decorations (colmajor_members c id ms i) = decorations c
  ∧ ∀ key, is_Some (member_decorations c !! key) →
           is_Some (member_decorations (colmajor_members c id ms i) !! key).
Proof.
  revert c i. induction ms as [|m ms IH]; intros c i; simpl; [done|].
  edestruct IH as (-> & -> & -> & Hmono).
  case_match; simpl; repeat split; try done.
  intros key Hkey. apply Hmono. simpl.
  destruct (decide ((id, i, DecorationColMajor) = key)) as [<-|];
    [by rewrite lookup_insert_eq|by rewrite lookup_insert_ne].
Qed.

Lemma colmajor_members_sets c id ms i (j : nat) m :
  ms !! j = Some m →
  is_float_matrix (get_type c m) →
  has_member_decoration (colmajor_members c id ms i) id (i + j)
    DecorationColMajor = true.
Proof.
  revert c i j. induction ms as [|m' ms IH]; intros c i j Hj Hm; [done|].
  destruct j as [|j]; simpl in Hj; simplify_eq; simpl.
  - destruct Hm as (Hb & Hv & Hc).
    rewrite !bool_decide_true by done. simpl.
    apply has_member_decoration_true.
    apply colmajor_members_frame. simpl.
    replace (i + 0)%nat with i by lia. by rewrite lookup_insert_eq.
  - replace (i + S j)%nat with (S i + j)%nat by lia.
    apply IH; [done|]. by case_match.
Qed.

Lemma colmajor_blocks_frame c ubs :
  shader_resources (colmajor_blocks c ubs) = shader_resources c
  ∧ types (colmajor_blocks c ubs) = types c
  ∧ decorations (colmajor_blocks c ubs) = decorations c
  ∧ ∀ key, is_Some (member_decorations c !! key) →
           is_Some (member_decorations (colmajor_blocks c ubs) !! key).
Proof.
  revert c. induction ubs as [|u ubs IH]; intros c; simpl; [done|].
  edestruct IH as (-> & -> & -> & Hmono).
  edestruct colmajor_members_frame as (-> & -> & -> & Hmono').
  repeat split; try done. intros key Hkey. by apply Hmono, Hmono'.
Qed.

Lemma colmajor_blocks_sets c ubs ub_res (m_index : nat) member :
  ub_res ∈ ubs →
  member_types (get_type c (res_base_type_id ub_res)) !! m_index = Some member →
  is_float_matrix (get_type c member) →
  has_member_decoration (colmajor_blocks c ubs) (res_base_type_id ub_res)
    m_index DecorationColMajor = true.
Proof.
  revert c. induction ubs as [|u ubs IH]; intros c Hin Hm Hmat;
    [by apply elem_of_nil in Hin|].
  simpl. apply elem_of_cons in Hin as [->|Hin].
  - apply has_member_decoration_true, colmajor_blocks_frame.
    apply has_member_decoration_true.
    by apply (colmajor_members_sets c _ _ 0%nat m_index member).
  - apply IH; [done|..]; unfold get_type in *;
      by destruct (colmajor_members_frame c (res_base_type_id u)
        (member_types (types c (res_base_type_id u))) 0) as (_ & -> & _).
Qed.

Lemma fix_ub_matrix_force_colmajor_frame c :
  shader_resources (fix_ub_matrix_force_colmajor c) = shader_resources c
  ∧ types (fix_ub_matrix_force_colmajor c) = types c
  ∧ decorations (fix_ub_matrix_force_colmajor c) = decorations c.
Proof.
  unfold fix_ub_matrix_force_colmajor.
  by destruct (colmajor_blocks_frame c
    (uniform_buffers (get_shader_resources c))) as (-> & -> & -> & _).
Qed.

Lemma fix_ub_matrix_force_colmajor_sets c :
  matrices_colmajor c (fix_ub_matrix_force_colmajor c).
Proof. intros ub_res m_index member ???. by eapply colmajor_blocks_sets. Qed.

Lemma flatten_uniform_blocks_frame c :
  shader_resources (flatten_uniform_blocks c) = shader_resources c
  ∧ types (flatten_uniform_blocks c) = types c
  ∧ decorations (flatten_uniform_blocks c) = decorations c
  ∧ member_decorations (flatten_uniform_blocks c) = member_decorations c.
Proof.
  unfold flatten_uniform_blocks.
  generalize (uniform_buffers (get_shader_resources c)). intros l.
  revert c. induction l as [|u l IH]; intros c; simpl; [done|].
  by edestruct IH as (-> & -> & -> & ->).
Qed.

Lemma get_decoration_ext c c' id d :
  decorations c = decorations c' → get_decoration c id d = get_decoration c' id d.
Proof. unfold get_decoration. by intros ->. Qed.

Lemma has_member_decoration_ext c c' id i d :
  member_decorations c = member_decorations c' →
  has_member_decoration c id i d = has_member_decoration c' id i d.
Proof. unfold has_member_decoration. by intros ->. Qed.

Lemma slots_assigned_ext res c c' s t :
  decorations c = decorations c' →
  slots_assigned res c s t → slots_assigned res c' s t.
Proof.
  intros Heq [Hub Himg]. split; intros k r Hk.
  - rewrite <-!(get_decoration_ext c c') by done. by apply Hub.
  - rewrite <-!(get_decoration_ext c c') by done. by apply Himg.
Qed.

Lemma matrices_colmajor_after_slots c type is_vulkan :
  matrices_colmajor c
    (fix_ub_matrix_force_colmajor (fix_bind_slots c type is_vulkan)).
Proof.
  intros ub_res m_index member Hin Hm Hmat.
  destruct (fix_bind_slots_resources c type is_vulkan) as (Hres & Hty & _).
  eapply (fix_ub_matrix_force_colmajor_sets _ ub_res m_index member);
    unfold get_shader_resources, get_type in *; by rewrite ?Hres, ?Hty.
Qed.

(** *** What each target hands to the translator *)

Lemma to_glsl_prepare_slots blob is_vulkan type :
  resources_wf (get_shader_resources (bytecode blob)) →
  slots_assigned (get_shader_resources (bytecode blob))
    (to_glsl_prepare blob is_vulkan type) (ub_start type is_vulkan)
    (img_set_of type).
Proof.
  intros Hwf. unfold to_glsl_prepare.
  eapply slots_assigned_ext; [|by apply fix_bind_slots_assigned].
  destruct (fix_ub_matrix_force_colmajor_frame
    (fix_bind_slots (bytecode blob) type is_vulkan)) as (_ & _ & Hd).
  destruct is_vulkan; simpl; [done|].
  by destruct (flatten_uniform_blocks_frame (fix_ub_matrix_force_colmajor
    (fix_bind_slots (bytecode blob) type false))) as (_ & _ & -> & _).
Qed.

Lemma to_hlsl5_prepare_slots blob type :
  resources_wf (get_shader_resources (bytecode blob)) →
  slots_assigned (get_shader_resources (bytecode blob))
    (to_hlsl5_prepare blob type) 0 (img_set_of type).
Proof.
  intros Hwf. unfold to_hlsl5_prepare.
  eapply slots_assigned_ext; [|by apply (fix_bind_slots_assigned _ type false)].
  by destruct (fix_ub_matrix_force_colmajor_frame
    (fix_bind_slots (bytecode blob) type false)) as (_ & _ & ->).
Qed.

Lemma to_glsl_prepare_colmajor blob is_vulkan type :
  matrices_colmajor (bytecode blob) (to_glsl_prepare blob is_vulkan type).
Proof.
  unfold to_glsl_prepare. destruct is_vulkan; simpl.
  - apply matrices_colmajor_after_slots.
  - intros ub_res m_index member Hin Hm Hmat.
    erewrite has_member_decoration_ext;
      [by eapply matrices_colmajor_after_slots|].
    apply flatten_uniform_blocks_frame.
Qed.

Lemma prepared_slots slang blob type :
  resources_wf (get_shader_resources (bytecode blob)) →
  slots_assigned (get_shader_resources (bytecode blob))
    (prepared slang blob type) (ub_start type (is_vulkan_target slang))
    (img_set_of type).
Proof.
  intros Hwf.
  destruct slang; simpl;
    first [by apply to_glsl_prepare_slots | by apply to_hlsl5_prepare_slots
          | by apply (fix_bind_slots_assigned _ type false)].
Qed.


Lemma prepared_colmajor slang blob type :
  is_metal slang = false →
  matrices_colmajor (bytecode blob) (prepared slang blob type).
Proof.
  destruct slang; simpl; try done; intros _;
    first [apply to_glsl_prepare_colmajor
          | apply matrices_colmajor_after_slots].
Qed.

Lemma prepared_metal slang blob type :
  is_metal slang = true →
  prepared slang blob type = fix_bind_slots (bytecode blob) type false.
Proof. by destruct slang. Qed.

(** [translate]'s switch, written through [prepared], [target_options],
    [emitted] and [translated] *)
Lemma translate_switch_unfold slang blob opt_mask type :
  translate_switch slang blob opt_mask type =
  if negb (bool_decide (emitted slang blob opt_mask type = "")) then
    r ← parse_reflection (translated slang blob opt_mask type)
          (is_vulkan_target slang);
    Some {| src_valid := true;
            source_code := emitted slang blob opt_mask type;
            refl := if is_metal slang
                    then set_entry_point r (entry_point r +:+ "0") else r;
            src_snippet_index := -1 |}
  else Some source_default.
Proof.
  unfold emitted, translated.
  destruct slang; simpl;
    unfold to_glsl, to_hlsl5, to_msl;
    match goal with |- context [compile ?o ?c] => destruct (compile o c) end;
    simpl; by case_bool_decide.
Qed.

Lemma parse_reflection_fields c is_vulkan r :
  parse_reflection c is_vulkan = Some r →
  stage r = reflect_stage c
  ∧ entry_point r = reported_entry_point c
  ∧ uniform_blocks r
    = map (reflect_uniform_block c is_vulkan)
        (uniform_buffers (get_shader_resources c))
  ∧ images r = map (reflect_image c) (sampled_images (get_shader_resources c)).
Proof.
  unfold parse_reflection. intros Hr.
  destruct (reflect_attrs c (stage_inputs _) _); [|done].
  destruct (reflect_attrs c (stage_outputs _) _); [|done].
  by simplify_eq/=.
Qed.

(** *** Slot policy *)

(** C5: for every shader and every target the slot assigner overwrites
    the descriptor set and the binding of every uniform block and every
    sampled image, whatever the module declared: the state handed to the
    translator has the k-th uniform block in set 0 and the k-th image in
    set 1 (vertex) or 2 (fragment) at binding k; on the targets that are
    neither Vulkan- nor WebGPU-style the uniform blocks are at bindings
    0, 1, 2, ... in declaration order. *)
Theorem fix_bind_slots_overwrites_every_binding (blob : spirv_blob_t)
    (type : snippet_type) :
  resources_wf (get_shader_resources (bytecode blob)) →
  let res := get_shader_resources (bytecode blob) in
  (∀ is_vulkan,
     slots_assigned res (fix_bind_slots (bytecode blob) type is_vulkan)
       (ub_start type is_vulkan) (img_set_of type))
  ∧ (∀ slang,
       slots_assigned res (prepared slang blob type)
         (ub_start type (is_vulkan_target slang)) (img_set_of type))
  ∧ (∀ slang, slang ≠ WGPU →
       slots_assigned res (prepared slang blob type) 0 (img_set_of type))
  ∧ img_set_of VS = 1 ∧ img_set_of FS = 2.
Proof.
  intros Hwf res. split; [|split; [|split; [|done]]].
  - intros is_vulkan. by apply fix_bind_slots_assigned.
  - intros slang. by apply prepared_slots.
  - intros slang Hslang. pose proof (prepared_slots slang blob type Hwf) as Hs.
    unfold is_vulkan_target in Hs. by rewrite bool_decide_false in Hs.
Qed.

(** C4: on a Vulkan-style target the slot assigner numbers the uniform
    blocks of a vertex shader from 0 and gives the blocks of a fragment
    shader bindings exactly 4 above the sequential numbering they get
    without the offset; the reflection extractor subtracts 4 from every
    uniform-block binding that is at least 4, so the k-th fragment block
    is bound at k + 4 and reflected at slot k, and a vertex block bound
    below 4 is reflected at its binding: blocks at logical slot 0 are
    bound at 0 and 4 and both reflect as slot 0. *)
Theorem vulkan_fragment_offset_recovered (c : Compiler) (k : nat)
    (ub_res : Resource) :
  resources_wf (get_shader_resources c) →
  uniform_buffers (get_shader_resources c) !! k = Some ub_res →
  let binding c' := get_decoration c' (res_id ub_res) DecorationBinding in
  binding (fix_bind_slots c VS true) = Z.of_nat k
  ∧ binding (fix_bind_slots c FS false) = Z.of_nat k
  ∧ binding (fix_bind_slots c FS true)
    = binding (fix_bind_slots c FS false) + vk_fs_ub_binding_offset
  ∧ (∀ c', ub_slot (reflect_uniform_block c' true ub_res)
           = if bool_decide (4 ≤ to_int (binding c'))
             then to_int (binding c') - 4 else to_int (binding c'))
  ∧ ub_slot (reflect_uniform_block (fix_bind_slots c FS true) true ub_res)
    = Z.of_nat k
  ∧ (Z.of_nat k < 4 →
     ub_slot (reflect_uniform_block (fix_bind_slots c VS true) true ub_res)
     = Z.of_nat k)
  ∧ (∀ type r, parse_reflection (fix_bind_slots c type true) true = Some r →
       uniform_blocks r !! k
       = Some (reflect_uniform_block (fix_bind_slots c type true) true ub_res)).
Proof.
  intros Hwf Hk binding.
  pose proof (lookup_lt_Some _ _ _ Hk) as Hlt.
  destruct Hwf as (Hnd & Hlen & Himg).
  assert (Hwf : resources_wf (get_shader_resources c)) by done.
  destruct (fix_bind_slots_assigned c VS true Hwf) as [Hvs _].
  destruct (fix_bind_slots_assigned c FS true Hwf) as [Hfs _].
  destruct (fix_bind_slots_assigned c FS false Hwf) as [Hfs0 _].
  destruct (Hvs k ub_res Hk) as [_ Hb1].
  destruct (Hfs k ub_res Hk) as [_ Hb2].
  destruct (Hfs0 k ub_res Hk) as [_ Hb3].
  unfold ub_start in *. simpl in Hb1, Hb2, Hb3. subst binding. simpl.
  rewrite Hb1, Hb2, Hb3. unfold vk_fs_ub_binding_offset.
  repeat split; try lia.
  - rewrite to_int_small by lia. rewrite bool_decide_true by lia. lia.
  - intros Hk4. rewrite to_int_small by lia. rewrite bool_decide_false; lia.
  - intros type r Hr. apply parse_reflection_fields in Hr as (_ & _ & -> & _).
    destruct (fix_bind_slots_resources c type true) as (Hres & _).
    unfold get_shader_resources in *. rewrite Hres.
    by rewrite list_lookup_fmap, Hk.
Qed.

(** *** Layout fixups before translation *)

(** C9, as amended: for every shader snippet and every GLSL, HLSL or
    WebGPU target, every uniform-block member that is a float matrix
    (vector size and column count above 1) is decorated column-major in
    the state handed to the translator's compile step; on the Metal-family
    targets only the slot assigner runs, and the member decorations of the
    module reach the translator as they are. *)
Theorem matrices_colmajor_before_compile (slang : slang_t) (blob : spirv_blob_t)
    (type : snippet_type) :
  (is_metal slang = false →
   matrices_colmajor (bytecode blob) (prepared slang blob type))
  ∧ (is_metal slang = true →
     member_decorations (prepared slang blob type)
     = member_decorations (bytecode blob)).
Proof.
  split.
  - apply prepared_colmajor.
  - intros Hm. rewrite prepared_metal by done. apply fix_bind_slots_resources.
Qed.

(** *** Entry point *)

(** C8: only the Metal-family targets append the suffix to the reflected
    entry point, so that [main] becomes [main0]; for every other target
    the entry point of the ReflectionInfo is the name that the translator
    reports. *)
Theorem entry_point_renamed_for_metal_only (slang : slang_t)
    (blob : spirv_blob_t) (opt_mask : Z) (type : snippet_type)
    (res : spirvcross_source_t) :
  translate_switch slang blob opt_mask type = Some res →
  src_valid res = true →
  let reported :=
    reported_entry_point (translated slang blob opt_mask type) in
  entry_point (refl res)
  = (if is_metal slang then reported +:+ "0" else reported)
  ∧ (is_metal slang = true → reported = "main" →
     entry_point (refl res) = "main0").
Proof.
  rewrite translate_switch_unfold. intros Hres Hvalid reported.
  assert (entry_point (refl res)
          = if is_metal slang then reported +:+ "0" else reported) as Heq.
  { case_bool_decide; simpl in Hres; [by simplify_eq|].
    destruct (parse_reflection _ _) as [r|] eqn:Hr; [|done].
    apply parse_reflection_fields in Hr as (_ & Hep & _).
    simplify_eq/=. subst reported. rewrite <-Hep. by destruct (is_metal slang). }
  split; [done|]. intros Hm Hmain. by rewrite Heq, Hm, Hmain.
Qed.


(** *** Stage attributes *)

Lemma to_int_below z n :
  0 ≤ z < 2 ^ 32 → n ≤ 2 ^ 31 → (0 ≤ to_int z < n ↔ z < n).
Proof.
  intros Hz Hn. destruct (decide (z < 2 ^ 31)).
  - rewrite to_int_small by lia. lia.
  - rewrite to_int_high by lia. lia.
Qed.

Lemma to_int_eq z s :
  0 ≤ z < 2 ^ 32 → 0 ≤ s < 2 ^ 31 → (to_int z = s ↔ z = s).
Proof.
  intros Hz Hs. destruct (decide (z < 2 ^ 31)).
  - rewrite to_int_small by lia. lia.
  - rewrite to_int_high by lia. lia.
Qed.

Lemma array_store_Some {A} (v : list A) i x v' :
  array_store v i x = Some v' ↔
  0 ≤ i < Z.of_nat (length v) ∧ v' = <[Z.to_nat i := x]> v.
Proof.
  unfold array_store. case_bool_decide.
  - split; [by intros [= <-]|by intros [_ ->]].
  - split; [done|by intros [??]].
Qed.

Lemma array_store_None {A} (v : list A) i x :
  array_store v i x = None ↔ ¬ (0 ≤ i < Z.of_nat (length v)).
Proof.
  unfold array_store. case_bool_decide; [|done].
  split; [done|]. intros Hn. by destruct Hn.
Qed.

Lemma reflect_attrs_length c attrs slots slots' :
  reflect_attrs c attrs slots = Some slots' → length slots' = length slots.
Proof.
  revert slots. induction attrs as [|a attrs IH]; intros slots Hr; simpl in Hr;
    [by simplify_eq|].
  destruct (array_store slots _ _) as [s1|] eqn:Hs; [|done]. simpl in Hr.
  apply array_store_Some in Hs as [_ ->]. apply IH in Hr.
  by rewrite length_insert in Hr.
Qed.

Lemma reflect_attrs_defined c attrs slots :
  is_Some (reflect_attrs c attrs slots) ↔
  Forall (λ a, 0 ≤ attr_slot (reflect_attr c a) < Z.of_nat (length slots)) attrs.
Proof.
  revert slots. induction attrs as [|a attrs IH]; intros slots; simpl.
  - split; [by constructor|by eexists].
  - rewrite Forall_cons.
    destruct (array_store slots _ _) as [s1|] eqn:Hs; simpl.
    + apply array_store_Some in Hs as [Hb ->]. rewrite IH, length_insert.
      split; [by split|by intros [??]].
    + apply array_store_None in Hs. split; [by intros [??]|by intros [??]].
Qed.

Lemma reflect_attrs_lookup c attrs slots slots' (s : nat) :
  reflect_attrs c attrs slots = Some slots' →
  slots' !! s =
  match last (filter (λ a, attr_slot (reflect_attr c a) = Z.of_nat s) attrs) with
  | Some a => Some (reflect_attr c a)
  | None => slots !! s
  end.
Proof.
  revert slots. induction attrs as [|a attrs IH]; intros slots Hr; simpl in Hr;
    [by simplify_eq|].
  destruct (array_store slots _ _) as [s1|] eqn:Hs; [|done]. simpl in Hr.
  apply array_store_Some in Hs as [Hb ->]. rewrite (IH _ Hr).
  rewrite filter_cons. case_decide as Hsl.
  - rewrite last_cons. destruct (last _); [done|].
    simpl in Hsl. rewrite Hsl in Hb |- *. rewrite Nat2Z.id.
    apply list_lookup_insert_eq. lia.
  - destruct (last _); [done|].
    apply list_lookup_insert_ne. simpl in Hsl. lia.
Qed.

Lemma parse_reflection_defined c is_vulkan :
  is_Some (parse_reflection c is_vulkan) ↔
  Forall (λ a, 0 ≤ attr_slot (reflect_attr c a) < Z.of_nat attr_NUM)
    (stage_inputs (get_shader_resources c)
     ++ stage_outputs (get_shader_resources c)).
Proof.
  rewrite Forall_app. unfold parse_reflection.
  pose proof (reflect_attrs_defined c (stage_inputs (get_shader_resources c))
    (replicate attr_NUM attr_default)) as Hi.
  pose proof (reflect_attrs_defined c (stage_outputs (get_shader_resources c))
    (replicate attr_NUM attr_default)) as Ho.
  rewrite length_replicate in Hi, Ho. rewrite <-Hi, <-Ho.
  destruct (reflect_attrs c (stage_inputs _) _); simpl;
    [|split; [by intros [??]|by intros [[??] _]]].
  destruct (reflect_attrs c (stage_outputs _) _); simpl;
    [|split; [by intros [??]|by intros [_ [??]]]].
  split; [by eauto|by eexists].
Qed.

Lemma parse_reflection_attrs c is_vulkan r :
  parse_reflection c is_vulkan = Some r →
  reflect_attrs c (stage_inputs (get_shader_resources c))
    (replicate attr_NUM attr_default) = Some (inputs r)
  ∧ reflect_attrs c (stage_outputs (get_shader_resources c))
      (replicate attr_NUM attr_default) = Some (outputs r).
Proof.
  unfold parse_reflection. intros Hr.
  destruct (reflect_attrs c (stage_inputs _) _); [|done].
  destruct (reflect_attrs c (stage_outputs _) _); [|done].
  by simplify_eq/=.
Qed.

Lemma parse_reflection_lengths c is_vulkan r :
  parse_reflection c is_vulkan = Some r →
  length (inputs r) = attr_NUM ∧ length (outputs r) = attr_NUM.
Proof.
  intros [Hi Ho]%parse_reflection_attrs.
  apply reflect_attrs_length in Hi, Ho.
  by rewrite length_replicate in Hi, Ho.
Qed.

Lemma translate_switch_valid slang blob opt_mask type res :
  translate_switch slang blob opt_mask type = Some res →
  src_valid res = negb (bool_decide (emitted slang blob opt_mask type = "")).
Proof.
  rewrite translate_switch_unfold. case_bool_decide; simpl; [by intros [= <-]|].
  destruct (parse_reflection _ _); simpl; [|done]. by intros [= <-].
Qed.

Lemma translate_switch_None slang blob opt_mask type :
  translate_switch slang blob opt_mask type = None ↔
  emitted slang blob opt_mask type ≠ ""
  ∧ parse_reflection (translated slang blob opt_mask type)
      (is_vulkan_target slang) = None.
Proof.
  rewrite translate_switch_unfold. case_bool_decide; simpl;
    [split; [done|by intros [? _]]|].
  destruct (parse_reflection _ _); simpl; [split; [done|by intros [_ ?]]|done].
Qed.

(** C10: the reflection extractor stores every stage input and output in
    the fixed-size arrays at the index given by its location decoration
    and checks no bound: the stores are all in bounds exactly when every
    location is below the capacity of the arrays (otherwise the behaviour
    is undefined, not an error); of several resources with one location
    the last one stays in the array; and a back end's result is valid
    whenever the translator returned source text, whatever the
    locations. *)
Theorem stage_attributes_stored_unchecked (c : Compiler) (is_vulkan : bool) :
  Z.of_nat attr_NUM ≤ 2 ^ 31 →
  let res := get_shader_resources c in
  let location a := get_decoration c (res_id a) DecorationLocation in
  let stored attrs (s : nat) :=
    match last (filter (λ a, location a = Z.of_nat s) attrs) with
    | Some a => reflect_attr c a
    | None => attr_default
    end in
  (is_Some (parse_reflection c is_vulkan) ↔
   Forall (λ a, location a < Z.of_nat attr_NUM)
     (stage_inputs res ++ stage_outputs res))
  ∧ (∀ r (s : nat), parse_reflection c is_vulkan = Some r →
       (s < attr_NUM)%nat →
       inputs r !! s = Some (stored (stage_inputs res) s)
       ∧ outputs r !! s = Some (stored (stage_outputs res) s))
  ∧ (∀ slang blob opt_mask type,
       (translate_switch slang blob opt_mask type = None ↔
        emitted slang blob opt_mask type ≠ ""
        ∧ parse_reflection (translated slang blob opt_mask type)
            (is_vulkan_target slang) = None)
       ∧ ∀ src, translate_switch slang blob opt_mask type = Some src →
           src_valid src
           = negb (bool_decide (emitted slang blob opt_mask type = ""))).
Proof.
  intros HNUM res location stored. split; [|split].
  - rewrite parse_reflection_defined. apply Forall_proper; [|done].
    intros a. simpl. apply to_int_below; [apply get_decoration_range|done].
  - intros r s Hr Hs.
    destruct (parse_reflection_attrs _ _ _ Hr) as [Hi Ho].
    assert (∀ attrs : list Resource,
      filter (λ a, attr_slot (reflect_attr c a) = Z.of_nat s) attrs
      = filter (λ a, location a = Z.of_nat s) attrs) as Hf.
    { intros attrs. apply list_filter_iff. intros a. simpl.
      apply to_int_eq; [apply get_decoration_range|lia]. }
    rewrite (reflect_attrs_lookup _ _ _ _ s Hi),
      (reflect_attrs_lookup _ _ _ _ s Ho), !Hf.
    subst stored. simpl.
    split; destruct (last _); try done; by apply lookup_replicate_2.
  - intros slang blob opt_mask type. split.
    + apply translate_switch_None.
    + apply translate_switch_valid.
Qed.


(** *** Binary serializer *)

Lemma Z_of_byte_of_Z z : Z_of_byte (byte_of_Z z) = u8 z.
Proof.
  unfold Z_of_byte, byte_of_Z.
  assert (0 ≤ u8 z < 2 ^ 8) as Hu by (apply Z.mod_pos_bound; lia).
  destruct (Byte.of_N (Z.to_N (u8 z))) as [b|] eqn:Hb; simpl.
  - apply Byte.to_of_N in Hb. rewrite Hb. lia.
  - apply Byte.of_N_None_iff in Hb. lia.
Qed.

Lemma u8_small z : 0 ≤ z < 2 ^ 8 → u8 z = z.
Proof. intros. by apply Z.mod_small. Qed.

Lemma u16_small z : 0 ≤ z < 2 ^ 16 → u16 z = z.
Proof. intros. by apply Z.mod_small. Qed.

Lemma u16_range z : 0 ≤ u16 z < 2 ^ 16.
Proof. apply Z.mod_pos_bound. lia. Qed.

Lemma u16_idemp z : u16 (u16 z) = u16 z.
Proof. apply u16_small, u16_range. Qed.

Lemma u16_bytes v :
  0 ≤ v < 2 ^ 16 →
  Z_of_byte (byte_of_Z v) + 256 * Z_of_byte (byte_of_Z (v / 256)) = v.
Proof.
  intros Hv. rewrite !Z_of_byte_of_Z. unfold u8.
  change (2 ^ 8) with 256.
  rewrite (Z.mod_small (v / 256)).
  - pose proof (Z.div_mod v 256). lia.
  - split; [apply Z.div_pos; lia|]. apply Z.div_lt_upper_bound; lia.
Qed.

Lemma length_list_byte_of_string s :
  length (list_byte_of_string s) = String.length s.
Proof. induction s as [|a s IH]; simpl; [done|]. by f_equal. Qed.

Lemma read_bytes_app bs rest :
  read_bytes (length bs) (bs ++ rest) = Some (bs, rest).
Proof.
  unfold read_bytes. rewrite decide_True by (rewrite length_app; lia).
  by rewrite take_app_length, drop_app_length.
Qed.

Lemma write_string_Some stream str :
  string_fits str →
  write_string stream str
  = Some (stream ++ [byte_of_Z (Z.of_nat (String.length str));
                     byte_of_Z (Z.of_nat (String.length str) / 256)]
          ++ list_byte_of_string str).
Proof.
  unfold string_fits, UINT16_MAX, write_string, write_u16. intros Hlt.
  rewrite bool_decide_true by done. simpl.
  rewrite u16_idemp, u16_small by lia. by rewrite <-app_assoc.
Qed.

Lemma write_string_None stream str :
  ¬ string_fits str → write_string stream str = None.
Proof.
  unfold string_fits, write_string. intros Hlt.
  by rewrite bool_decide_false by done.
Qed.

Lemma encodes_string str :
  string_fits str → encodes (λ stream, write_string stream str) read_string str.
Proof.
  intros Hfit.
  exists ([byte_of_Z (Z.of_nat (String.length str));
           byte_of_Z (Z.of_nat (String.length str) / 256)]
          ++ list_byte_of_string str).
  split; [intros; by apply write_string_Some|].
  intros rest. unfold read_string. simpl.
  unfold string_fits, UINT16_MAX in Hfit.
  rewrite u16_bytes by lia. rewrite Nat2Z.id.
  rewrite <-length_list_byte_of_string, read_bytes_app.
  by rewrite string_of_list_byte_of_string.
Qed.

(** C7, as amended: for every string shorter than [UINT16_MAX] = 65535
    the assertion of the string writer holds and the writer appends the
    length as a little-endian u16 followed by exactly that many bytes, the
    bytes of the string; a string of 65535 characters or more fails the
    assertion. *)
Theorem write_string_contract (stream : list byte) (str : string) :
  (Z.of_nat (String.length str) < 65535 →
   ∃ lo hi,
     write_string stream str
     = Some (stream ++ lo :: hi :: list_byte_of_string str)
     ∧ Z_of_byte lo + 256 * Z_of_byte hi = Z.of_nat (String.length str)
     ∧ length (list_byte_of_string str) = String.length str)
  ∧ (65535 ≤ Z.of_nat (String.length str) →
     write_string stream str = None).
Proof.
  split.
  - intros Hlt. eexists _, _. split; [by apply write_string_Some|].
    split; [apply u16_bytes; lia|apply length_list_byte_of_string].
  - intros Hge. apply write_string_None. unfold string_fits, UINT16_MAX. lia.
Qed.


Lemma read_u16_bytes v rest :
  read_u16 (byte_of_Z (u16 v) :: byte_of_Z (u16 v / 256) :: rest)
  = Some (u16 v, rest).
Proof. simpl. by rewrite u16_bytes by apply u16_range. Qed.

Lemma read_u8_byte v rest : read_u8 (byte_of_Z v :: rest) = Some (u8 v, rest).
Proof. simpl. by rewrite Z_of_byte_of_Z. Qed.

Lemma encodes_attr a :
  attr_encodable a → encodes (λ stream, write_attr stream a) read_attr a.
Proof.
  intros (Hn & Hs & Hsn & Hi).
  destruct (encodes_string _ Hn) as (b1 & W1 & R1).
  destruct (encodes_string _ Hsn) as (b3 & W3 & R3).
  exists (b1 ++ [byte_of_Z (u16 (attr_slot a));
                 byte_of_Z (u16 (attr_slot a) / 256)]
          ++ b3 ++ [byte_of_Z (attr_sem_index a)]).
  split.
  - intros stream. unfold write_attr. rewrite W1. simpl.
    unfold write_u16. rewrite W3. simpl. unfold write_byte.
    by rewrite <-!app_assoc.
  - intros rest. unfold read_attr. rewrite <-!app_assoc, R1.
    cbn [app]. rewrite read_u16_bytes, R3. cbn [app].
    rewrite read_u8_byte, u16_small, u8_small by done. by destruct a.
Qed.

Lemma encodes_uniform_list us :
  Forall uniform_encodable us →
  encodes (λ stream, write_uniforms stream us)
    (read_many read_uniform (length us)) (map layout_of_uniform us).
Proof.
  induction 1 as [|u us (Hn & Ha & Ho) _ (b2 & W2 & R2)].
  - exists []. split; intros; simpl; by rewrite ?app_nil_r.
  - destruct (encodes_string _ Hn) as (b1 & W1 & R1).
    exists (b1 ++ [byte_of_Z (uniform_type_code (uniform_type_of u))]
            ++ [byte_of_Z (u16 (uniform_array_count u));
                byte_of_Z (u16 (uniform_array_count u) / 256)]
            ++ [byte_of_Z (u16 (uniform_offset u));
                byte_of_Z (u16 (uniform_offset u) / 256)] ++ b2).
    split.
    + intros stream. cbn [write_uniforms]. rewrite W1. simpl.
      unfold write_byte, write_u16. rewrite W2. by rewrite <-!app_assoc.
    + intros rest. cbn [length read_many map]. unfold read_uniform.
      rewrite <-!app_assoc, R1. cbn [app].
      rewrite read_u8_byte, !read_u16_bytes, R2.
      by rewrite !u16_small by done.
Qed.

Lemma encodes_counted {A} write (read : list byte → option (A * list byte))
    (xs : list A) (n : nat) :
  n = length xs →
  fits_u16 (Z.of_nat n) →
  encodes write (read_many read n) xs →
  encodes (λ stream, write (write_u16 stream (Z.of_nat n)))
    (read_counted read) xs.
Proof.
  intros -> Hfit (bs & W & R).
  exists ([byte_of_Z (u16 (Z.of_nat (length xs)));
           byte_of_Z (u16 (Z.of_nat (length xs)) / 256)] ++ bs).
  split.
  - intros stream. unfold write_u16. by rewrite W, <-app_assoc.
  - intros rest. unfold read_counted. cbn [app].
    rewrite read_u16_bytes, u16_small, Nat2Z.id by done. apply R.
Qed.

Lemma encodes_uniform_block ub :
  ub_encodable ub →
  encodes (λ stream, write_uniform_block stream ub)
    (read_counted read_uniform) (map layout_of_uniform (ub_uniforms ub)).
Proof.
  intros [Hfit Hus]. unfold write_uniform_block.
  apply (encodes_counted (λ stream, write_uniforms stream (ub_uniforms ub)));
    [by rewrite length_map|done|].
  by apply encodes_uniform_list.
Qed.

Lemma encodes_uniform_block_list ubs :
  Forall ub_encodable ubs →
  encodes (λ stream, write_uniform_blocks stream ubs)
    (read_many (read_counted read_uniform) (length ubs))
    (map (λ ub, map layout_of_uniform (ub_uniforms ub)) ubs).
Proof.
  induction 1 as [|ub ubs Hub _ (b2 & W2 & R2)].
  - exists []. split; intros; simpl; by rewrite ?app_nil_r.
  - destruct (encodes_uniform_block _ Hub) as (b1 & W1 & R1).
    exists (b1 ++ b2). split.
    + intros stream. cbn [write_uniform_blocks]. rewrite W1. simpl.
      by rewrite W2, <-app_assoc.
    + intros rest. cbn [length read_many map]. by rewrite <-app_assoc, R1, R2.
Qed.

Lemma encodes_image img :
  image_encodable img →
  encodes (λ stream, write_image stream img) read_image (layout_of_image img).
Proof.
  intros (Hn & Hs).
  destruct (encodes_string _ Hn) as (b1 & W1 & R1).
  exists (b1 ++ [byte_of_Z (u16 (img_slot img));
                 byte_of_Z (u16 (img_slot img) / 256)]
          ++ [byte_of_Z (image_type_code (img_type img))]
          ++ [byte_of_Z (image_basetype_code (img_base_type img))]).
  split.
  - intros stream. unfold write_image. rewrite W1. simpl.
    unfold write_u16, write_byte. by rewrite <-!app_assoc.
  - intros rest. unfold read_image. rewrite <-!app_assoc, R1. cbn [app].
    by rewrite read_u16_bytes, !read_u8_byte, u16_small by done.
Qed.

Lemma encodes_image_list imgs :
  Forall image_encodable imgs →
  encodes (λ stream, write_images stream imgs)
    (read_many read_image (length imgs)) (map layout_of_image imgs).
Proof.
  induction 1 as [|img imgs Himg _ (b2 & W2 & R2)].
  - exists []. split; intros; simpl; by rewrite ?app_nil_r.
  - destruct (encodes_image _ Himg) as (b1 & W1 & R1).
    exists (b1 ++ b2). split.
    + intros stream. cbn [write_images]. rewrite W1. simpl.
      by rewrite W2, <-app_assoc.
    + intros rest. cbn [length read_many map]. by rewrite <-app_assoc, R1, R2.
Qed.

Lemma count_attrs_used attrs :
  count_attrs attrs = Z.of_nat (length (used_attrs attrs)).
Proof.
  unfold count_attrs, used_attrs.
  assert (∀ n, foldl (λ count attr,
                 if bool_decide (0 ≤ attr_slot attr) then count + 1 else count)
               n attrs
             = n + Z.of_nat (length (filter (λ a, 0 ≤ attr_slot a) attrs))) as Hn.
  { induction attrs as [|a attrs IH]; intros n; simpl; [lia|].
    rewrite IH, filter_cons. case_bool_decide.
    - rewrite decide_True by done. simpl. lia.
    - by rewrite decide_False by done. }
  apply Hn.
Qed.

Lemma encodes_attr_list attrs :
  Forall attr_encodable (used_attrs attrs) →
  encodes (λ stream, write_attrs stream attrs)
    (read_many read_attr (length (used_attrs attrs))) (used_attrs attrs).
Proof.
  unfold used_attrs. induction attrs as [|a attrs IH]; intros Hall.
  - exists []. split; intros; simpl; by rewrite ?app_nil_r.
  - rewrite filter_cons in Hall |- *. cbn [write_attrs]. case_decide as Hs.
    + rewrite bool_decide_true by done.
      apply Forall_cons in Hall as [Ha Hall].
      destruct (IH Hall) as (b2 & W2 & R2).
      destruct (encodes_attr _ Ha) as (b1 & W1 & R1).
      exists (b1 ++ b2). split.
      * intros stream. rewrite W1. simpl. by rewrite W2, <-app_assoc.
      * intros rest. cbn [length read_many]. by rewrite <-app_assoc, R1, R2.
    + rewrite bool_decide_false by done. by apply IH.
Qed.


Lemma read_magic_written rest :
  read_magic (list_byte_of_string "SHDC" ++ rest) = Some rest.
Proof.
  unfold read_magic.
  change (read_bytes 4) with (read_bytes (length (list_byte_of_string "SHDC"))).
  by rewrite read_bytes_app.
Qed.

Lemma encodes_reflection r :
  refl_encodable r →
  encodes (λ stream, write_binary_reflection_info stream r)
    read_binary_reflection_info (layout_of r).
Proof.
  intros (He & Hci & Hi & Hco & Ho & Hcu & Hu & Hcm & Hm).
  destruct (encodes_string _ He) as (bE & WE & RE).
  destruct (encodes_counted _ _ _ _ eq_refl Hci (encodes_attr_list _ Hi))
    as (bI & WI & RI).
  destruct (encodes_counted _ _ _ _ eq_refl Hco (encodes_attr_list _ Ho))
    as (bO & WO & RO).
  destruct (encodes_counted _ _ _ (length (uniform_blocks r))
              (eq_sym (length_map _ _)) Hcu (encodes_uniform_block_list _ Hu))
    as (bU & WU & RU).
  destruct (encodes_counted _ _ _ (length (images r))
              (eq_sym (length_map _ _)) Hcm (encodes_image_list _ Hm))
    as (bM & WM & RM).
  exists (list_byte_of_string "SHDC"
          ++ [byte_of_Z (u16 BINARY_FORMAT_VERSION);
              byte_of_Z (u16 BINARY_FORMAT_VERSION / 256)]
          ++ [byte_of_Z (stage_code (stage r))]
          ++ bE ++ bI ++ bO ++ bU ++ bM).
  split.
  - intros stream. unfold write_binary_reflection_info.
    rewrite !count_attrs_used, WE. cbn [mbind option_bind].
    rewrite WI. cbn [mbind option_bind].
    rewrite WO. cbn [mbind option_bind].
    rewrite WU. cbn [mbind option_bind].
    rewrite WM. unfold write_byte, write_u16, write_chars.
    by rewrite <-!app_assoc.
  - intros rest. unfold read_binary_reflection_info.
    rewrite <-!app_assoc, read_magic_written. cbn [app].
    rewrite read_u16_bytes, read_u8_byte, RE, RI, RO, RU, RM.
    by rewrite u16_small by done.
Qed.

(** C6, as amended: for every ReflectionInfo whose strings are shorter
    than [UINT16_MAX] and whose counts and numbers fit the widths of their
    fields, the reader that follows the layout of the format recovers from
    the bytes of the binary serializer, and from them alone, the version,
    the stage byte, the entry point, the attributes with a valid slot
    (name, slot, semantic name and index), for every uniform block its
    members (name, type byte, array count, offset) and for every image its
    name, slot, type byte and base-type byte; two such records with the
    same bytes agree on all of these. *)
Theorem binary_layout_round_trip (r : spirvcross_refl_t) :
  refl_encodable r →
  ∃ bytes,
    write_binary_reflection_info [] r = Some bytes
    ∧ read_binary_reflection_info bytes = Some (layout_of r, [])
    ∧ ∀ r', refl_encodable r' →
        write_binary_reflection_info [] r' = Some bytes →
        layout_of r' = layout_of r.
Proof.
  intros Hr. destruct (encodes_reflection r Hr) as (bs & W & R).
  exists bs. split; [apply W|]. split.
  - specialize (R []). by rewrite app_nil_r in R.
  - intros r' Hr' W'. destruct (encodes_reflection r' Hr') as (bs' & W2 & R2).
    rewrite W2 in W'. simplify_eq/=.
    specialize (R []). specialize (R2 []). rewrite R in R2. congruence.
Qed.

(** the writer of a uniform block looks at the members only *)
Lemma write_uniform_block_members_only stream ub slot size name index :
  write_uniform_block stream
    {| ub_slot := slot; ub_size := size; ub_name := name;
       ub_uniforms := ub_uniforms ub; ub_unique_index := index |}
  = write_uniform_block stream ub.
Proof. done. Qed.


(** *** Cross-shader deduplication *)

Lemma first_seen_app seen l1 l2 :
  first_seen seen (l1 ++ l2) = first_seen (first_seen seen l1) l2.
Proof.
  revert seen. induction l1 as [|n l1 IH]; intros seen; simpl; [done|].
  by case_decide.
Qed.

Lemma first_seen_known seen l :
  (∀ n, n ∈ l → n ∈ seen) → first_seen seen l = seen.
Proof.
  induction l as [|n l IH]; intros Hl; simpl; [done|].
  rewrite decide_True by (apply Hl; left).
  apply IH. intros n' Hn'. apply Hl. by right.
Qed.

Lemma first_seen_grows seen l n : n ∈ seen → n ∈ first_seen seen l.
Proof.
  revert seen. induction l as [|n' l IH]; intros seen Hn; simpl; [done|].
  case_decide; apply IH; [done|]. apply elem_of_app. by left.
Qed.

Lemma first_seen_covers seen l n : n ∈ l → n ∈ first_seen seen l.
Proof.
  revert seen. induction l as [|n' l IH]; intros seen Hn; simpl;
    [by apply elem_of_nil in Hn|].
  apply elem_of_cons in Hn as [->|Hn].
  - case_decide; apply first_seen_grows; [done|].
    apply elem_of_app. right. by left.
  - case_decide; by apply IH.
Qed.

Lemma first_seen_again seen l :
  first_seen (first_seen seen l) l = first_seen seen l.
Proof. apply first_seen_known. intros n. apply first_seen_covers. Qed.

Lemma first_seen_resumed l1 l2 :
  first_seen (first_seen [] l1) (l1 ++ l2) = first_seen [] (l1 ++ l2).
Proof. by rewrite !first_seen_app, first_seen_again. Qed.

Lemma find_ub_from_spec pool name i :
  find_ub_from pool name i =
  match list_find (λ e, ub_name e = name) pool with
  | Some (k, _) => i + Z.of_nat k
  | None => -1
  end.
Proof.
  revert i. induction pool as [|e pool IH]; intros i; simpl; [done|].
  case_bool_decide.
  - rewrite decide_True by done. simpl. lia.
  - rewrite decide_False by done. rewrite IH.
    destruct (list_find _ pool) as [[k e']|]; simpl; lia.
Qed.

Lemma gather_uniform_block_spec inp pool ub :
  gather_uniform_block inp pool ub =
  match list_find (λ e, ub_name e = ub_name ub) pool with
  | Some (k, e) =>
      if ub_equals ub e
      then (pool, set_ub_unique_index ub (Z.of_nat k), None)
      else (pool, ub, Some (ub_conflict inp (ub_name ub)))
  | None =>
      (pool ++ [set_ub_unique_index ub (Z.of_nat (length pool))],
       set_ub_unique_index ub (Z.of_nat (length pool)), None)
  end.
Proof.
  unfold gather_uniform_block, find_unique_uniform_block_by_name.
  rewrite find_ub_from_spec.
  destruct (list_find _ pool) as [[k e]|] eqn:Hfind.
  - apply list_find_Some in Hfind as (Hk & _ & _).
    rewrite bool_decide_true by lia.
    replace (Z.to_nat (0 + Z.of_nat k)) with k by lia.
    rewrite (nth_lookup_Some _ _ _ _ Hk). by rewrite Z.add_0_l.
  - by rewrite bool_decide_false by lia.
Qed.

Lemma list_find_name_None {A K} `{EqDecision K} (name_of : A → K)
    (pool : list A) (name : K) :
  list_find (λ e, name_of e = name) pool = None ↔ name ∉ map name_of pool.
Proof.
  rewrite list_find_None, Forall_forall. split.
  - intros Hall (e & Heq & He)%list_elem_of_fmap. by apply (Hall e).
  - intros Hn e He Heq. apply Hn, list_elem_of_fmap. exists e. by split.
Qed.

Lemma ub_assigned_mono pool pool' ub :
  pool `prefix_of` pool' → ub_assigned pool ub → ub_assigned pool' ub.
Proof.
  intros Hpre (k & e & Hi & Hk & Hn). exists k, e. split; [done|].
  split; [|done]. by eapply prefix_lookup_Some.
Qed.

Lemma ub_pool_indexed_snoc pool ub :
  ub_pool_indexed pool →
  ub_pool_indexed (pool ++ [set_ub_unique_index ub (Z.of_nat (length pool))]).
Proof.
  intros Hp k e Hk. apply lookup_app_Some in Hk as [Hk|[Hge Hk]].
  - by apply Hp.
  - apply list_lookup_singleton_Some in Hk as [Hk <-]. simpl. lia.
Qed.

(** one step of the deduplicator keeps the pool indexed, extends it in
    first-seen order and, when it reports no conflict, leaves the block
    pointing at the pool entry of its name *)
Lemma gather_uniform_block_step inp pool ub pool' ub' err :
  gather_uniform_block inp pool ub = (pool', ub', err) →
  ub_pool_indexed pool →
  ub_pool_indexed pool'
  ∧ pool `prefix_of` pool'
  ∧ ub_name ub' = ub_name ub
  ∧ match err with
    | None =>
        map ub_name pool' = first_seen (map ub_name pool) [ub_name ub]
        ∧ ub_assigned pool' ub'
    | Some e => e = ub_conflict inp (ub_name ub) ∧ pool' = pool ∧ ub' = ub
    end.
Proof.
  rewrite gather_uniform_block_spec. intros Hstep Hp.
  destruct (list_find _ pool) as [[k e]|] eqn:Hfind.
  - pose proof Hfind as (Hk & Hname & _)%list_find_Some.
    assert (ub_name ub ∈ map ub_name pool) as Hin.
    { apply list_elem_of_fmap. exists e. split; [done|].
      by eapply list_elem_of_lookup_2. }
    destruct (ub_equals ub e); simplify_eq.
    + repeat split; try done. simpl. by rewrite decide_True.
      by exists k, e.
    + done.
  - apply list_find_name_None in Hfind. simplify_eq.
    split; [by apply ub_pool_indexed_snoc|].
    split; [by apply prefix_app_r|]. split; [done|]. split.
    + simpl. rewrite decide_False by done. by rewrite map_app.
    + exists (length pool), (set_ub_unique_index ub (Z.of_nat (length pool))).
      split; [done|]. split; [|done].
      rewrite lookup_app_r by lia. by rewrite Nat.sub_diag.
Qed.


Lemma gather_uniform_block_conflict inp pool ub pool' ub' err :
  gather_uniform_block inp pool ub = (pool', ub', Some err) →
  pool' = pool ∧ ub' = ub ∧ err = ub_conflict inp (ub_name ub)
  ∧ ∃ e, e ∈ pool ∧ ub_name e = ub_name ub ∧ ub_equals ub e = false.
Proof.
  rewrite gather_uniform_block_spec.
  destruct (list_find _ pool) as [[k e]|] eqn:Hfind; [|by intros [= <- <-]].
  apply list_find_Some in Hfind as (Hk & Hname & _).
  destruct (ub_equals ub e) eqn:Heq; intros [= <- <- <-].
  repeat split; try done. exists e. split; [|done].
  by eapply list_elem_of_lookup_2.
Qed.

Lemma gather_uniform_blocks_of_ok inp pool ubs pool' ubs' :
  gather_uniform_blocks_of inp pool ubs = (pool', ubs', None) →
  ub_pool_indexed pool →
  ub_pool_indexed pool'
  ∧ pool `prefix_of` pool'
  ∧ map ub_name ubs' = map ub_name ubs
  ∧ map ub_name pool' = first_seen (map ub_name pool) (map ub_name ubs)
  ∧ Forall (ub_assigned pool') ubs'.
Proof.
  revert pool ubs'. induction ubs as [|ub ubs IH]; intros pool ubs' Hg Hp;
    simpl in Hg.
  - by simplify_eq.
  - destruct (gather_uniform_block inp pool ub) as [[p1 u1] [e|]] eqn:Hstep;
      [done|].
    destruct (gather_uniform_blocks_of inp p1 ubs) as [[p2 us2] e2] eqn:Hrest.
    simplify_eq.
    destruct (gather_uniform_block_step _ _ _ _ _ _ Hstep Hp)
      as (Hp1 & Hpre1 & Hn1 & Hseen1 & Has1).
    destruct (IH _ _ Hrest Hp1) as (Hp2 & Hpre2 & Hn2 & Hseen2 & Has2).
    split; [done|]. split; [by etrans|]. split; [simpl; by f_equal|].
    split.
    + change (map ub_name (ub :: ubs))
        with ([ub_name ub] ++ map ub_name ubs).
      by rewrite first_seen_app, <-Hseen1.
    + constructor; [by eapply ub_assigned_mono|done].
Qed.

(** a conflict ends the walk over the blocks of a source at once: the
    blocks before it are done, the block itself and all later ones are as
    they were *)
Lemma gather_uniform_blocks_of_conflict inp pool ubs pool' ubs' err :
  gather_uniform_blocks_of inp pool ubs = (pool', ubs', Some err) →
  ∃ pre pre' ub post,
    ubs = pre ++ ub :: post ∧ ubs' = pre' ++ ub :: post
    ∧ gather_uniform_blocks_of inp pool pre = (pool', pre', None)
    ∧ gather_uniform_block inp pool' ub = (pool', ub, Some err).
Proof.
  revert pool ubs'. induction ubs as [|ub ubs IH]; intros pool ubs' Hg;
    simpl in Hg; [done|].
  destruct (gather_uniform_block inp pool ub) as [[p1 u1] [e|]] eqn:Hstep.
  - simplify_eq.
    destruct (gather_uniform_block_conflict _ _ _ _ _ _ Hstep)
      as (-> & -> & _).
    by exists [], [], ub, ubs.
  - destruct (gather_uniform_blocks_of inp p1 ubs) as [[p2 us2] e2] eqn:Hrest.
    simplify_eq.
    destruct (IH _ _ Hrest) as (pre & pre' & ub' & post & -> & -> & Hpre & Hc).
    exists (ub :: pre), (u1 :: pre'), ub', post.
    repeat split; try done. simpl. by rewrite Hstep, Hpre.
Qed.

Lemma set_uniform_blocks_same src :
  set_uniform_blocks src (uniform_blocks (refl src)) = src.
Proof. by destruct src as [? ? [] ?]. Qed.

Lemma gather_uniform_blocks_in_frame inp pool srcs pool' srcs' err :
  gather_uniform_blocks_in inp pool srcs = (pool', srcs', err) →
  Forall2 same_but_ubs srcs srcs'.
Proof.
  revert pool srcs'. induction srcs as [|src srcs IH]; intros pool srcs' Hg;
    simpl in Hg.
  - simplify_eq. constructor.
  - destruct (gather_uniform_blocks_of inp pool _) as [[p1 us1] [e|]].
    + simplify_eq. constructor; [done|].
      apply Forall_Forall2_diag, Forall_forall. intros s _.
      unfold same_but_ubs. by rewrite set_uniform_blocks_same.
    + destruct (gather_uniform_blocks_in inp p1 srcs) as [[p2 ss2] e2] eqn:Hrest.
      simplify_eq. constructor; [done|]. by eapply IH.
Qed.

Lemma gather_uniform_blocks_in_ok inp pool srcs pool' srcs' :
  gather_uniform_blocks_in inp pool srcs = (pool', srcs', None) →
  ub_pool_indexed pool →
  ub_pool_indexed pool'
  ∧ pool `prefix_of` pool'
  ∧ ub_names_of srcs' = ub_names_of srcs
  ∧ map ub_name pool' = first_seen (map ub_name pool) (ub_names_of srcs)
  ∧ Forall (λ src, Forall (ub_assigned pool') (uniform_blocks (refl src)))
      srcs'.
Proof.
  revert pool srcs'. induction srcs as [|src srcs IH]; intros pool srcs' Hg Hp;
    simpl in Hg.
  - by simplify_eq.
  - destruct (gather_uniform_blocks_of inp pool _) as [[p1 us1] [e|]] eqn:Hof;
      [done|].
    destruct (gather_uniform_blocks_in inp p1 srcs) as [[p2 ss2] e2] eqn:Hrest.
    simplify_eq.
    destruct (gather_uniform_blocks_of_ok _ _ _ _ _ Hof Hp)
      as (Hp1 & Hpre1 & Hn1 & Hseen1 & Has1).
    destruct (IH _ _ Hrest Hp1) as (Hp2 & Hpre2 & Hn2 & Hseen2 & Has2).
    split; [done|]. split; [by etrans|].
    unfold ub_names_of in *. cbn [map concat]. split; [by f_equal|]. split.
    + by rewrite first_seen_app, <-Hseen1.
    + constructor; [|done]. simpl.
      eapply Forall_impl; [done|]. intros ub. by apply ub_assigned_mono.
Qed.

(** a conflict ends the walk over the sources at once and names the block
    that differs from the pool entry of its name *)
Lemma gather_uniform_blocks_in_conflict inp pool srcs pool' srcs' err :
  gather_uniform_blocks_in inp pool srcs = (pool', srcs', Some err) →
  ∃ spre spre' src spost pre pre' ub post,
    srcs = spre ++ src :: spost
    ∧ uniform_blocks (refl src) = pre ++ ub :: post
    ∧ srcs' = spre' ++ set_uniform_blocks src (pre' ++ ub :: post) :: spost
    ∧ err = ub_conflict inp (ub_name ub)
    ∧ ∃ e, e ∈ pool' ∧ ub_name e = ub_name ub ∧ ub_equals ub e = false.
Proof.
  revert pool srcs'. induction srcs as [|src srcs IH]; intros pool srcs' Hg;
    simpl in Hg; [done|].
  destruct (gather_uniform_blocks_of inp pool _) as [[p1 us1] [e|]] eqn:Hof.
  - simplify_eq.
    destruct (gather_uniform_blocks_of_conflict _ _ _ _ _ _ Hof)
      as (pre & pre' & ub & post & Hubs & -> & _ & Hc).
    destruct (gather_uniform_block_conflict _ _ _ _ _ _ Hc)
      as (_ & _ & -> & He).
    by exists [], [], src, srcs, pre, pre', ub, post.
  - destruct (gather_uniform_blocks_in inp p1 srcs) as [[p2 ss2] e2] eqn:Hrest.
    simplify_eq.
    destruct (IH _ _ Hrest)
      as (spre & spre' & src' & spost & pre & pre' & ub & post
          & -> & Hubs & -> & -> & He).
    by exists (src :: spre), (set_uniform_blocks src us1 :: spre'), src',
      spost, pre, pre', ub, post.
Qed.


(** the same for the images *)

Lemma find_img_from_spec pool name i :
  find_img_from pool name i =
  match list_find (λ e, img_name e = name) pool with
  | Some (k, _) => i + Z.of_nat k
  | None => -1
  end.
Proof.
  revert i. induction pool as [|e pool IH]; intros i; simpl; [done|].
  case_bool_decide.
  - rewrite decide_True by done. simpl. lia.
  - rewrite decide_False by done. rewrite IH.
    destruct (list_find _ pool) as [[k e']|]; simpl; lia.
Qed.

Lemma gather_image_spec inp pool img :
  gather_image inp pool img =
  match list_find (λ e, img_name e = img_name img) pool with
  | Some (k, e) =>
      if img_equals img e
      then (pool, set_img_unique_index img (Z.of_nat k), None)
      else (pool, img, Some (img_conflict inp (img_name img)))
  | None =>
      (pool ++ [set_img_unique_index img (Z.of_nat (length pool))],
       set_img_unique_index img (Z.of_nat (length pool)), None)
  end.
Proof.
  unfold gather_image, find_unique_image_by_name.
  rewrite find_img_from_spec.
  destruct (list_find _ pool) as [[k e]|] eqn:Hfind.
  - apply list_find_Some in Hfind as (Hk & _ & _).
    rewrite bool_decide_true by lia.
    replace (Z.to_nat (0 + Z.of_nat k)) with k by lia.
    rewrite (nth_lookup_Some _ _ _ _ Hk). by rewrite Z.add_0_l.
  - by rewrite bool_decide_false by lia.
Qed.

Lemma img_assigned_mono pool pool' img :
  pool `prefix_of` pool' → img_assigned pool img → img_assigned pool' img.
Proof.
  intros Hpre (k & e & Hi & Hk & Hn). exists k, e. split; [done|].
  split; [|done]. by eapply prefix_lookup_Some.
Qed.

Lemma img_pool_indexed_snoc pool img :
  img_pool_indexed pool →
  img_pool_indexed (pool ++ [set_img_unique_index img (Z.of_nat (length pool))]).
Proof.
  intros Hp k e Hk. apply lookup_app_Some in Hk as [Hk|[Hge Hk]].
  - by apply Hp.
  - apply list_lookup_singleton_Some in Hk as [Hk <-]. simpl. lia.
Qed.

(** one step of the deduplicator keeps the pool indexed, extends it in
    first-seen order and, when it reports no conflict, leaves the image
    pointing at the pool entry of its name *)
Lemma gather_image_step inp pool img pool' img' err :
  gather_image inp pool img = (pool', img', err) →
  img_pool_indexed pool →
  img_pool_indexed pool'
  ∧ pool `prefix_of` pool'
  ∧ img_name img' = img_name img
  ∧ match err with
    | None =>
        map img_name pool' = first_seen (map img_name pool) [img_name img]
        ∧ img_assigned pool' img'
    | Some e => e = img_conflict inp (img_name img) ∧ pool' = pool ∧ img' = img
    end.
Proof.
  rewrite gather_image_spec. intros Hstep Hp.
  destruct (list_find _ pool) as [[k e]|] eqn:Hfind.
  - pose proof Hfind as (Hk & Hname & _)%list_find_Some.
    assert (img_name img ∈ map img_name pool) as Hin.
    { apply list_elem_of_fmap. exists e. split; [done|].
      by eapply list_elem_of_lookup_2. }
    destruct (img_equals img e); simplify_eq.
    + repeat split; try done. simpl. by rewrite decide_True.
      by exists k, e.
    + done.
  - apply list_find_name_None in Hfind. simplify_eq.
    split; [by apply img_pool_indexed_snoc|].
    split; [by apply prefix_app_r|]. split; [done|]. split.
    + simpl. rewrite decide_False by done. by rewrite map_app.
    + exists (length pool), (set_img_unique_index img (Z.of_nat (length pool))).
      split; [done|]. split; [|done].
      rewrite lookup_app_r by lia. by rewrite Nat.sub_diag.
Qed.


Lemma gather_image_conflict inp pool img pool' img' err :
  gather_image inp pool img = (pool', img', Some err) →
  pool' = pool ∧ img' = img ∧ err = img_conflict inp (img_name img)
  ∧ ∃ e, e ∈ pool ∧ img_name e = img_name img ∧ img_equals img e = false.
Proof.
  rewrite gather_image_spec.
  destruct (list_find _ pool) as [[k e]|] eqn:Hfind; [|by intros [= <- <-]].
  apply list_find_Some in Hfind as (Hk & Hname & _).
  destruct (img_equals img e) eqn:Heq; intros [= <- <- <-].
  repeat split; try done. exists e. split; [|done].
  by eapply list_elem_of_lookup_2.
Qed.

Lemma gather_images_of_ok inp pool imgs pool' imgs' :
  gather_images_of inp pool imgs = (pool', imgs', None) →
  img_pool_indexed pool →
  img_pool_indexed pool'
  ∧ pool `prefix_of` pool'
  ∧ map img_name imgs' = map img_name imgs
  ∧ map img_name pool' = first_seen (map img_name pool) (map img_name imgs)
  ∧ Forall (img_assigned pool') imgs'.
Proof.
  revert pool imgs'. induction imgs as [|img imgs IH]; intros pool imgs' Hg Hp;
    simpl in Hg.
  - by simplify_eq.
  - destruct (gather_image inp pool img) as [[p1 u1] [e|]] eqn:Hstep;
      [done|].
    destruct (gather_images_of inp p1 imgs) as [[p2 us2] e2] eqn:Hrest.
    simplify_eq.
    destruct (gather_image_step _ _ _ _ _ _ Hstep Hp)
      as (Hp1 & Hpre1 & Hn1 & Hseen1 & Has1).
    destruct (IH _ _ Hrest Hp1) as (Hp2 & Hpre2 & Hn2 & Hseen2 & Has2).
    split; [done|]. split; [by etrans|]. split; [simpl; by f_equal|].
    split.
    + change (map img_name (img :: imgs))
        with ([img_name img] ++ map img_name imgs).
      by rewrite first_seen_app, <-Hseen1.
    + constructor; [by eapply img_assigned_mono|done].
Qed.

(** a conflict ends the walk over the images of a source at once: the
    images before it are done, the image itself and all later ones are as
    they were *)
Lemma gather_images_of_conflict inp pool imgs pool' imgs' err :
  gather_images_of inp pool imgs = (pool', imgs', Some err) →
  ∃ pre pre' img post,
    imgs = pre ++ img :: post ∧ imgs' = pre' ++ img :: post
    ∧ gather_images_of inp pool pre = (pool', pre', None)
    ∧ gather_image inp pool' img = (pool', img, Some err).
Proof.
  revert pool imgs'. induction imgs as [|img imgs IH]; intros pool imgs' Hg;
    simpl in Hg; [done|].
  destruct (gather_image inp pool img) as [[p1 u1] [e|]] eqn:Hstep.
  - simplify_eq.
    destruct (gather_image_conflict _ _ _ _ _ _ Hstep)
      as (-> & -> & _).
    by exists [], [], img, imgs.
  - destruct (gather_images_of inp p1 imgs) as [[p2 us2] e2] eqn:Hrest.
    simplify_eq.
    destruct (IH _ _ Hrest) as (pre & pre' & img' & post & -> & -> & Hpre & Hc).
    exists (img :: pre), (u1 :: pre'), img', post.
    repeat split; try done. simpl. by rewrite Hstep, Hpre.
Qed.

Lemma set_images_same src :
  set_images src (images (refl src)) = src.
Proof. by destruct src as [? ? [] ?]. Qed.

Lemma gather_images_in_frame inp pool srcs pool' srcs' err :
  gather_images_in inp pool srcs = (pool', srcs', err) →
  Forall2 same_but_images srcs srcs'.
Proof.
  revert pool srcs'. induction srcs as [|src srcs IH]; intros pool srcs' Hg;
    simpl in Hg.
  - simplify_eq. constructor.
  - destruct (gather_images_of inp pool _) as [[p1 us1] [e|]].
    + simplify_eq. constructor; [done|].
      apply Forall_Forall2_diag, Forall_forall. intros s _.
      unfold same_but_images. by rewrite set_images_same.
    + destruct (gather_images_in inp p1 srcs) as [[p2 ss2] e2] eqn:Hrest.
      simplify_eq. constructor; [done|]. by eapply IH.
Qed.

Lemma gather_images_in_ok inp pool srcs pool' srcs' :
  gather_images_in inp pool srcs = (pool', srcs', None) →
  img_pool_indexed pool →
  img_pool_indexed pool'
  ∧ pool `prefix_of` pool'
  ∧ img_names_of srcs' = img_names_of srcs
  ∧ map img_name pool' = first_seen (map img_name pool) (img_names_of srcs)
  ∧ Forall (λ src, Forall (img_assigned pool') (images (refl src)))
      srcs'.
Proof.
  revert pool srcs'. induction srcs as [|src srcs IH]; intros pool srcs' Hg Hp;
    simpl in Hg.
  - by simplify_eq.
  - destruct (gather_images_of inp pool _) as [[p1 us1] [e|]] eqn:Hof;
      [done|].
    destruct (gather_images_in inp p1 srcs) as [[p2 ss2] e2] eqn:Hrest.
    simplify_eq.
    destruct (gather_images_of_ok _ _ _ _ _ Hof Hp)
      as (Hp1 & Hpre1 & Hn1 & Hseen1 & Has1).
    destruct (IH _ _ Hrest Hp1) as (Hp2 & Hpre2 & Hn2 & Hseen2 & Has2).
    split; [done|]. split; [by etrans|].
    unfold img_names_of in *. cbn [map concat]. split; [by f_equal|]. split.
    + by rewrite first_seen_app, <-Hseen1.
    + constructor; [|done]. simpl.
      eapply Forall_impl; [done|]. intros img. by apply img_assigned_mono.
Qed.

(** a conflict ends the walk over the sources at once and names the image
    that differs from the pool entry of its name *)
Lemma gather_images_in_conflict inp pool srcs pool' srcs' err :
  gather_images_in inp pool srcs = (pool', srcs', Some err) →
  ∃ spre spre' src spost pre pre' img post,
    srcs = spre ++ src :: spost
    ∧ images (refl src) = pre ++ img :: post
    ∧ srcs' = spre' ++ set_images src (pre' ++ img :: post) :: spost
    ∧ err = img_conflict inp (img_name img)
    ∧ ∃ e, e ∈ pool' ∧ img_name e = img_name img ∧ img_equals img e = false.
Proof.
  revert pool srcs'. induction srcs as [|src srcs IH]; intros pool srcs' Hg;
    simpl in Hg; [done|].
  destruct (gather_images_of inp pool _) as [[p1 us1] [e|]] eqn:Hof.
  - simplify_eq.
    destruct (gather_images_of_conflict _ _ _ _ _ _ Hof)
      as (pre & pre' & img & post & Himgs & -> & _ & Hc).
    destruct (gather_image_conflict _ _ _ _ _ _ Hc)
      as (_ & _ & -> & He).
    by exists [], [], src, srcs, pre, pre', img, post.
  - destruct (gather_images_in inp p1 srcs) as [[p2 ss2] e2] eqn:Hrest.
    simplify_eq.
    destruct (IH _ _ Hrest)
      as (spre & spre' & src' & spost & pre & pre' & img & post
          & -> & Himgs & -> & -> & He).
    by exists (src :: spre), (set_images src us1 :: spre'), src',
      spost, pre, pre', img, post.
Qed.


(** *** One round of deduplication inside the pass *)

Lemma same_but_ubs_core src src' :
  same_but_ubs src src' →
  src_core src' = src_core src ∧ images (refl src') = images (refl src).
Proof. unfold same_but_ubs. by intros ->. Qed.

Lemma same_but_images_core src src' :
  same_but_images src src' →
  src_core src' = src_core src
  ∧ uniform_blocks (refl src') = uniform_blocks (refl src).
Proof. unfold same_but_images. by intros ->. Qed.

Lemma ub_names_of_app l1 l2 :
  ub_names_of (l1 ++ l2) = ub_names_of l1 ++ ub_names_of l2.
Proof. unfold ub_names_of. by rewrite map_app, concat_app. Qed.

Lemma img_names_of_app l1 l2 :
  img_names_of (l1 ++ l2) = img_names_of l1 ++ img_names_of l2.
Proof. unfold img_names_of. by rewrite map_app, concat_app. Qed.

Lemma ub_names_of_same srcs srcs' :
  Forall2 (λ s s', uniform_blocks (refl s') = uniform_blocks (refl s))
    srcs srcs' →
  ub_names_of srcs' = ub_names_of srcs.
Proof.
  unfold ub_names_of. induction 1 as [|s s' l l' Hs _ IH]; simpl; [done|].
  by rewrite Hs, IH.
Qed.

Lemma img_names_of_same srcs srcs' :
  Forall2 (λ s s', images (refl s') = images (refl s)) srcs srcs' →
  img_names_of srcs' = img_names_of srcs.
Proof.
  unfold img_names_of. induction 1 as [|s s' l l' Hs _ IH]; simpl; [done|].
  by rewrite Hs, IH.
Qed.

Lemma gather_unique_uniform_blocks_spec inp spv ok spv' :
  gather_unique_uniform_blocks inp spv = (ok, spv') →
  ∃ err,
    gather_uniform_blocks_in inp (unique_uniform_blocks spv) (sources spv)
    = (unique_uniform_blocks spv', sources spv', err)
    ∧ unique_images spv' = unique_images spv
    ∧ ok = (if err is Some _ then false else true)
    ∧ error spv' = (if err is Some e then e else error spv).
Proof.
  unfold gather_unique_uniform_blocks.
  destruct (gather_uniform_blocks_in _ _ _) as [[pool srcs] [e|]];
    intros [= <- <-]; by eexists.
Qed.

Lemma gather_unique_images_spec inp spv ok spv' :
  gather_unique_images inp spv = (ok, spv') →
  ∃ err,
    gather_images_in inp (unique_images spv) (sources spv)
    = (unique_images spv', sources spv', err)
    ∧ unique_uniform_blocks spv' = unique_uniform_blocks spv
    ∧ ok = (if err is Some _ then false else true)
    ∧ error spv' = (if err is Some e then e else error spv).
Proof.
  unfold gather_unique_images.
  destruct (gather_images_in _ _ _) as [[pool srcs] [e|]];
    intros [= <- <-]; by eexists.
Qed.

Lemma Forall2_elem_of_r {A B} (P : A → B → Prop) l k y :
  Forall2 P l k → y ∈ k → ∃ x, x ∈ l ∧ P x y.
Proof.
  intros HP [i Hi]%list_elem_of_lookup.
  destruct (Forall2_lookup_r _ _ _ _ _ HP Hi) as (x & Hx & Hxy).
  exists x. split; [by eapply list_elem_of_lookup_2|done].
Qed.

(** a round that reports no conflict, run after a source has been pushed
    onto a result whose pools were in first-seen order, leaves them so *)
Lemma dedup_round_ok inp spv0 src spv1 spv2 :
  pools_in_first_seen_order spv0 →
  gather_unique_uniform_blocks inp (push_source spv0 src) = (true, spv1) →
  gather_unique_images inp spv1 = (true, spv2) →
  pools_in_first_seen_order spv2
  ∧ error spv2 = error spv0
  ∧ Forall2 (λ s s', src_core s' = src_core s) (sources spv0 ++ [src])
      (sources spv2).
Proof.
  intros (Hpu & Hnu & _ & Hpi & Hni & _) Hg1 Hg2.
  apply gather_unique_uniform_blocks_spec in Hg1
    as (e1 & Hin1 & Himgs1 & Hok1 & Herr1).
  apply gather_unique_images_spec in Hg2 as (e2 & Hin2 & Hubs2 & Hok2 & Herr2).
  destruct e1; [done|]. destruct e2; [done|]. simpl in *.
  pose proof (gather_uniform_blocks_in_frame _ _ _ _ _ _ Hin1) as Hf1.
  pose proof (gather_images_in_frame _ _ _ _ _ _ Hin2) as Hf2.
  destruct (gather_uniform_blocks_in_ok _ _ _ _ _ Hin1 Hpu)
    as (Hpu1 & _ & Hnames1 & Hseen1 & Has1).
  rewrite Himgs1 in Hin2.
  destruct (gather_images_in_ok _ _ _ _ _ Hin2 Hpi)
    as (Hpi2 & _ & Hnames2 & Hseen2 & Has2).
  assert (ub_names_of (sources spv2) = ub_names_of (sources spv1)) as Hu2.
  { apply ub_names_of_same. eapply Forall2_impl; [done|].
    intros s s' Hs. by apply same_but_images_core. }
  assert (img_names_of (sources spv1)
          = img_names_of (sources spv0 ++ [src])) as Hi1.
  { apply img_names_of_same. eapply Forall2_impl; [done|].
    intros s s' Hs. by apply same_but_ubs_core. }
  split; [|split].
  - unfold pools_in_first_seen_order. rewrite Hubs2.
    split; [done|]. split; [|split; [|split; [done|split]]].
    + rewrite Hu2, Hnames1, Hseen1, Hnu, ub_names_of_app.
      apply first_seen_resumed.
    + intros s ub Hs Hub.
      destruct (Forall2_elem_of_r _ _ _ _ Hf2 Hs) as (s1 & Hs1 & Hsame).
      apply same_but_images_core in Hsame as [_ Hsame]. rewrite Hsame in Hub.
      rewrite Forall_forall in Has1. specialize (Has1 _ Hs1).
      rewrite Forall_forall in Has1. by apply Has1.
    + rewrite Hnames2, Hseen2, Hi1, Hni, img_names_of_app.
      apply first_seen_resumed.
    + intros s img Hs Himg. rewrite Forall_forall in Has2.
      specialize (Has2 _ Hs). rewrite Forall_forall in Has2. by apply Has2.
  - by rewrite Herr2, Herr1.
  - eapply Forall2_trans; [|done..]. intros s s1 s2 Hs1 Hs2. simpl in *.
    apply same_but_ubs_core in Hs1 as [Hs1 _].
    apply same_but_images_core in Hs2 as [Hs2 _]. congruence.
Qed.


(** *** Interface validator *)

Lemma link_slots_equal inp prog vs_src fs_src count i :
  slots_equal vs_src fs_src i (i + Z.of_nat count) →
  link_slots inp prog vs_src fs_src count i = Some None.
Proof.
  revert i. induction count as [|count IH]; intros i Heq; simpl; [done|].
  destruct (Heq i) as (a & b & -> & -> & Hab); [lia|]. simpl. rewrite Hab. simpl.
  apply IH. intros j Hj. apply Heq. lia.
Qed.

Lemma link_slots_first_mismatch inp prog vs_src fs_src count i m vs_out fs_inp :
  i ≤ m < i + Z.of_nat count →
  slots_equal vs_src fs_src i m →
  vec_at (outputs (refl vs_src)) m = Some vs_out →
  vec_at (inputs (refl fs_src)) m = Some fs_inp →
  attr_equals vs_out fs_inp = false →
  link_slots inp prog vs_src fs_src count i
  = Some (Some (mismatch_error inp prog m vs_out fs_inp)).
Proof.
  revert i. induction count as [|count IH]; intros i Hm Heq Ha Hb Hab; [lia|].
  simpl. destruct (decide (i = m)) as [->|Hne].
  - rewrite Ha, Hb. simpl. by rewrite Hab.
  - destruct (Heq i) as (a & b & -> & -> & Hab'); [lia|]. simpl.
    rewrite Hab'. simpl. apply IH; [lia| |done..].
    intros j Hj. apply Heq. lia.
Qed.

(** on arrays that are long enough the slot loop ends, either with all
    slots equal or at its first mismatch *)
Lemma link_slots_total inp prog vs_src fs_src count i :
  0 ≤ i →
  i + Z.of_nat count ≤ Z.of_nat (length (outputs (refl vs_src))) →
  i + Z.of_nat count ≤ Z.of_nat (length (inputs (refl fs_src))) →
  (link_slots inp prog vs_src fs_src count i = Some None
   ∧ slots_equal vs_src fs_src i (i + Z.of_nat count))
  ∨ ∃ m vs_out fs_inp,
      i ≤ m < i + Z.of_nat count
      ∧ slots_equal vs_src fs_src i m
      ∧ vec_at (outputs (refl vs_src)) m = Some vs_out
      ∧ vec_at (inputs (refl fs_src)) m = Some fs_inp
      ∧ attr_equals vs_out fs_inp = false
      ∧ link_slots inp prog vs_src fs_src count i
        = Some (Some (mismatch_error inp prog m vs_out fs_inp)).
Proof.
  revert i. induction count as [|count IH]; intros i Hi Ho Hin.
  - left. split; [done|]. intros j Hj. lia.
  - assert (is_Some (vec_at (outputs (refl vs_src)) i)) as [a Ha].
    { unfold vec_at. rewrite bool_decide_true by done.
      apply lookup_lt_is_Some. lia. }
    assert (is_Some (vec_at (inputs (refl fs_src)) i)) as [b Hb].
    { unfold vec_at. rewrite bool_decide_true by done.
      apply lookup_lt_is_Some. lia. }
    destruct (attr_equals a b) eqn:Hab.
    + destruct (IH (i + 1)) as [[Hl Heq]|(m & a' & b' & Hm & Heq & Ha' & Hb'
                                           & Hab' & Hl)]; [lia..| |].
      * left. split.
        -- simpl. rewrite Ha, Hb. simpl. by rewrite Hab.
        -- intros j Hj. destruct (decide (j = i)) as [->|]; [by eauto|].
           apply Heq. lia.
      * right. exists m, a', b'. split; [lia|]. split.
        { intros j Hj. destruct (decide (j = i)) as [->|]; [by eauto|].
          apply Heq. lia. }
        repeat split; try done. simpl. rewrite Ha, Hb. simpl. by rewrite Hab.
    + right. exists i, a, b. split; [lia|]. split; [intros j Hj; lia|].
      repeat split; try done. simpl. rewrite Ha, Hb. simpl. by rewrite Hab.
Qed.

Lemma link_programs_all inp spv_cross progs :
  Forall (λ prog_item, program_links inp spv_cross prog_item.2) progs →
  link_programs inp spv_cross progs = Some errmsg_default.
Proof.
  induction 1 as [|prog_item progs (vs & fs & Hsrc & Heq) _ IH]; simpl; [done|].
  unfold link_program. rewrite Hsrc. by rewrite link_slots_equal.
Qed.

Lemma link_programs_first_mismatch inp spv_cross pre prog_item post vs_src
    fs_src m vs_out fs_inp :
  Forall (λ prog_item, program_links inp spv_cross prog_item.2) pre →
  linked_sources inp spv_cross prog_item.2 = Some (vs_src, fs_src) →
  0 ≤ m < Z.of_nat attr_NUM →
  slots_equal vs_src fs_src 0 m →
  vec_at (outputs (refl vs_src)) m = Some vs_out →
  vec_at (inputs (refl fs_src)) m = Some fs_inp →
  attr_equals vs_out fs_inp = false →
  link_programs inp spv_cross (pre ++ prog_item :: post)
  = Some (mismatch_error inp prog_item.2 m vs_out fs_inp).
Proof.
  intros Hpre Hsrc Hm Heq Ha Hb Hab.
  induction Hpre as [|p pre (vs & fs & Hsrc' & Heq') _ IH]; simpl.
  - unfold link_program. rewrite Hsrc.
    by rewrite (link_slots_first_mismatch _ _ _ _ _ _ m vs_out fs_inp).
  - unfold link_program at 1. rewrite Hsrc'. by rewrite link_slots_equal.
Qed.

(** C2: for every declared program and every slot of the attribute
    arrays, unused slots included, the vertex output and the fragment
    input at that slot must be attribute-equal: when that holds of every
    program the validator returns no error; otherwise, at the first
    program and first slot where the two differ, it returns the error
    that names both shaders, the slot and both attribute names, whatever
    comes at later slots and in later programs, which are not looked
    at. *)
Theorem validate_linking_first_mismatch (inp : input_t)
    (spv_cross : spirvcross_t) :
  (Forall (λ prog_item, program_links inp spv_cross prog_item.2) (programs inp) →
   validate_linking inp spv_cross = Some errmsg_default
   ∧ err_valid errmsg_default = false)
  ∧ (∀ pre prog_item post vs_src fs_src m vs_out fs_inp,
       programs inp = pre ++ prog_item :: post →
       Forall (λ prog_item, program_links inp spv_cross prog_item.2) pre →
       linked_sources inp spv_cross prog_item.2 = Some (vs_src, fs_src) →
       0 ≤ m < Z.of_nat attr_NUM →
       slots_equal vs_src fs_src 0 m →
       vec_at (outputs (refl vs_src)) m = Some vs_out →
       vec_at (inputs (refl fs_src)) m = Some fs_inp →
       attr_equals vs_out fs_inp = false →
       let err := mismatch_error inp prog_item.2 m vs_out fs_inp in
       validate_linking inp spv_cross = Some err
       ∧ err_valid err = true
       ∧ err_line_index err = prog_line_index prog_item.2
       ∧ err_msg err
         = "outputs of vs '" +:+ prog_vs_name prog_item.2
           +:+ "' don't match inputs of fs '" +:+ prog_fs_name prog_item.2
           +:+ "' for attr #" +:+ fmt_int m
           +:+ " (vs=" +:+ attr_name vs_out +:+ ",fs=" +:+ attr_name fs_inp
           +:+ ")" +:+ String (ascii_of_nat 10) "").
Proof.
  split.
  - intros Hall. split; [|done]. by apply link_programs_all.
  - intros pre prog_item post vs_src fs_src m vs_out fs_inp Hprogs Hpre Hsrc Hm
      Heq Ha Hb Hab err.
    split; [|done]. unfold validate_linking. rewrite Hprogs.
    by eapply link_programs_first_mismatch.
Qed.


(** *** The pass *)

Lemma translate_switch_sized slang blob opt_mask type src :
  translate_switch slang blob opt_mask type = Some src →
  src_valid src = true → attrs_sized src.
Proof.
  rewrite translate_switch_unfold. case_bool_decide; simpl;
    [by intros [= <-]|].
  destruct (parse_reflection _ _) as [r|] eqn:Hr; simpl; [|done].
  intros [= <-] _. apply parse_reflection_lengths in Hr.
  unfold attrs_sized. simpl. by destruct (is_metal slang).
Qed.

Lemma sources_match_core l l' done :
  Forall2 (λ s s', src_core s' = src_core s) l l' →
  sources_match l done → sources_match l' done.
Proof.
  intros Hcore Hm. unfold sources_match.
  eapply Forall2_trans; [|by apply Forall2_flip, Hcore|done].
  intros s' s b Hs (Hv & Hi & Hl1 & Hl2). unfold src_core, attrs_sized, flip in *.
  injection Hs as -> _ -> _ _ -> ->. done.
Qed.

Lemma pass_inv_empty : pass_inv spirvcross_empty [].
Proof.
  split; [|split; [done|constructor]].
  repeat split; try done; intros ? ? Hs; by apply elem_of_nil in Hs.
Qed.

Lemma translate_blob_continue inp slang spv blob spv' done :
  pass_inv spv done →
  translate_blob inp slang spv blob = Some (true, spv') →
  pass_inv spv' (done ++ [blob]).
Proof.
  intros (Hpools & Herr & Hsrcs). unfold translate_blob.
  destruct (vec_at (snippets inp) _) as [snippet|]; simpl; [|done].
  case_match; [done|].
  destruct (translate_switch _ _ _ _) as [src|] eqn:Hsw; simpl; [|done].
  destruct (src_valid src) eqn:Hvalid;
    [|by destruct (vec_at (snippet_lines snippet) 0)].
  destruct (gather_unique_uniform_blocks _ _) as [[] spv1] eqn:Hg1; [|done].
  destruct (gather_unique_images _ _) as [[] spv2] eqn:Hg2; [|done].
  simpl. intros [= <-].
  destruct (dedup_round_ok _ _ _ _ _ Hpools Hg1 Hg2) as (Hpools' & Herr' & Hcore).
  split; [done|]. split; [congruence|].
  eapply sources_match_core; [done|].
  apply Forall2_app; [done|]. constructor; [|constructor].
  split; [done|]. split; [done|].
  by apply (translate_switch_sized _ _ _ _ _ Hsw).
Qed.

Lemma translate_blobs_continue inp slang spv blobs spv' done :
  pass_inv spv done →
  translate_blobs inp slang spv blobs = Some (true, spv') →
  pass_inv spv' (done ++ blobs).
Proof.
  revert spv done. induction blobs as [|blob blobs IH]; intros spv done Hinv;
    simpl.
  - intros [= <-]. by rewrite app_nil_r.
  - destruct (translate_blob inp slang spv blob) as [[[] spv1]|] eqn:Hb;
      [|done..].
    intros Hrest. rewrite (cons_middle blob done blobs), (assoc_L (++)).
    eapply IH; [|done]. by eapply translate_blob_continue.
Qed.

Lemma gather_unique_uniform_blocks_false inp spv spv' :
  gather_unique_uniform_blocks inp spv = (false, spv') →
  length (sources spv') = length (sources spv)
  ∧ ∃ name, error spv' = ub_conflict inp name.
Proof.
  intros (e & Hin & _ & Hok & Herr)%gather_unique_uniform_blocks_spec.
  destruct e as [e|]; [|done].
  pose proof (gather_uniform_blocks_in_frame _ _ _ _ _ _ Hin) as Hf.
  apply Forall2_length in Hf. split; [done|].
  apply gather_uniform_blocks_in_conflict in Hin
    as (? & ? & ? & ? & ? & ? & ub & ? & _ & _ & _ & -> & _).
  by exists (ub_name ub).
Qed.

Lemma gather_unique_images_false inp spv spv' :
  gather_unique_images inp spv = (false, spv') →
  length (sources spv') = length (sources spv)
  ∧ ∃ name, error spv' = img_conflict inp name.
Proof.
  intros (e & Hin & _ & Hok & Herr)%gather_unique_images_spec.
  destruct e as [e|]; [|done].
  pose proof (gather_images_in_frame _ _ _ _ _ _ Hin) as Hf.
  apply Forall2_length in Hf. split; [done|].
  apply gather_images_in_conflict in Hin
    as (? & ? & ? & ? & ? & ? & img & ? & _ & _ & _ & -> & _).
  by exists (img_name img).
Qed.

Lemma gather_unique_uniform_blocks_length inp spv ok spv' :
  gather_unique_uniform_blocks inp spv = (ok, spv') →
  length (sources spv') = length (sources spv).
Proof.
  intros (e & Hin & _)%gather_unique_uniform_blocks_spec.
  pose proof (gather_uniform_blocks_in_frame _ _ _ _ _ _ Hin) as Hf.
  by apply Forall2_length in Hf.
Qed.

Lemma translate_blob_stop inp slang spv blob spv' :
  translate_blob inp slang spv blob = Some (false, spv') →
  err_valid (error spv') = true
  ∧ blob_failure inp slang (error spv')
  ∧ (length (sources spv') ≤ length (sources spv) + 1)%nat.
Proof.
  unfold translate_blob.
  destruct (vec_at (snippets inp) _) as [snippet|]; simpl; [|done].
  case_match; [done|].
  destruct (translate_switch _ _ _ _) as [src|] eqn:Hsw; simpl; [|done].
  destruct (src_valid src) eqn:Hvalid.
  - destruct (gather_unique_uniform_blocks _ _) as [[] spv1] eqn:Hg1.
    + destruct (gather_unique_images _ _) as [[] spv2] eqn:Hg2; [done|].
      simpl. intros [= <-].
      apply gather_unique_uniform_blocks_length in Hg1.
      apply gather_unique_images_false in Hg2 as (Hlen & name & Herr).
      rewrite Herr, Hlen, Hg1. simpl. rewrite length_app. simpl.
      split; [done|]. split; [|lia]. right. right. by exists name.
    + simpl. intros [= <-].
      apply gather_unique_uniform_blocks_false in Hg1 as (Hlen & name & Herr).
      rewrite Herr, Hlen. simpl. rewrite length_app. simpl.
      split; [done|]. split; [|lia]. right. left. by exists name.
  - destruct (vec_at (snippet_lines snippet) 0) as [line|]; simpl; [|done].
    intros [= <-]. simpl. split; [done|]. split; [|lia]. left. by exists line.
Qed.

(** a pass that returns from within the loop does so at the first blob
    whose step fails *)
Lemma translate_blobs_stop inp slang spv blobs r :
  translate_blobs inp slang spv blobs = Some (false, r) →
  ∃ pre blob post spv1,
    blobs = pre ++ blob :: post
    ∧ translate_blobs inp slang spv pre = Some (true, spv1)
    ∧ translate_blob inp slang spv1 blob = Some (false, r).
Proof.
  revert spv. induction blobs as [|blob blobs IH]; intros spv; simpl; [done|].
  destruct (translate_blob inp slang spv blob) as [[[] spv1]|] eqn:Hb; [| |done].
  - intros (pre & b & post & spv2 & -> & Hpre & Hstop)%IH.
    exists (blob :: pre), b, post, spv2. simpl. by rewrite Hb.
  - intros [= <-]. by exists [], blob, blobs, spv.
Qed.

(** and the blobs after that one play no part in the result *)
Lemma translate_blobs_stop_any_tail inp slang spv pre blob spv1 r post :
  translate_blobs inp slang spv pre = Some (true, spv1) →
  translate_blob inp slang spv1 blob = Some (false, r) →
  translate_blobs inp slang spv (pre ++ blob :: post) = Some (false, r).
Proof.
  revert spv. induction pre as [|b pre IH]; intros spv; simpl.
  - intros [= <-] ->. done.
  - destruct (translate_blob inp slang spv b) as [[[] spv2]|]; [|done..].
    apply IH.
Qed.


Lemma translate_blob_total inp slang spv blob snippet :
  vec_at (snippets inp) (blob_snippet_index blob) = Some snippet →
  snippet_type_of snippet = VS ∨ snippet_type_of snippet = FS →
  snippet_lines snippet ≠ [] →
  is_Some (translate_switch slang blob (snippet_options snippet slang)
             (snippet_type_of snippet)) →
  is_Some (translate_blob inp slang spv blob).
Proof.
  intros Hsn Hty Hlines [src Hsw]. unfold translate_blob. rewrite Hsn. simpl.
  assert (bool_decide (snippet_type_of snippet = VS)
          || bool_decide (snippet_type_of snippet = FS) = true) as ->.
  { destruct Hty as [-> | ->]; by rewrite ?bool_decide_true by done. }
  simpl. rewrite Hsw. simpl. destruct (src_valid src).
  - destruct (gather_unique_uniform_blocks _ _) as [[] ?]; simpl; [|by eexists].
    destruct (gather_unique_images _ _) as [[] ?]; simpl; by eexists.
  - destruct (snippet_lines snippet) as [|line ?]; [done|]. by eexists.
Qed.

Lemma translate_blobs_total inp slang spv blobs :
  (∀ blob spv, blob ∈ blobs → is_Some (translate_blob inp slang spv blob)) →
  is_Some (translate_blobs inp slang spv blobs).
Proof.
  revert spv. induction blobs as [|blob blobs IH]; intros spv Hall;
    simpl; [by eexists|].
  destruct (Hall blob spv) as [[[] spv1] ->]; [by left| |by eexists].
  apply IH. intros b s Hb. apply Hall. by right.
Qed.

Lemma find_source_from_spec srcs snippet_index i :
  find_source_from srcs snippet_index i =
  match list_find (λ s, src_snippet_index s = snippet_index) srcs with
  | Some (k, _) => i + Z.of_nat k
  | None => -1
  end.
Proof.
  revert i. induction srcs as [|s srcs IH]; intros i; simpl; [done|].
  case_bool_decide.
  - rewrite decide_True by done. simpl. lia.
  - rewrite decide_False by done. rewrite IH.
    destruct (list_find _ srcs) as [[k s']|]; simpl; lia.
Qed.

Lemma find_source_found spv snippet_index :
  snippet_index ∈ map src_snippet_index (sources spv) →
  ∃ src, 0 ≤ find_source_by_snippet_index spv snippet_index
         ∧ vec_at (sources spv)
             (find_source_by_snippet_index spv snippet_index) = Some src
         ∧ src_snippet_index src = snippet_index
         ∧ src ∈ sources spv.
Proof.
  intros Hin. unfold find_source_by_snippet_index.
  rewrite find_source_from_spec.
  destruct (list_find _ (sources spv)) as [[k s]|] eqn:Hfind.
  - apply list_find_Some in Hfind as (Hk & Hs & _).
    exists s. split; [lia|]. unfold vec_at.
    rewrite bool_decide_true by lia.
    replace (Z.to_nat (0 + Z.of_nat k)) with k by lia.
    split; [done|]. split; [done|]. by eapply list_elem_of_lookup_2.
  - by apply list_find_name_None in Hfind.
Qed.

Lemma linked_sources_total inp spv prog vs_snippet_index fs_snippet_index :
  vs_map inp !! prog_vs_name prog = Some vs_snippet_index →
  fs_map inp !! prog_fs_name prog = Some fs_snippet_index →
  vs_snippet_index ∈ map src_snippet_index (sources spv) →
  fs_snippet_index ∈ map src_snippet_index (sources spv) →
  ∃ vs_src fs_src,
    linked_sources inp spv prog = Some (vs_src, fs_src)
    ∧ vs_src ∈ sources spv ∧ fs_src ∈ sources spv.
Proof.
  intros Hvs Hfs Hv Hf. unfold linked_sources. rewrite Hvs, Hfs. simpl.
  destruct (find_source_found _ _ Hv) as (vs & Hv0 & Hvat & Hvi & Hvin).
  destruct (find_source_found _ _ Hf) as (fs & Hf0 & Hfat & Hfi & Hfin).
  rewrite !bool_decide_true by done. simpl. rewrite Hvat, Hfat. simpl.
  rewrite !bool_decide_true by done. simpl. by exists vs, fs.
Qed.

Lemma link_programs_total inp spv progs :
  Forall attrs_sized (sources spv) →
  (∀ prog_item, prog_item ∈ progs →
     ∃ vs_snippet_index fs_snippet_index,
       vs_map inp !! prog_vs_name prog_item.2 = Some vs_snippet_index
       ∧ fs_map inp !! prog_fs_name prog_item.2 = Some fs_snippet_index
       ∧ vs_snippet_index ∈ map src_snippet_index (sources spv)
       ∧ fs_snippet_index ∈ map src_snippet_index (sources spv)) →
  link_programs inp spv progs = Some errmsg_default
  ∨ ∃ prog_item m vs_out fs_inp,
      prog_item ∈ progs
      ∧ link_programs inp spv progs
        = Some (mismatch_error inp prog_item.2 m vs_out fs_inp).
Proof.
  intros Hsized. rewrite Forall_forall in Hsized.
  induction progs as [|p progs IH]; intros Hall; [by left|].
  destruct (Hall p) as (vi & fi & Hvs & Hfs & Hv & Hf); [by left|].
  destruct (linked_sources_total _ _ _ _ _ Hvs Hfs Hv Hf)
    as (vs & fs & Hsrc & Hvin & Hfin).
  destruct (Hsized _ Hvin) as [_ Hlo]. destruct (Hsized _ Hfin) as [Hli _].
  simpl. unfold link_program. rewrite Hsrc.
  destruct (link_slots_total inp p.2 vs fs attr_NUM 0)
    as [[-> _]|(m & a & b & _ & _ & _ & _ & _ & ->)]; [lia..| |].
  - simpl. destruct IH as [IH|(q & m & a & b & Hq & IH)].
    + intros q Hq. apply Hall. by right.
    + by left.
    + right. exists q, m, a, b. split; [by right|done].
  - simpl. right. exists p, m, a, b. split; [by left|done].
Qed.



(** *** Deduplication inside the pass *)

Lemma translate_blob_conflict inp slang spv blob snippet src :
  vec_at (snippets inp) (blob_snippet_index blob) = Some snippet →
  snippet_type_of snippet = VS ∨ snippet_type_of snippet = FS →
  translate_switch slang blob (snippet_options snippet slang)
    (snippet_type_of snippet) = Some src →
  src_valid src = true →
  let pushed :=
    push_source spv (set_snippet_index src (blob_snippet_index blob)) in
  (∀ spv', gather_unique_uniform_blocks inp pushed = (false, spv') →
           translate_blob inp slang spv blob = Some (false, spv'))
  ∧ (∀ spv1 spv',
       gather_unique_uniform_blocks inp pushed = (true, spv1) →
       gather_unique_images inp spv1 = (false, spv') →
       translate_blob inp slang spv blob = Some (false, spv')).
Proof.
  intros Hsn Hty Hsw Hvalid pushed. unfold translate_blob. rewrite Hsn. simpl.
  assert (bool_decide (snippet_type_of snippet = VS)
          || bool_decide (snippet_type_of snippet = FS) = true) as ->.
  { destruct Hty as [-> | ->]; by rewrite ?bool_decide_true by done. }
  simpl. rewrite Hsw. simpl. rewrite Hvalid. fold pushed. split.
  - by intros spv' ->.
  - intros spv1 spv' -> ->. done.
Qed.

Lemma translate_returns_at_failure inp spirv slang pre blob post spv r :
  blobs spirv = pre ++ blob :: post →
  translate_blobs inp slang spirvcross_empty pre = Some (true, spv) →
  translate_blob inp slang spv blob = Some (false, r) →
  translate inp spirv slang = Some r.
Proof.
  intros Hsplit Hpre Hstop. unfold translate. rewrite Hsplit.
  by rewrite (translate_blobs_stop_any_tail _ _ _ _ _ _ _ post Hpre Hstop).
Qed.

Lemma translate_pools inp spirv slang r :
  translate inp spirv slang = Some r →
  err_valid (error r) = false →
  pools_in_first_seen_order r.
Proof.
  unfold translate.
  destruct (translate_blobs _ _ _ _) as [[[] spv]|] eqn:Hloop; [| |done].
  - destruct (translate_blobs_continue _ _ _ _ _ [] pass_inv_empty Hloop)
      as (Hpools & Herr & _).
    destruct (validate_linking inp spv) as [err|]; simpl; [|done].
    destruct (err_valid err) eqn:Hv; intros [= <-]; [|done].
    simpl. congruence.
  - intros [= <-] Herr.
    destruct (translate_blobs_stop _ _ _ _ _ Hloop)
      as (pre & blob & post & spv1 & _ & _ & Hstop).
    apply translate_blob_stop in Hstop as (Hvalid & _). congruence.
Qed.



(** ** Further properties of the code *)

(** *** The three searches *)

Lemma find_img_from_first pool name :
  find_unique_image_by_name pool name = -1 ∧ name ∉ map img_name pool
  ∨ ∃ (k : nat) e,
      find_unique_image_by_name pool name = Z.of_nat k
      ∧ pool !! k = Some e ∧ img_name e = name
      ∧ ∀ (j : nat) e', pool !! j = Some e' → (j < k)%nat → img_name e' ≠ name.
Proof.
  unfold find_unique_image_by_name. rewrite find_img_from_spec.
  destruct (list_find _ pool) as [[k e]|] eqn:Hfind.
  - right. apply list_find_Some in Hfind as (Hk & Hn & Hfirst).
    exists k, e. split; [lia|]. by repeat split.
  - left. split; [done|]. by apply list_find_name_None in Hfind.
Qed.

Lemma find_ub_from_first pool name :
  find_unique_uniform_block_by_name pool name = -1
  ∧ name ∉ map ub_name pool
  ∨ ∃ (k : nat) e,
      find_unique_uniform_block_by_name pool name = Z.of_nat k
      ∧ pool !! k = Some e ∧ ub_name e = name
      ∧ ∀ (j : nat) e', pool !! j = Some e' → (j < k)%nat → ub_name e' ≠ name.
Proof.
  unfold find_unique_uniform_block_by_name. rewrite find_ub_from_spec.
  destruct (list_find _ pool) as [[k e]|] eqn:Hfind.
  - right. apply list_find_Some in Hfind as (Hk & Hn & Hfirst).
    exists k, e. split; [lia|]. by repeat split.
  - left. split; [done|]. by apply list_find_name_None in Hfind.
Qed.

(** X1: each of the three searches returns -1 exactly when no element has
    the key looked for, and otherwise the index of the first element that
    has it. *)
Theorem searches_return_first_index_or_minus_one :
  (∀ spv snippet_index,
     find_source_by_snippet_index spv snippet_index = -1
     ∧ snippet_index ∉ map src_snippet_index (sources spv)
     ∨ ∃ (k : nat) src,
         find_source_by_snippet_index spv snippet_index = Z.of_nat k
         ∧ sources spv !! k = Some src
         ∧ src_snippet_index src = snippet_index
         ∧ ∀ (j : nat) src', sources spv !! j = Some src' → (j < k)%nat →
             src_snippet_index src' ≠ snippet_index)
  ∧ (∀ pool name,
       find_unique_uniform_block_by_name pool name = -1
       ∧ name ∉ map ub_name pool
       ∨ ∃ (k : nat) e,
           find_unique_uniform_block_by_name pool name = Z.of_nat k
           ∧ pool !! k = Some e ∧ ub_name e = name
           ∧ ∀ (j : nat) e', pool !! j = Some e' → (j < k)%nat →
               ub_name e' ≠ name)
  ∧ (∀ pool name,
       find_unique_image_by_name pool name = -1 ∧ name ∉ map img_name pool
       ∨ ∃ (k : nat) e,
           find_unique_image_by_name pool name = Z.of_nat k
           ∧ pool !! k = Some e ∧ img_name e = name
           ∧ ∀ (j : nat) e', pool !! j = Some e' → (j < k)%nat →
               img_name e' ≠ name).
Proof.
  split; [|split; [apply find_ub_from_first|apply find_img_from_first]].
  intros spv idx. unfold find_source_by_snippet_index.
  rewrite find_source_from_spec.
  destruct (list_find _ (sources spv)) as [[k s]|] eqn:Hfind.
  - right. apply list_find_Some in Hfind as (Hk & Hn & Hfirst).
    exists k, s. split; [lia|]. by repeat split.
  - left. split; [done|]. by apply list_find_name_None in Hfind.
Qed.

(** *** What the slot assigner leaves alone *)

Lemma set_decoration_frame c id d v :
  only_decorations_differ c (set_decoration c id d v).
Proof. by repeat split. Qed.

Lemma only_decorations_differ_trans c1 c2 c3 :
  only_decorations_differ c1 c2 → only_decorations_differ c2 c3 →
  only_decorations_differ c1 c3.
Proof.
  intros (?&?&?&?&?&?&?) (?&?&?&?&?&?&?). repeat split; congruence.
Qed.

Lemma bind_uniform_buffers_frame c ubs s :
  only_decorations_differ c (bind_uniform_buffers c ubs s).
Proof.
  revert c s. induction ubs as [|u ubs IH]; intros c s; simpl;
    [by repeat split|].
  eapply only_decorations_differ_trans; [|apply IH].
  eapply only_decorations_differ_trans; apply set_decoration_frame.
Qed.

Lemma bind_sampled_images_frame c imgs set s :
  only_decorations_differ c (bind_sampled_images c imgs set s).
Proof.
  revert c s. induction imgs as [|u imgs IH]; intros c s; simpl;
    [by repeat split|].
  eapply only_decorations_differ_trans; [|apply IH].
  eapply only_decorations_differ_trans; apply set_decoration_frame.
Qed.

Lemma bind_uniform_buffers_untouched c ubs s id d :
  (d ≠ DecorationDescriptorSet ∧ d ≠ DecorationBinding)
  ∨ id ∉ map res_id ubs →
  decorations (bind_uniform_buffers c ubs s) !! (id, d)
  = decorations c !! (id, d).
Proof.
  revert c s. induction ubs as [|u ubs IH]; intros c s Hk; simpl; [done|].
  rewrite IH.
  - simpl. rewrite !lookup_insert_ne; [done|..];
      intros [= <- <-]; destruct Hk as [[??]|Hk]; try done;
      apply Hk; by left.
  - destruct Hk as [?|Hk]; [by left|right]. intros Hin. apply Hk. by right.
Qed.

Lemma bind_sampled_images_untouched c imgs set s id d :
  (d ≠ DecorationDescriptorSet ∧ d ≠ DecorationBinding)
  ∨ id ∉ map res_id imgs →
  decorations (bind_sampled_images c imgs set s) !! (id, d)
  = decorations c !! (id, d).
Proof.
  revert c s. induction imgs as [|u imgs IH]; intros c s Hk; simpl; [done|].
  rewrite IH.
  - simpl. rewrite !lookup_insert_ne; [done|..];
      intros [= <- <-]; destruct Hk as [[??]|Hk]; try done;
      apply Hk; by left.
  - destruct Hk as [?|Hk]; [by left|right]. intros Hin. apply Hk. by right.
Qed.

(** X2: the slot assigner changes nothing but the descriptor-set and
    binding decorations of the uniform blocks and sampled images: every
    other decoration (locations among them), every decoration of any other
    id, the resources, the types and the member decorations are as
    before. *)
Theorem fix_bind_slots_changes_bindings_only (c : Compiler)
    (type : snippet_type) (is_vulkan : bool) :
  only_decorations_differ c (fix_bind_slots c type is_vulkan)
  ∧ ∀ id d,
      (d ≠ DecorationDescriptorSet ∧ d ≠ DecorationBinding)
      ∨ id ∉ map res_id (uniform_buffers (get_shader_resources c)
                         ++ sampled_images (get_shader_resources c)) →
      decorations (fix_bind_slots c type is_vulkan) !! (id, d)
      = decorations c !! (id, d).
Proof.
  unfold fix_bind_slots. split.
  - eapply only_decorations_differ_trans;
      [apply bind_uniform_buffers_frame|apply bind_sampled_images_frame].
  - intros id d Hk.
    rewrite bind_sampled_images_untouched, bind_uniform_buffers_untouched;
      [done|..]; (destruct Hk as [?|Hk]; [by left|right]);
      intros Hin; apply Hk; rewrite map_app, elem_of_app; auto.
Qed.


(** *** What the layout fixups do and leave alone *)

Lemma set_member_decoration_frame c id i d :
  only_member_decorations_differ c (set_member_decoration c id i d).
Proof. by repeat split. Qed.

Lemma only_member_decorations_differ_trans c1 c2 c3 :
  only_member_decorations_differ c1 c2 → only_member_decorations_differ c2 c3 →
  only_member_decorations_differ c1 c3.
Proof.
  intros (?&?&?&?&?&?&?) (?&?&?&?&?&?&?). repeat split; congruence.
Qed.

Lemma colmajor_members_rest c id ms i :
  only_member_decorations_differ c (colmajor_members c id ms i).
Proof.
  revert c i. induction ms as [|m ms IH]; intros c i; simpl;
    [by repeat split|].
  eapply only_member_decorations_differ_trans; [|apply IH].
  case_match; [apply set_member_decoration_frame|by repeat split].
Qed.

Lemma colmajor_blocks_rest c ubs :
  only_member_decorations_differ c (colmajor_blocks c ubs).
Proof.
  revert c. induction ubs as [|u ubs IH]; intros c; simpl; [by repeat split|].
  eapply only_member_decorations_differ_trans; [|apply IH].
  apply colmajor_members_rest.
Qed.

(** a member decoration that the member loop adds sits at a float matrix *)
Lemma colmajor_members_added c id ms i key :
  is_Some (member_decorations (colmajor_members c id ms i) !! key) →
  is_Some (member_decorations c !! key)
  ∨ ∃ (j : nat) m,
      key = (id, (i + j)%nat, DecorationColMajor) ∧ ms !! j = Some m
      ∧ is_float_matrix (get_type c m).
Proof.
  revert c i. induction ms as [|m ms IH]; intros c i Hkey; simpl in Hkey;
    [by left|].
  apply IH in Hkey as [Hkey|(j & m' & -> & Hj & Hm)].
  - destruct (bool_decide (basetype (get_type c m) = Float)
              && bool_decide (1 < vecsize (get_type c m))
              && bool_decide (1 < columns (get_type c m))) eqn:Hcond;
      [|by left].
    simpl in Hkey.
    destruct (decide ((id, i, DecorationColMajor) = key)) as [<-|Hne];
      [|rewrite lookup_insert_ne in Hkey by done; by left].
    right. exists 0%nat, m.
    apply andb_prop in Hcond as [[Hb Hv]%andb_prop Hc].
    apply bool_decide_eq_true in Hb, Hv, Hc.
    split; [by rewrite Nat.add_0_r|]. by repeat split.
  - right. exists (S j), m'. split; [f_equal; f_equal; lia|]. split; [done|].
    by case_match.
Qed.

Lemma colmajor_blocks_added c ubs key :
  is_Some (member_decorations (colmajor_blocks c ubs) !! key) →
  is_Some (member_decorations c !! key)
  ∨ ∃ ub_res (m_index : nat) member,
      ub_res ∈ ubs
      ∧ key = (res_base_type_id ub_res, m_index, DecorationColMajor)
      ∧ member_types (get_type c (res_base_type_id ub_res)) !! m_index
        = Some member
      ∧ is_float_matrix (get_type c member).
Proof.
  revert c. induction ubs as [|u ubs IH]; intros c Hkey; simpl in Hkey;
    [by left|].
  destruct (colmajor_members_rest c (res_base_type_id u)
              (member_types (get_type c (res_base_type_id u))) 0)
    as (_ & Hty & _).
  apply IH in Hkey as [Hkey|(ub & i & m & Hin & -> & Hi & Hm)].
  - apply colmajor_members_added in Hkey as [Hkey|(j & m & -> & Hj & Hm)];
      [by left|].
    right. exists u, j, m. split; [by left|]. split; [reflexivity|]. by split.
  - right. exists ub, i, m. split; [by right|]. split; [done|].
    unfold get_type in *. by rewrite Hty in Hi, Hm.
Qed.

(** X3: the column-major fixup adds member decorations and nothing else:
    afterwards a member decoration is present exactly if it was present
    before or it is the column-major decoration of a float-matrix member
    (base type float, vector size and column count above 1) of a uniform
    block; decorations, resources and types are unchanged. *)
Theorem colmajor_marks_exactly_the_float_matrices (c : Compiler) :
  only_member_decorations_differ c (fix_ub_matrix_force_colmajor c)
  ∧ ∀ key,
      is_Some (member_decorations (fix_ub_matrix_force_colmajor c) !! key) ↔
      is_Some (member_decorations c !! key)
      ∨ ∃ ub_res (m_index : nat) member,
          ub_res ∈ uniform_buffers (get_shader_resources c)
          ∧ key = (res_base_type_id ub_res, m_index, DecorationColMajor)
          ∧ member_types (get_type c (res_base_type_id ub_res)) !! m_index
            = Some member
          ∧ is_float_matrix (get_type c member).
Proof.
  unfold fix_ub_matrix_force_colmajor. split; [apply colmajor_blocks_rest|].
  intros key. split; [apply colmajor_blocks_added|].
  intros [Hkey|(ub & i & m & Hin & -> & Hi & Hm)].
  - by apply colmajor_blocks_frame.
  - apply has_member_decoration_true. by eapply colmajor_blocks_sets.
Qed.

Lemma fix_bind_slots_frame c type is_vulkan :
  only_decorations_differ c (fix_bind_slots c type is_vulkan).
Proof.
  unfold fix_bind_slots.
  eapply only_decorations_differ_trans;
    [apply bind_uniform_buffers_frame|apply bind_sampled_images_frame].
Qed.

Lemma flatten_uniform_blocks_appends c :
  flattened_blocks (flatten_uniform_blocks c)
  = flattened_blocks c
    ++ map res_id (uniform_buffers (get_shader_resources c)).
Proof.
  unfold flatten_uniform_blocks, get_shader_resources.
  generalize (uniform_buffers (shader_resources c)). intros l.
  revert c. induction l as [|u l IH]; intros c; simpl;
    [by rewrite app_nil_r|].
  rewrite IH. simpl. by rewrite <-app_assoc.
Qed.

(** X4: uniform blocks are flattened only for the three GLSL targets
    without Vulkan semantics, each block once and in declaration order;
    for HLSL, Metal and WebGPU no block is flattened. *)
Theorem blocks_flattened_for_flat_glsl_only (slang : slang_t)
    (blob : spirv_blob_t) (type : snippet_type) :
  flattened_blocks (prepared slang blob type)
  = flattened_blocks (bytecode blob)
    ++ (if is_flat_glsl slang
        then map res_id (uniform_buffers (get_shader_resources (bytecode blob)))
        else []).
Proof.
  assert (∀ v, only_decorations_differ (bytecode blob)
                 (fix_bind_slots (bytecode blob) type v)) as Hs
    by (intros; apply fix_bind_slots_frame).
  assert (∀ v, only_member_decorations_differ
                 (fix_bind_slots (bytecode blob) type v)
                 (fix_ub_matrix_force_colmajor
                    (fix_bind_slots (bytecode blob) type v))) as Hc
    by (intros; apply colmajor_blocks_rest).
  destruct (Hs false) as (Hr1 & _ & _ & _ & Hf1 & _).
  destruct (Hs true) as (Hr2 & _ & _ & _ & Hf2 & _).
  destruct (Hc false) as (Hr3 & _ & _ & _ & Hf3 & _).
  destruct (Hc true) as (Hr4 & _ & _ & _ & Hf4 & _).
  destruct slang; simpl;
    unfold to_glsl_prepare, to_hlsl5_prepare, to_msl_prepare; simpl;
    rewrite ?flatten_uniform_blocks_appends, ?app_nil_r;
    unfold get_shader_resources; congruence.
Qed.


(** *** Reflected type tags *)

Lemma mat4_is_float_matrix t :
  spirtype_to_uniform_type t = MAT4 → is_float_matrix t.
Proof.
  unfold spirtype_to_uniform_type, is_float_matrix.
  repeat case_bool_decide; simpl; try done. intros _. split; [done|lia].
Qed.

(** X5: a block member that is reflected as [MAT4] is a float matrix, so
    on every target outside the Metal family it reaches the translator
    decorated column-major; a float matrix of another shape than 4x4 is
    decorated as well but reflected as invalid. *)
Theorem mat4_members_reach_the_translator_colmajor (slang : slang_t)
    (blob : spirv_blob_t) (type : snippet_type) :
  (∀ ub_res (m_index : nat) member,
     is_metal slang = false →
     ub_res ∈ uniform_buffers (get_shader_resources (bytecode blob)) →
     member_types (get_type (bytecode blob) (res_base_type_id ub_res))
       !! m_index = Some member →
     spirtype_to_uniform_type (get_type (bytecode blob) member) = MAT4 →
     has_member_decoration (prepared slang blob type)
       (res_base_type_id ub_res) m_index DecorationColMajor = true)
  ∧ (∀ t, is_float_matrix t → vecsize t ≠ 4 ∨ columns t ≠ 4 →
          spirtype_to_uniform_type t = UNIFORM_INVALID).
Proof.
  split.
  - intros ub_res m_index member Hm Hin Hmem Hmat.
    eapply (prepared_colmajor slang blob type Hm); [done..|].
    by apply mat4_is_float_matrix.
  - intros t (Hb & Hv & Hc) Hshape. unfold spirtype_to_uniform_type.
    rewrite bool_decide_true by done.
    rewrite (bool_decide_false (columns t = 1)) by lia.
    destruct Hshape; [rewrite (bool_decide_false (vecsize t = 4)) by done|
                      rewrite (bool_decide_false (columns t = 4)) by done];
      by rewrite ?andb_false_r.
Qed.

(** X6: the type tags of the reflection are valid exactly for the
    supported shapes. A uniform is valid exactly if it is a float scalar
    or vector of 1 to 4 components or a 4x4 float matrix; an image is
    valid exactly if it is a 2D array, or a 2D, cube or 3D image that is
    not arrayed; the base type of an image is never left unset: every
    component type outside the signed and unsigned integer families
    counts as float. *)
Theorem reflected_type_tags (t : SPIRType) :
  (spirtype_to_uniform_type t ≠ UNIFORM_INVALID ↔
   basetype t = Float
   ∧ (columns t = 1 ∧ 1 ≤ vecsize t ≤ 4 ∨ columns t = 4 ∧ vecsize t = 4))
  ∧ (spirtype_to_image_type t ≠ IMAGE_TYPE_INVALID ↔
     image_arrayed (image t) = true ∧ image_dim (image t) = Dim2D
     ∨ image_arrayed (image t) = false
       ∧ (image_dim (image t) = Dim2D ∨ image_dim (image t) = DimCube
          ∨ image_dim (image t) = Dim3D))
  ∧ spirtype_to_image_basetype t ≠ IMAGE_BASETYPE_NONE
  ∧ (spirtype_to_image_basetype t = IMAGE_BASETYPE_FLOAT ↔
     basetype t ∉ [Int; Short; SByte; UInt; UShort; UByte]).
Proof.
  split; [|split; [|split]].
  - unfold spirtype_to_uniform_type.
    repeat case_bool_decide; simpl; split; try done; try lia;
      intros; try (split; [done|lia]); try (exfalso; lia); intuition lia.
  - unfold spirtype_to_image_type.
    destruct (image_arrayed (image t)), (image_dim (image t));
      try case_bool_decide; split; try done; intros; try (by auto);
      intuition congruence.
  - unfold spirtype_to_image_basetype. by destruct (basetype t).
  - unfold spirtype_to_image_basetype.
    destruct (basetype t); split; try done;
      try (intros _; rewrite !elem_of_cons, elem_of_nil; intuition congruence);
      intros Hn; exfalso; apply Hn; rewrite !elem_of_cons; auto 10.
Qed.


(** *** The attribute arrays of the reflection *)

Lemma reflect_attrs_entries c attrs slots' (s : nat) a :
  reflect_attrs c attrs (replicate attr_NUM attr_default) = Some slots' →
  slots' !! s = Some a →
  a = attr_default
  ∨ ∃ res, res ∈ attrs ∧ a = reflect_attr c res ∧ attr_slot a = Z.of_nat s.
Proof.
  intros Hr Hs. rewrite (reflect_attrs_lookup _ _ _ _ _ Hr) in Hs.
  destruct (last (filter _ attrs)) as [res|] eqn:Hl.
  - right. apply last_Some_elem_of in Hl.
    apply list_elem_of_filter in Hl as [Hsl Hin]. simplify_eq. eauto.
  - left. by apply lookup_replicate in Hs as [-> _].
Qed.

Lemma place_attrs_keeps_tail (slots : list attr_t) d attrs :
  Forall (λ a, (Z.to_nat (attr_slot a) < length slots)%nat) attrs →
  foldl (λ slots a, <[Z.to_nat (attr_slot a) := a]> slots) (slots ++ [d]) attrs
  = foldl (λ slots a, <[Z.to_nat (attr_slot a) := a]> slots) slots attrs ++ [d].
Proof.
  revert slots. induction attrs as [|a attrs IH]; intros slots Hall; simpl;
    [done|].
  apply Forall_cons in Hall as [Ha Hall].
  rewrite insert_app_l by done. apply IH. by rewrite length_insert.
Qed.

(** an array whose used entries sit at the index of their slot is rebuilt
    from its used entries *)
Lemma place_attrs_used (arr : list attr_t) :
  (∀ (s : nat) a, arr !! s = Some a →
     a = attr_default ∨ attr_slot a = Z.of_nat s) →
  place_attrs (length arr) (used_attrs arr) = arr.
Proof.
  unfold place_attrs, used_attrs.
  induction arr as [|x arr IH] using rev_ind; intros Hinv; [done|].
  rewrite length_app, filter_app, foldl_app. simpl.
  rewrite replicate_add. simpl.
  rewrite place_attrs_keeps_tail.
  - rewrite IH.
    + destruct (Hinv (length arr) x) as [->|Hx].
      { rewrite lookup_app_r by done. by rewrite Nat.sub_diag. }
      * by rewrite filter_cons_False by (cbn; lia).
      * rewrite filter_cons_True by lia. simpl. rewrite Hx, Nat2Z.id.
        replace (length arr) with (length arr + 0)%nat at 1 by lia.
        by rewrite insert_app_r.
    + intros s a Hs. apply (Hinv s a). by apply lookup_app_l_Some.
  - rewrite length_replicate. apply Forall_forall. intros a Ha.
    apply list_elem_of_filter in Ha as [Hpos Hin].
    apply list_elem_of_lookup in Hin as [s Hs].
    pose proof (lookup_lt_Some _ _ _ Hs) as Hlt.
    destruct (Hinv s a) as [->|Hsl]; [by apply lookup_app_l_Some|done|].
    rewrite Hsl, Nat2Z.id. done.
Qed.

(** X7: after a successful reflection both attribute arrays have the
    fixed capacity and are indexed by slot: an entry is either unused or
    carries its own index as slot and as semantic index, the semantic name
    TEXCOORD and the name of one of the stage's resources; hence the
    whole array is determined by the used attributes, which are the ones
    the binary format carries: placing each of them at the index of its
    slot in an array of unused entries rebuilds the array. *)
Theorem attribute_arrays_indexed_by_slot (c : Compiler) (is_vulkan : bool)
    (r : spirvcross_refl_t) :
  parse_reflection c is_vulkan = Some r →
  let indexed (attrs : list Resource) (arr : list attr_t) :=
    length arr = attr_NUM
    ∧ (∀ (s : nat) a, arr !! s = Some a →
         a = attr_default
         ∨ attr_slot a = Z.of_nat s ∧ attr_sem_name a = "TEXCOORD"
           ∧ attr_sem_index a = Z.of_nat s
           ∧ ∃ res, res ∈ attrs ∧ attr_name a = res_name res)
    ∧ place_attrs attr_NUM (used_attrs arr) = arr in
  indexed (stage_inputs (get_shader_resources c)) (inputs r)
  ∧ indexed (stage_outputs (get_shader_resources c)) (outputs r).
Proof.
  intros Hr.
  destruct (parse_reflection_lengths _ _ _ Hr) as [Hli Hlo].
  destruct (parse_reflection_attrs _ _ _ Hr) as [Hi Ho].
  assert (∀ attrs arr,
    reflect_attrs c attrs (replicate attr_NUM attr_default) = Some arr →
    length arr = attr_NUM →
    length arr = attr_NUM
    ∧ (∀ (s : nat) a, arr !! s = Some a →
         a = attr_default
         ∨ attr_slot a = Z.of_nat s ∧ attr_sem_name a = "TEXCOORD"
           ∧ attr_sem_index a = Z.of_nat s
           ∧ ∃ res, res ∈ attrs ∧ attr_name a = res_name res)
    ∧ place_attrs attr_NUM (used_attrs arr) = arr) as Hgen.
  { intros attrs arr Ha Hlen. split; [done|]. split.
    - intros s a Hs.
      destruct (reflect_attrs_entries _ _ _ _ _ Ha Hs)
        as [->|(res & Hin & -> & Hsl)]; [by left|right].
      split; [done|]. split; [done|]. split; [exact Hsl|]. by exists res.
    - rewrite <-Hlen at 1. apply place_attrs_used. intros s a Hs.
      destruct (reflect_attrs_entries _ _ _ _ _ Ha Hs)
        as [->|(res & _ & _ & Hsl)]; [by left|by right]. }
  split; by apply Hgen.
Qed.

(** *** Reflected slots through a back end *)

Lemma prepared_resources slang blob type :
  shader_resources (prepared slang blob type)
  = shader_resources (bytecode blob).
Proof.
  assert (∀ v, shader_resources (fix_ub_matrix_force_colmajor
                 (fix_bind_slots (bytecode blob) type v))
               = shader_resources (bytecode blob)) as Hc.
  { intros v.
    destruct (fix_ub_matrix_force_colmajor_frame
      (fix_bind_slots (bytecode blob) type v)) as (-> & _).
    by destruct (fix_bind_slots_resources (bytecode blob) type v) as (-> & _). }
  destruct slang; simpl;
    unfold to_glsl_prepare, to_hlsl5_prepare, to_msl_prepare; simpl;
    rewrite ?Hc; try done;
    first [by destruct (fix_bind_slots_resources (bytecode blob) type false)
             as (-> & _)
          | destruct (flatten_uniform_blocks_frame
              (fix_ub_matrix_force_colmajor
                 (fix_bind_slots (bytecode blob) type false))) as (-> & _);
            by rewrite Hc].
Qed.

(** X8: when the translator's code emission keeps the resource lists and
    the binding decorations, a successful translation reflects the
    uniform blocks and images of the module in declaration order under
    their names, none of them with a pool index yet; the k-th image has
    slot k, and the k-th uniform block has slot k, except in a vertex
    shader for the Vulkan-style target, where the blocks from the fifth on
    are reflected 4 lower, at the slots of the first ones. *)
Theorem reflected_slots_follow_declaration_order (slang : slang_t)
    (blob : spirv_blob_t) (opt_mask : Z) (type : snippet_type)
    (res : spirvcross_source_t) :
  compile_keeps_bindings →
  resources_wf (get_shader_resources (bytecode blob)) →
  translate_switch slang blob opt_mask type = Some res →
  src_valid res = true →
  let declared := get_shader_resources (bytecode blob) in
  map ub_name (uniform_blocks (refl res))
  = map res_name (uniform_buffers declared)
  ∧ map img_name (images (refl res)) = map res_name (sampled_images declared)
  ∧ (∀ (k : nat) ub, uniform_blocks (refl res) !! k = Some ub →
       ub_unique_index ub = -1
       ∧ ub_slot ub
         = if is_vulkan_target slang && bool_decide (type = VS)
              && bool_decide (4 ≤ Z.of_nat k)
           then Z.of_nat k - 4 else Z.of_nat k)
  ∧ (∀ (k : nat) img, images (refl res) !! k = Some img →
       img_unique_index img = -1 ∧ img_slot img = Z.of_nat k).
Proof.
  intros Hkeep Hwf Hres Hvalid declared.
  rewrite translate_switch_unfold in Hres.
  pose proof (Hkeep (target_options slang opt_mask)
                (prepared slang blob type)) as [Hsr Hbind].
  fold (translated slang blob opt_mask type) in Hsr, Hbind.
  rewrite prepared_resources in Hsr.
  destruct (prepared_slots slang blob type Hwf) as [Hubs Himgs].
  destruct Hwf as (_ & Hnub & Hnimg).
  case_bool_decide as Hem; simpl in Hres; [by simplify_eq|].
  destruct (parse_reflection _ _) as [r|] eqn:Hr; simpl in Hres; [|done].
  apply parse_reflection_fields in Hr as (_ & _ & Hub & Himg).
  unfold get_shader_resources in *. rewrite Hsr in Hub, Himg.
  assert (uniform_blocks (refl res) = uniform_blocks r
          ∧ images (refl res) = images r) as [-> ->].
  { simplify_eq. simpl. by destruct (is_metal slang). }
  rewrite Hub, Himg. clear Hres Hub Himg.
  split; [|split; [|split]].
  - rewrite <-list_fmap_compose. by apply list_fmap_ext.
  - rewrite <-list_fmap_compose. by apply list_fmap_ext.
  - intros k ub Hk. rewrite list_lookup_fmap in Hk.
    destruct (uniform_buffers (shader_resources (bytecode blob)) !! k)
      as [ub_res|] eqn:Hub; [|done].
    simpl in Hk. simplify_eq. split; [done|].
    pose proof (lookup_lt_Some _ _ _ Hub) as Hlt.
    destruct (Hubs k ub_res Hub) as [_ Hb].
    unfold reflect_uniform_block. simpl. rewrite Hbind, Hb.
    unfold ub_start, vk_fs_ub_binding_offset.
    destruct (is_vulkan_target slang), (bool_decide (type = VS)); simpl;
      rewrite to_int_small by lia; repeat case_bool_decide; lia.
  - intros k img Hk. rewrite list_lookup_fmap in Hk.
    destruct (sampled_images (shader_resources (bytecode blob)) !! k)
      as [img_res|] eqn:Hi; [|done].
    simpl in Hk. simplify_eq. split; [done|].
    pose proof (lookup_lt_Some _ _ _ Hi) as Hlt.
    destruct (Himgs k img_res Hi) as [_ Hb].
    unfold reflect_image. simpl. rewrite Hbind, Hb.
    rewrite to_int_small; lia.
Qed.


(** *** What the deduplicator leaves alone *)

Lemma gather_uniform_block_core inp pool ub pool' ub' err :
  gather_uniform_block inp pool ub = (pool', ub', err) →
  ub_core ub' = ub_core ub ∧ (pool' = pool ∨ pool' = pool ++ [ub']).
Proof.
  rewrite gather_uniform_block_spec.
  destruct (list_find _ _) as [[k e]|]; [destruct (ub_equals ub e)|];
    intros [= <- <- <-]; auto.
Qed.

Lemma gather_image_core inp pool img pool' img' err :
  gather_image inp pool img = (pool', img', err) →
  img_core img' = img_core img ∧ (pool' = pool ∨ pool' = pool ++ [img']).
Proof.
  rewrite gather_image_spec.
  destruct (list_find _ _) as [[k e]|]; [destruct (img_equals img e)|];
    intros [= <- <- <-]; auto.
Qed.

Lemma gather_uniform_blocks_of_core inp pool ubs pool' ubs' err :
  gather_uniform_blocks_of inp pool ubs = (pool', ubs', err) →
  map ub_core ubs' = map ub_core ubs
  ∧ ∃ added, pool' = pool ++ added ∧ ∀ e, e ∈ added → e ∈ ubs'.
Proof.
  revert pool pool' ubs' err.
  induction ubs as [|ub ubs IH]; intros pool pool' ubs' err; simpl.
  - intros [= <- <- <-]. split; [done|]. exists [].
    split; [by rewrite app_nil_r|]. by intros e ?%elem_of_nil.
  - destruct (gather_uniform_block inp pool ub) as [[p1 u1] e1] eqn:Hb.
    apply gather_uniform_block_core in Hb as [Hcore Hp].
    destruct e1 as [e1|].
    + intros [= <- <- <-]. simpl. split; [by rewrite Hcore|].
      destruct Hp as [->| ->].
      * exists []. split; [by rewrite app_nil_r|]. by intros e ?%elem_of_nil.
      * exists [u1]. split; [done|].
        intros e ->%list_elem_of_singleton. by left.
    + destruct (gather_uniform_blocks_of inp p1 ubs) as [[p2 us2] e2] eqn:Hrest.
      intros [= <- <- <-].
      destruct (IH _ _ _ _ Hrest) as (Hm & added & -> & Hsub).
      simpl. split; [by rewrite Hcore, Hm|].
      destruct Hp as [->| ->].
      * exists added. split; [done|]. intros e He. right. by apply Hsub.
      * exists (u1 :: added). split; [by rewrite <-app_assoc|].
        intros e [->|He]%elem_of_cons; [by left|right; by apply Hsub].
Qed.

Lemma gather_images_of_core inp pool imgs pool' imgs' err :
  gather_images_of inp pool imgs = (pool', imgs', err) →
  map img_core imgs' = map img_core imgs
  ∧ ∃ added, pool' = pool ++ added ∧ ∀ e, e ∈ added → e ∈ imgs'.
Proof.
  revert pool pool' imgs' err.
  induction imgs as [|img imgs IH]; intros pool pool' imgs' err; simpl.
  - intros [= <- <- <-]. split; [done|]. exists [].
    split; [by rewrite app_nil_r|]. by intros e ?%elem_of_nil.
  - destruct (gather_image inp pool img) as [[p1 u1] e1] eqn:Hb.
    apply gather_image_core in Hb as [Hcore Hp].
    destruct e1 as [e1|].
    + intros [= <- <- <-]. simpl. split; [by rewrite Hcore|].
      destruct Hp as [->| ->].
      * exists []. split; [by rewrite app_nil_r|]. by intros e ?%elem_of_nil.
      * exists [u1]. split; [done|].
        intros e ->%list_elem_of_singleton. by left.
    + destruct (gather_images_of inp p1 imgs) as [[p2 us2] e2] eqn:Hrest.
      intros [= <- <- <-].
      destruct (IH _ _ _ _ Hrest) as (Hm & added & -> & Hsub).
      simpl. split; [by rewrite Hcore, Hm|].
      destruct Hp as [->| ->].
      * exists added. split; [done|]. intros e He. right. by apply Hsub.
      * exists (u1 :: added). split; [by rewrite <-app_assoc|].
        intros e [->|He]%elem_of_cons; [by left|right; by apply Hsub].
Qed.

Lemma gather_uniform_blocks_in_core inp pool srcs pool' srcs' err :
  gather_uniform_blocks_in inp pool srcs = (pool', srcs', err) →
  Forall2 same_up_to_unique_index srcs srcs'
  ∧ ub_pool_extended pool pool' srcs'.
Proof.
  revert pool pool' srcs' err.
  induction srcs as [|src srcs IH]; intros pool pool' srcs' err; simpl.
  - intros [= <- <- <-]. split; [constructor|]. exists [].
    split; [by rewrite app_nil_r|]. by intros e ?%elem_of_nil.
  - destruct (gather_uniform_blocks_of inp pool _) as [[p1 ubs1] e1] eqn:Hof.
    apply gather_uniform_blocks_of_core in Hof as (Hm & a1 & -> & Ha1).
    destruct e1 as [e1|].
    + intros [= <- <- <-]. split.
      * constructor; [by repeat split|].
        apply Forall2_same_length_lookup_2; [done|].
        intros i x y Hx Hy. rewrite Hx in Hy. simplify_eq. by repeat split.
      * exists a1. split; [done|]. intros e He.
        exists (set_uniform_blocks src ubs1). split; [by left|]. by apply Ha1.
    + destruct (gather_uniform_blocks_in inp _ srcs) as [[p2 ss2] e2] eqn:Hrest.
      intros [= <- <- <-].
      destruct (IH _ _ _ _ Hrest) as (HF & a2 & -> & Ha2).
      split; [constructor; [by repeat split|done]|].
      exists (a1 ++ a2). split; [by rewrite app_assoc|].
      intros e [He|He]%elem_of_app.
      * exists (set_uniform_blocks src ubs1). split; [by left|]. by apply Ha1.
      * destruct (Ha2 e He) as (s & Hs & Hes). exists s. split; [by right|done].
Qed.

Lemma gather_images_in_core inp pool srcs pool' srcs' err :
  gather_images_in inp pool srcs = (pool', srcs', err) →
  Forall2 same_up_to_unique_index srcs srcs'
  ∧ img_pool_extended pool pool' srcs'.
Proof.
  revert pool pool' srcs' err.
  induction srcs as [|src srcs IH]; intros pool pool' srcs' err; simpl.
  - intros [= <- <- <-]. split; [constructor|]. exists [].
    split; [by rewrite app_nil_r|]. by intros e ?%elem_of_nil.
  - destruct (gather_images_of inp pool _) as [[p1 imgs1] e1] eqn:Hof.
    apply gather_images_of_core in Hof as (Hm & a1 & -> & Ha1).
    destruct e1 as [e1|].
    + intros [= <- <- <-]. split.
      * constructor; [by repeat split|].
        apply Forall2_same_length_lookup_2; [done|].
        intros i x y Hx Hy. rewrite Hx in Hy. simplify_eq. by repeat split.
      * exists a1. split; [done|]. intros e He.
        exists (set_images src imgs1). split; [by left|]. by apply Ha1.
    + destruct (gather_images_in inp _ srcs) as [[p2 ss2] e2] eqn:Hrest.
      intros [= <- <- <-].
      destruct (IH _ _ _ _ Hrest) as (HF & a2 & -> & Ha2).
      split; [constructor; [by repeat split|done]|].
      exists (a1 ++ a2). split; [by rewrite app_assoc|].
      intros e [He|He]%elem_of_app.
      * exists (set_images src imgs1). split; [by left|]. by apply Ha1.
      * destruct (Ha2 e He) as (s & Hs & Hes). exists s. split; [by right|done].
Qed.

(** X9: the deduplicator changes nothing but [unique_index], whether it
    succeeds or reports a conflict: it keeps the number and the order of
    the sources, and in every source the text, the snippet index, the
    stage, the entry point, both attribute arrays and, block by block and
    image by image, slot, size, name, members and types; the uniform-block
    pass leaves the image pool alone and the image pass the uniform-block
    pool; a pool only grows at its end, and each entry it gains is, with
    its index, a block (image) of one of the sources. *)
Theorem dedup_changes_unique_index_only (inp : input_t)
    (spv_cross : spirvcross_t) :
  let after_ubs := (gather_unique_uniform_blocks inp spv_cross).2 in
  let after_imgs := (gather_unique_images inp spv_cross).2 in
  (Forall2 same_up_to_unique_index (sources spv_cross) (sources after_ubs)
   ∧ unique_images after_ubs = unique_images spv_cross
   ∧ ub_pool_extended (unique_uniform_blocks spv_cross)
       (unique_uniform_blocks after_ubs) (sources after_ubs))
  ∧ (Forall2 same_up_to_unique_index (sources spv_cross) (sources after_imgs)
     ∧ unique_uniform_blocks after_imgs = unique_uniform_blocks spv_cross
     ∧ img_pool_extended (unique_images spv_cross)
         (unique_images after_imgs) (sources after_imgs)).
Proof.
  split.
  - destruct (gather_unique_uniform_blocks inp spv_cross) as [ok spv'] eqn:Hg.
    apply gather_unique_uniform_blocks_spec in Hg as (err & Hin & Hi & _).
    apply gather_uniform_blocks_in_core in Hin as [HF Hp]. by simpl.
  - destruct (gather_unique_images inp spv_cross) as [ok spv'] eqn:Hg.
    apply gather_unique_images_spec in Hg as (err & Hin & Hi & _).
    apply gather_images_in_core in Hin as [HF Hp]. by simpl.
Qed.


(** *** Pool indices and names *)

Lemma first_seen_NoDup seen names :
  NoDup seen → NoDup (first_seen seen names).
Proof.
  revert seen. induction names as [|n names IH]; intros seen Hnd; simpl;
    [done|].
  case_decide; [by apply IH|]. apply IH. apply NoDup_app.
  split; [done|]. split; [|apply NoDup_singleton].
  by intros x Hx ->%list_elem_of_singleton.
Qed.

(** in a pool without repeated names, two occurrences that point at the
    entries of their names have the same index exactly if they have the
    same name *)
Lemma same_index_same_name {A} (name_of : A → string) (pool : list A)
    (k1 k2 : nat) e1 e2 n1 n2 :
  NoDup (map name_of pool) →
  pool !! k1 = Some e1 → name_of e1 = n1 →
  pool !! k2 = Some e2 → name_of e2 = n2 →
  Z.of_nat k1 = Z.of_nat k2 ↔ n1 = n2.
Proof.
  intros Hnd H1 Hn1 H2 Hn2. split.
  - intros Hk. apply Nat2Z.inj in Hk. subst k2. congruence.
  - intros Hn. f_equal.
    eapply (NoDup_lookup (map name_of pool) k1 k2 n1); [done|..];
      rewrite list_lookup_fmap; [by rewrite H1; simpl; f_equal
                                |by rewrite H2; simpl; f_equal; congruence].
Qed.

(** X10: in the result of a pass that ended without error no two pool
    entries share a name, and the [unique_index] identifies the name
    across all sources: two uniform blocks (two images) of any two
    sources carry the same index exactly if they carry the same name. *)
Theorem unique_index_identifies_the_name (inp : input_t) (spirv : spirv_t)
    (slang : slang_t) (r : spirvcross_t) :
  translate inp spirv slang = Some r →
  err_valid (error r) = false →
  NoDup (map ub_name (unique_uniform_blocks r))
  ∧ NoDup (map img_name (unique_images r))
  ∧ (∀ src1 src2 ub1 ub2,
       src1 ∈ sources r → src2 ∈ sources r →
       ub1 ∈ uniform_blocks (refl src1) → ub2 ∈ uniform_blocks (refl src2) →
       ub_unique_index ub1 = ub_unique_index ub2 ↔ ub_name ub1 = ub_name ub2)
  ∧ (∀ src1 src2 img1 img2,
       src1 ∈ sources r → src2 ∈ sources r →
       img1 ∈ images (refl src1) → img2 ∈ images (refl src2) →
       img_unique_index img1 = img_unique_index img2
       ↔ img_name img1 = img_name img2).
Proof.
  intros Hr Herr.
  destruct (translate_pools _ _ _ _ Hr Herr)
    as (_ & Hun & Hua & _ & Hin & Hia).
  assert (NoDup (map ub_name (unique_uniform_blocks r))) as Hndu.
  { rewrite Hun. apply first_seen_NoDup. constructor. }
  assert (NoDup (map img_name (unique_images r))) as Hndi.
  { rewrite Hin. apply first_seen_NoDup. constructor. }
  split; [done|]. split; [done|]. split.
  - intros src1 src2 ub1 ub2 Hs1 Hs2 Hu1 Hu2.
    destruct (Hua _ _ Hs1 Hu1) as (k1 & e1 & -> & Hk1 & Hn1).
    destruct (Hua _ _ Hs2 Hu2) as (k2 & e2 & -> & Hk2 & Hn2).
    by apply (same_index_same_name ub_name (unique_uniform_blocks r)
                k1 k2 e1 e2).
  - intros src1 src2 img1 img2 Hs1 Hs2 Hi1 Hi2.
    destruct (Hia _ _ Hs1 Hi1) as (k1 & e1 & -> & Hk1 & Hn1).
    destruct (Hia _ _ Hs2 Hi2) as (k2 & e2 & -> & Hk2 & Hn2).
    by apply (same_index_same_name img_name (unique_images r) k1 k2 e1 e2).
Qed.

(** *** A pass only appends *)

Lemma set_ub_unique_index_same ub :
  set_ub_unique_index ub (ub_unique_index ub) = ub.
Proof. by destruct ub. Qed.

Lemma set_img_unique_index_same img :
  set_img_unique_index img (img_unique_index img) = img.
Proof. by destruct img. Qed.

(** a block that points at the pool entry of its name passes the
    deduplicator unchanged, if it passes *)
Lemma gather_uniform_block_stable inp pool ub pool' ub' :
  NoDup (map ub_name pool) → ub_assigned pool ub →
  gather_uniform_block inp pool ub = (pool', ub', None) →
  pool' = pool ∧ ub' = ub.
Proof.
  intros Hnd (k & e & Hidx & Hk & Hname). rewrite gather_uniform_block_spec.
  destruct (list_find _ _) as [[k' e']|] eqn:Hf.
  - apply list_find_Some in Hf as (Hk' & Hn' & _).
    assert (k' = k) as ->.
    { apply Nat2Z.inj.
      by eapply (same_index_same_name ub_name pool k' k e' e). }
    destruct (ub_equals ub e'); [|done]. intros [= <- <-].
    by rewrite <-Hidx, set_ub_unique_index_same.
  - apply list_find_None in Hf. rewrite Forall_forall in Hf.
    destruct (Hf e); [by eapply list_elem_of_lookup_2|done].
Qed.

Lemma gather_image_stable inp pool img pool' img' :
  NoDup (map img_name pool) → img_assigned pool img →
  gather_image inp pool img = (pool', img', None) →
  pool' = pool ∧ img' = img.
Proof.
  intros Hnd (k & e & Hidx & Hk & Hname). rewrite gather_image_spec.
  destruct (list_find _ _) as [[k' e']|] eqn:Hf.
  - apply list_find_Some in Hf as (Hk' & Hn' & _).
    assert (k' = k) as ->.
    { apply Nat2Z.inj.
      by eapply (same_index_same_name img_name pool k' k e' e). }
    destruct (img_equals img e'); [|done]. intros [= <- <-].
    by rewrite <-Hidx, set_img_unique_index_same.
  - apply list_find_None in Hf. rewrite Forall_forall in Hf.
    destruct (Hf e); [by eapply list_elem_of_lookup_2|done].
Qed.

Lemma gather_uniform_blocks_of_stable inp pool ubs pool' ubs' :
  NoDup (map ub_name pool) → Forall (ub_assigned pool) ubs →
  gather_uniform_blocks_of inp pool ubs = (pool', ubs', None) →
  pool' = pool ∧ ubs' = ubs.
Proof.
  intros Hnd Hall. revert pool' ubs'.
  induction Hall as [|ub ubs Hub Hall IH]; intros pool' ubs'; simpl;
    [by intros [= <- <-]|].
  destruct (gather_uniform_block inp pool ub) as [[p1 u1] [e1|]] eqn:Hb;
    [done|].
  apply gather_uniform_block_stable in Hb as [-> ->]; [|done..].
  destruct (gather_uniform_blocks_of inp pool ubs) as [[p2 us2] e2] eqn:Hrest.
  intros [= <- <- ->]. by destruct (IH _ _ eq_refl) as [-> ->].
Qed.

Lemma gather_images_of_stable inp pool imgs pool' imgs' :
  NoDup (map img_name pool) → Forall (img_assigned pool) imgs →
  gather_images_of inp pool imgs = (pool', imgs', None) →
  pool' = pool ∧ imgs' = imgs.
Proof.
  intros Hnd Hall. revert pool' imgs'.
  induction Hall as [|img imgs Himg Hall IH]; intros pool' imgs'; simpl;
    [by intros [= <- <-]|].
  destruct (gather_image inp pool img) as [[p1 u1] [e1|]] eqn:Hb; [done|].
  apply gather_image_stable in Hb as [-> ->]; [|done..].
  destruct (gather_images_of inp pool imgs) as [[p2 us2] e2] eqn:Hrest.
  intros [= <- <- ->]. by destruct (IH _ _ eq_refl) as [-> ->].
Qed.

(** the sources that a round has dealt with before pass the next round
    unchanged, and leave the pool to the sources after them *)
Lemma gather_uniform_blocks_in_resumed inp pool srcs rest pool' srcs' :
  NoDup (map ub_name pool) →
  Forall (λ src, Forall (ub_assigned pool) (uniform_blocks (refl src))) srcs →
  gather_uniform_blocks_in inp pool (srcs ++ rest) = (pool', srcs', None) →
  ∃ rest', srcs' = srcs ++ rest'
           ∧ gather_uniform_blocks_in inp pool rest = (pool', rest', None).
Proof.
  intros Hnd Hall. revert srcs'.
  induction Hall as [|src srcs Hsrc Hall IH]; intros srcs'; simpl;
    [intros ?; by eexists|].
  destruct (gather_uniform_blocks_of inp pool _) as [[p1 ubs1] [e1|]] eqn:Hof;
    [done|].
  apply gather_uniform_blocks_of_stable in Hof as [-> ->]; [|done..].
  destruct (gather_uniform_blocks_in inp pool (srcs ++ rest))
    as [[p2 ss2] e2] eqn:Hrest.
  intros [= <- <- ->]. destruct (IH _ eq_refl) as (rest' & -> & Hr).
  exists rest'. by rewrite set_uniform_blocks_same.
Qed.

Lemma gather_images_in_resumed inp pool srcs rest pool' srcs' :
  NoDup (map img_name pool) →
  Forall (λ src, Forall (img_assigned pool) (images (refl src))) srcs →
  gather_images_in inp pool (srcs ++ rest) = (pool', srcs', None) →
  ∃ rest', srcs' = srcs ++ rest'
           ∧ gather_images_in inp pool rest = (pool', rest', None).
Proof.
  intros Hnd Hall. revert srcs'.
  induction Hall as [|src srcs Hsrc Hall IH]; intros srcs'; simpl;
    [intros ?; by eexists|].
  destruct (gather_images_of inp pool _) as [[p1 imgs1] [e1|]] eqn:Hof; [done|].
  apply gather_images_of_stable in Hof as [-> ->]; [|done..].
  destruct (gather_images_in inp pool (srcs ++ rest))
    as [[p2 ss2] e2] eqn:Hrest.
  intros [= <- <- ->]. destruct (IH _ eq_refl) as (rest' & -> & Hr).
  exists rest'. by rewrite set_images_same.
Qed.

Lemma gather_in_one_length inp pool src pool' srcs' err :
  gather_uniform_blocks_in inp pool [src] = (pool', srcs', err) →
  ∃ src', srcs' = [src'].
Proof.
  simpl. destruct (gather_uniform_blocks_of _ _ _) as [[p1 ubs1] [e1|]];
    intros [= <- <- <-]; by eexists.
Qed.

Lemma gather_images_in_one_length inp pool src pool' srcs' err :
  gather_images_in inp pool [src] = (pool', srcs', err) →
  ∃ src', srcs' = [src'].
Proof.
  simpl. destruct (gather_images_of _ _ _) as [[p1 imgs1] [e1|]];
    intros [= <- <- <-]; by eexists.
Qed.

(** a round of the loop over the blobs that goes on has appended one
    source and left the earlier ones as they were; the pools have grown at
    their ends *)
Lemma translate_blob_appends inp slang spv blob spv' done :
  pass_inv spv done →
  translate_blob inp slang spv blob = Some (true, spv') →
  (∃ src, sources spv' = sources spv ++ [src])
  ∧ unique_uniform_blocks spv `prefix_of` unique_uniform_blocks spv'
  ∧ unique_images spv `prefix_of` unique_images spv'.
Proof.
  intros ((Hpu & Hnu & Hau & Hpi & Hni & Hai) & _ & _). unfold translate_blob.
  destruct (vec_at (snippets inp) _) as [snippet|]; simpl; [|done].
  case_match; [done|].
  destruct (translate_switch _ _ _ _) as [src|]; simpl; [|done].
  destruct (src_valid src); [|by destruct (vec_at _ _)].
  destruct (gather_unique_uniform_blocks _ _) as [[] spv1] eqn:Hg1; [|done].
  destruct (gather_unique_images _ _) as [[] spv2] eqn:Hg2; [|done].
  simpl. intros [= <-].
  apply gather_unique_uniform_blocks_spec in Hg1 as (e1 & Hin1 & Himgs1 & Hok1 & _).
  apply gather_unique_images_spec in Hg2 as (e2 & Hin2 & Hubs2 & Hok2 & _).
  destruct e1; [done|]. destruct e2; [done|]. simpl in *.
  destruct (gather_uniform_blocks_in_ok _ _ _ _ _ Hin1 Hpu) as (_ & Hpre1 & _).
  rewrite Himgs1 in Hin2.
  destruct (gather_images_in_ok _ _ _ _ _ Hin2 Hpi) as (_ & Hpre2 & _).
  apply gather_uniform_blocks_in_resumed in Hin1 as (rest1 & Hs1 & Hr1).
  - apply gather_in_one_length in Hr1 as [src1 ->].
    rewrite Hs1 in Hin2.
    apply gather_images_in_resumed in Hin2 as (rest2 & Hs2 & Hr2).
    + apply gather_images_in_one_length in Hr2 as [src2 ->].
      split; [by exists src2|]. split; [by rewrite Hubs2|done].
    + rewrite Hni. apply first_seen_NoDup. constructor.
    + apply Forall_forall. intros s Hs. apply Forall_forall. intros img Himg.
      by eapply Hai.
  - rewrite Hnu. apply first_seen_NoDup. constructor.
  - apply Forall_forall. intros s Hs. apply Forall_forall. intros ub Hub.
    by eapply Hau.
Qed.

Lemma translate_blobs_appends inp slang spv blobs spv' done :
  pass_inv spv done →
  translate_blobs inp slang spv blobs = Some (true, spv') →
  sources spv `prefix_of` sources spv'
  ∧ unique_uniform_blocks spv `prefix_of` unique_uniform_blocks spv'
  ∧ unique_images spv `prefix_of` unique_images spv'.
Proof.
  revert spv done. induction blobs as [|blob blobs IH]; intros spv done Hinv;
    simpl; [by intros [= <-]|].
  destruct (translate_blob inp slang spv blob) as [[[] spv1]|] eqn:Hb;
    [|done..].
  intros Hrest.
  destruct (translate_blob_appends _ _ _ _ _ _ Hinv Hb) as ([src Hs] & Hu & Hi).
  pose proof (translate_blob_continue _ _ _ _ _ _ Hinv Hb) as Hinv1.
  destruct (IH _ _ Hinv1 Hrest) as (Hs' & Hu' & Hi').
  split; [|split; by etrans].
  etrans; [|done]. rewrite Hs. by apply prefix_app_r.
Qed.

Lemma translate_blobs_app inp slang spv pre post r :
  translate_blobs inp slang spv (pre ++ post) = Some (true, r) →
  ∃ spv1, translate_blobs inp slang spv pre = Some (true, spv1)
          ∧ translate_blobs inp slang spv1 post = Some (true, r).
Proof.
  revert spv. induction pre as [|b pre IH]; intros spv; simpl;
    [intros ?; by eexists|].
  destruct (translate_blob inp slang spv b) as [[[] spv1]|]; [|done..].
  apply IH.
Qed.

(** the loop over the blobs of a pass that ended without error ran to
    its end *)
Lemma translate_ok_loop inp spirv slang r :
  translate inp spirv slang = Some r →
  err_valid (error r) = false →
  translate_blobs inp slang spirvcross_empty (blobs spirv) = Some (true, r).
Proof.
  unfold translate.
  destruct (translate_blobs _ _ _ _) as [[[] spv]|] eqn:Hloop; [| |done].
  - destruct (validate_linking inp spv) as [err|]; simpl; [|done].
    destruct (err_valid err) eqn:Hv; intros [= <-]; [|done].
    simpl. congruence.
  - intros [= <-] Herr.
    destruct (translate_blobs_stop _ _ _ _ _ Hloop)
      as (pre & blob & post & spv1 & _ & _ & Hstop).
    apply translate_blob_stop in Hstop as (Hvalid & _). congruence.
Qed.

(** X11: a pass that ends without error only ever appends. After any
    number of its blobs the loop over the blobs goes on, and what it has
    built by then stays: the sources of those blobs, one per blob in the
    order of the blobs, are the first sources of the result exactly as
    they were then, and the two pools of then are the beginnings of the
    pools of the result, so that no index handed out is revised later. *)
Theorem pass_only_appends (inp : input_t) (spirv : spirv_t) (slang : slang_t)
    (r : spirvcross_t) (pre post : list spirv_blob_t) :
  translate inp spirv slang = Some r →
  err_valid (error r) = false →
  blobs spirv = pre ++ post →
  ∃ spv,
    translate_blobs inp slang spirvcross_empty pre = Some (true, spv)
    ∧ sources_match (sources spv) pre
    ∧ sources spv `prefix_of` sources r
    ∧ unique_uniform_blocks spv `prefix_of` unique_uniform_blocks r
    ∧ unique_images spv `prefix_of` unique_images r.
Proof.
  intros Hr Herr Hblobs.
  pose proof (translate_ok_loop _ _ _ _ Hr Herr) as Hloop.
  rewrite Hblobs in Hloop.
  apply translate_blobs_app in Hloop as (spv & Hpre & Hpost).
  pose proof (translate_blobs_continue _ _ _ _ _ [] pass_inv_empty Hpre)
    as Hinv.
  exists spv. split; [done|]. split; [by destruct Hinv as (_ & _ & ?)|].
  by eapply translate_blobs_appends.
Qed.


(** *** The sources of a pass *)

Lemma same_up_to_unique_index_trans s1 s2 s3 :
  same_up_to_unique_index s1 s2 → same_up_to_unique_index s2 s3 →
  same_up_to_unique_index s1 s3.
Proof. intros (? & ? & ?) (? & ? & ?). repeat split; congruence. Qed.

Lemma translate_blob_source inp slang spv blob spv' :
  translate_blob inp slang spv blob = Some (true, spv') →
  ∃ snippet src0,
    vec_at (snippets inp) (blob_snippet_index blob) = Some snippet
    ∧ translate_switch slang blob (snippet_options snippet slang)
        (snippet_type_of snippet) = Some src0
    ∧ Forall2 same_up_to_unique_index
        (sources spv ++ [set_snippet_index src0 (blob_snippet_index blob)])
        (sources spv').
Proof.
  unfold translate_blob.
  destruct (vec_at (snippets inp) _) as [snippet|]; simpl; [|done].
  case_match; [done|].
  destruct (translate_switch _ _ _ _) as [src|] eqn:Hsw; simpl; [|done].
  destruct (src_valid src); [|by destruct (vec_at _ _)].
  destruct (gather_unique_uniform_blocks _ _) as [[] spv1] eqn:Hg1; [|done].
  destruct (gather_unique_images _ _) as [[] spv2] eqn:Hg2; [|done].
  simpl. intros [= <-]. exists snippet, src. split; [done|]. split; [done|].
  apply gather_unique_uniform_blocks_spec in Hg1 as (e1 & Hin1 & _).
  apply gather_unique_images_spec in Hg2 as (e2 & Hin2 & _).
  apply gather_uniform_blocks_in_core in Hin1 as [HF1 _].
  apply gather_images_in_core in Hin2 as [HF2 _].
  eapply Forall2_trans; [|exact HF1|exact HF2].
  apply same_up_to_unique_index_trans.
Qed.

Lemma translate_blobs_sources inp slang spv blobs spv' done :
  Forall2 (λ src blob, translation_of inp slang blob src) (sources spv) done →
  translate_blobs inp slang spv blobs = Some (true, spv') →
  Forall2 (λ src blob, translation_of inp slang blob src) (sources spv')
    (done ++ blobs).
Proof.
  revert spv done. induction blobs as [|blob blobs IH]; intros spv done Hinv;
    simpl; [intros [= <-]; by rewrite app_nil_r|].
  destruct (translate_blob inp slang spv blob) as [[[] spv1]|] eqn:Hb;
    [|done..].
  intros Hrest. replace (done ++ blob :: blobs) with ((done ++ [blob]) ++ blobs)
    by by rewrite <-app_assoc.
  apply (IH spv1); [|done].
  apply translate_blob_source in Hb as (snippet & src0 & Hsn & Hsw & HF).
  apply Forall2_app_inv_l in HF as (l1 & l2 & H1 & H2 & ->).
  apply Forall2_app.
  - apply Forall2_flip in H1.
    eapply Forall2_trans; [|exact H1|exact Hinv].
    intros s' s b Hs (sn & s0 & ? & ? & Hsame). exists sn, s0.
    split; [done|]. split; [done|].
    by eapply same_up_to_unique_index_trans.
  - apply Forall2_cons_inv_l in H2 as (s' & l2' & Hs & Hnil & ->).
    apply Forall2_nil_inv_l in Hnil as ->.
    constructor; [|constructor]. by exists snippet, src0.
Qed.

(** X12: the sources of a pass that ended without error are, blob by
    blob and in the order of the blobs, what the switch over the target
    returned for the blob with the options and the type of the blob's
    snippet: the same text, validity, stage, entry point and attribute
    arrays, the blob's snippet index, and the same uniform blocks and
    images up to their [unique_index]. *)
Theorem pass_sources_are_the_translations (inp : input_t) (spirv : spirv_t)
    (slang : slang_t) (r : spirvcross_t) :
  translate inp spirv slang = Some r →
  err_valid (error r) = false →
  Forall2 (λ src blob, translation_of inp slang blob src) (sources r)
    (blobs spirv).
Proof.
  intros Hr Herr. pose proof (translate_ok_loop _ _ _ _ Hr Herr) as Hloop.
  by apply (translate_blobs_sources _ _ spirvcross_empty _ _ []) in Hloop;
    [|constructor].
Qed.

(** *** A blob that the translator rejects *)

(** X13: when the translator returns no text for a blob, the blobs
    before it being translated, the pass stops there: the reflection of
    that blob is not extracted, nothing is added to the sources and pools
    built so far, the blobs after it and the interface validator are not
    run, and the error names the target and the first line of the blob's
    snippet; for a snippet without lines the result is undefined. *)
Theorem rejected_blob_stops_the_pass (inp : input_t) (spirv : spirv_t)
    (slang : slang_t) (pre post : list spirv_blob_t) (blob : spirv_blob_t)
    (spv : spirvcross_t) (snippet : snippet_t) :
  blobs spirv = pre ++ blob :: post →
  translate_blobs inp slang spirvcross_empty pre = Some (true, spv) →
  vec_at (snippets inp) (blob_snippet_index blob) = Some snippet →
  snippet_type_of snippet = VS ∨ snippet_type_of snippet = FS →
  emitted slang blob (snippet_options snippet slang)
    (snippet_type_of snippet) = "" →
  translate inp spirv slang
  = match snippet_lines snippet with
    | [] => None
    | line_index :: _ =>
        Some (set_error spv (cross_compile_error inp slang line_index))
    end.
Proof.
  intros Hblobs Hpre Hsn Hty Hem.
  assert (translate_blob inp slang spv blob
          = match snippet_lines snippet with
            | [] => None
            | line_index :: _ =>
                Some (false,
                      set_error spv (cross_compile_error inp slang line_index))
            end) as Hb.
  { unfold translate_blob. rewrite Hsn. simpl.
    assert (negb (bool_decide (snippet_type_of snippet = VS)
                  || bool_decide (snippet_type_of snippet = FS)) = false)
      as -> by (destruct Hty as [-> | ->]; done).
    rewrite translate_switch_unfold, Hem. simpl.
    unfold vec_at. simpl. by destruct (snippet_lines snippet). }
  destruct (snippet_lines snippet) as [|line_index lines].
  - unfold translate. rewrite Hblobs. clear Hblobs.
    revert Hpre. generalize spirvcross_empty.
    induction pre as [|b pre IH]; intros s; simpl.
    + intros [= ->]. by rewrite Hb.
    + destruct (translate_blob inp slang s b) as [[[] s1]|]; [|done..].
      apply IH.
  - by eapply translate_returns_at_failure.
Qed.


(** *** When the binary serializer is defined *)

Lemma write_string_inv stream str out :
  write_string stream str = Some out → string_fits str.
Proof.
  unfold write_string, string_fits. by case_bool_decide.
Qed.

Lemma write_string_appends str :
  appends_iff (λ stream, write_string stream str) (string_fits str).
Proof.
  split.
  - intros Hfit. eexists. intros stream. by apply write_string_Some.
  - intros stream [out Hout]. by eapply write_string_inv.
Qed.

Lemma appends_nil (write : list byte → option (list byte)) (P : Prop) :
  (∀ stream, write stream = Some stream) → P → appends_iff write P.
Proof.
  intros Hw HP. split; [|done]. intros _. exists []. intros stream.
  by rewrite Hw, app_nil_r.
Qed.

Lemma appends_bind (w1 w2 : list byte → option (list byte)) (P1 P2 : Prop) :
  appends_iff w1 P1 → appends_iff w2 P2 →
  appends_iff (λ stream, stream ← w1 stream; w2 stream) (P1 ∧ P2).
Proof.
  intros [A1 B1] [A2 B2]. split.
  - intros [H1 H2]. destruct (A1 H1) as [b1 W1], (A2 H2) as [b2 W2].
    exists (b1 ++ b2). intros stream. rewrite W1. simpl.
    by rewrite W2, app_assoc.
  - intros stream Hs. destruct (w1 stream) as [s1|] eqn:E1; simpl in Hs;
      [|by destruct Hs].
    split; [apply (B1 stream); by rewrite E1|by apply (B2 s1)].
Qed.

Lemma appends_then (w : list byte → option (list byte)) (P : Prop) bs :
  appends_iff w P → appends_iff (λ stream, w (stream ++ bs)) P.
Proof.
  intros [A B]. split.
  - intros HP. destruct (A HP) as [b W]. exists (bs ++ b). intros stream.
    by rewrite W, app_assoc.
  - intros stream. apply B.
Qed.

Lemma appends_ext (w w' : list byte → option (list byte)) (P P' : Prop) :
  (∀ stream, w' stream = w stream) → (P' ↔ P) →
  appends_iff w P → appends_iff w' P'.
Proof.
  intros Hw HP [A B]. split.
  - intros H'. destruct (A (proj1 HP H')) as [b W]. exists b. intros stream.
    by rewrite Hw.
  - intros stream Hs. apply HP, (B stream). by rewrite <-Hw.
Qed.

Lemma appends_list {A} (w : list byte → A → option (list byte))
    (P : A → Prop) (ws : list byte → list A → option (list byte)) :
  (∀ x, appends_iff (λ stream, w stream x) (P x)) →
  (∀ stream, ws stream [] = Some stream) →
  (∀ stream x l, ws stream (x :: l) = (stream ← w stream x; ws stream l)) →
  ∀ l, appends_iff (λ stream, ws stream l) (Forall P l).
Proof.
  intros Hw Hnil Hcons l. induction l as [|x l IH].
  - apply appends_nil; [done|constructor].
  - eapply appends_ext; [intros stream; apply Hcons|apply Forall_cons|].
    apply appends_bind; [apply Hw|exact IH].
Qed.

(** the stream has grown by some bytes before the writer [w] runs *)
Ltac after_append :=
  lazymatch goal with
  | |- appends_iff ?w ?P =>
      let s := fresh "s" in
      pose proof ([] : list byte) as s;
      let t := eval cbv beta in (w s) in
      lazymatch t with
      | context [s ++ ?bs] =>
          let t' := eval pattern (s ++ bs) in t in
          lazymatch t' with
          | ?f _ => clear s; apply (appends_then f P bs)
          end
      end
  end.

Lemma appends_pure bs :
  appends_iff (λ stream, Some (stream ++ bs)) True.
Proof. split; [|done]. intros _. by exists bs. Qed.

Lemma write_attr_appends a :
  appends_iff (λ stream, write_attr stream a) (attr_strings_fit a).
Proof.
  unfold write_attr, write_u16, write_byte, attr_strings_fit.
  apply appends_bind; [apply write_string_appends|].
  after_append.
  eapply appends_ext;
    [done|symmetry; apply (and_True (string_fits (attr_sem_name a)))|].
  apply appends_bind; [apply write_string_appends|apply appends_pure].
Qed.

Lemma write_attrs_appends attrs :
  appends_iff (λ stream, write_attrs stream attrs)
    (Forall attr_strings_fit (used_attrs attrs)).
Proof.
  unfold used_attrs. induction attrs as [|a attrs IH]; simpl.
  - apply appends_nil; [done|constructor].
  - rewrite filter_cons. case_bool_decide.
    + rewrite decide_True by done.
      eapply appends_ext; [done|apply Forall_cons|].
      apply appends_bind; [apply write_attr_appends|exact IH].
    + by rewrite decide_False by done.
Qed.

Lemma write_uniforms_appends uniforms :
  appends_iff (λ stream, write_uniforms stream uniforms)
    (Forall (λ u, string_fits (uniform_name u)) uniforms).
Proof.
  induction uniforms as [|u uniforms IH]; simpl.
  - apply appends_nil; [done|constructor].
  - eapply appends_ext; [done|apply Forall_cons|].
    apply appends_bind; [apply write_string_appends|].
    unfold write_u16, write_byte.
    do 3 after_append. exact IH.
Qed.

Lemma write_uniform_block_appends ub :
  appends_iff (λ stream, write_uniform_block stream ub)
    (Forall (λ u, string_fits (uniform_name u)) (ub_uniforms ub)).
Proof.
  unfold write_uniform_block, write_u16.
  after_append. apply write_uniforms_appends.
Qed.

Lemma write_image_appends img :
  appends_iff (λ stream, write_image stream img) (string_fits (img_name img)).
Proof.
  unfold write_image, write_u16, write_byte.
  eapply appends_ext;
    [done|symmetry; apply (and_True (string_fits (img_name img)))|].
  apply appends_bind; [apply write_string_appends|].
  do 2 after_append. apply appends_pure.
Qed.

Lemma write_uniform_blocks_appends ubs :
  appends_iff (λ stream, write_uniform_blocks stream ubs)
    (Forall (λ ub, Forall (λ u, string_fits (uniform_name u)) (ub_uniforms ub))
       ubs).
Proof.
  apply (appends_list write_uniform_block _ write_uniform_blocks);
    [apply write_uniform_block_appends|done..].
Qed.

Lemma write_images_appends imgs :
  appends_iff (λ stream, write_images stream imgs)
    (Forall (λ img, string_fits (img_name img)) imgs).
Proof.
  apply (appends_list write_image _ write_images);
    [apply write_image_appends|done..].
Qed.

Lemma write_binary_reflection_info_appends r :
  appends_iff (λ stream, write_binary_reflection_info stream r)
    (refl_strings_fit r).
Proof.
  unfold write_binary_reflection_info, write_chars, write_u16, write_byte,
    refl_strings_fit.
  do 3 after_append.
  apply appends_bind; [apply write_string_appends|].
  after_append.
  apply appends_bind; [apply write_attrs_appends|].
  after_append.
  apply appends_bind; [apply write_attrs_appends|].
  after_append.
  apply appends_bind; [apply write_uniform_blocks_appends|].
  after_append. apply write_images_appends.
Qed.

Lemma appends_prefix (w : list byte → option (list byte)) (P : Prop) s out :
  appends_iff w P → w s = Some out → s `prefix_of` out.
Proof.
  intros [A B] Hout. destruct (A (B s (mk_is_Some _ _ Hout))) as [bs W].
  rewrite W in Hout. simplify_eq. by apply prefix_app_r.
Qed.

Lemma write_binary_reflection_info_header stream r out :
  write_binary_reflection_info stream r = Some out →
  (stream ++ record_header) `prefix_of` out.
Proof.
  unfold write_binary_reflection_info, write_chars, write_u16, write_byte.
  intros Hw.
  destruct (write_string _ (entry_point r)) as [s1|] eqn:E1; simpl in Hw;
    [|done].
  destruct (write_attrs _ (inputs r)) as [s2|] eqn:E2; simpl in Hw; [|done].
  destruct (write_attrs _ (outputs r)) as [s3|] eqn:E3; simpl in Hw; [|done].
  destruct (write_uniform_blocks _ _) as [s4|] eqn:E4; simpl in Hw; [|done].
  apply (appends_prefix _ _ _ _ (write_string_appends _)), prefix_app_l in E1.
  apply (appends_prefix _ _ _ _ (write_attrs_appends _)), prefix_app_l in E2.
  apply (appends_prefix _ _ _ _ (write_attrs_appends _)), prefix_app_l in E3.
  apply (appends_prefix _ _ _ _ (write_uniform_blocks_appends _)),
    prefix_app_l in E4.
  apply (appends_prefix _ _ _ _ (write_images_appends _)), prefix_app_l in Hw.
  unfold record_header. rewrite app_assoc.
  etrans; [exact E1|]. etrans; [exact E2|]. etrans; [exact E3|].
  by etrans.
Qed.

(** X14: the binary serializer fails through the length assertion of
    its strings and through nothing else: it returns a stream exactly if
    the entry point, the names and semantic names of the attributes with
    a valid slot, the member names of the uniform blocks and the image
    names are each shorter than 65535 characters, whatever the counts,
    slots, offsets and the unwritten names are; it then keeps what the
    stream held and appends a record that starts with the magic and the
    version and does not depend on the stream. *)
Theorem serializer_fails_on_long_strings_only (r : spirvcross_refl_t) :
  (∀ stream,
     is_Some (write_binary_reflection_info stream r) ↔ refl_strings_fit r)
  ∧ (∀ stream out,
       write_binary_reflection_info stream r = Some out →
       ∃ body,
         out = stream ++ record_header ++ body
         ∧ ∀ stream', write_binary_reflection_info stream' r
                      = Some (stream' ++ record_header ++ body)).
Proof.
  destruct (write_binary_reflection_info_appends r) as [A B].
  split.
  - intros stream. split; [apply B|].
    intros [bs W]%A. rewrite W. by eexists.
  - intros stream out Hout.
    destruct (A (B stream (mk_is_Some _ _ Hout))) as [bs W].
    pose proof (write_binary_reflection_info_header [] r bs) as [body Hb].
    { by rewrite W. }
    simpl in Hb. subst bs.
    exists body. split; [|done]. rewrite W in Hout. by simplify_eq.
Qed.

(** X15: a record is self-delimiting: the reader takes the bytes of one
    record and leaves what follows, so that two records written one after
    the other into a stream are read back one after the other. *)
Theorem records_are_read_back_in_sequence (r1 r2 : spirvcross_refl_t)
    (stream : list byte) :
  refl_encodable r1 → refl_encodable r2 →
  ∃ bytes1 bytes2,
    (stream ← write_binary_reflection_info stream r1;
     write_binary_reflection_info stream r2)
    = Some (stream ++ bytes1 ++ bytes2)
    ∧ read_binary_reflection_info (bytes1 ++ bytes2)
      = Some (layout_of r1, bytes2)
    ∧ read_binary_reflection_info bytes2 = Some (layout_of r2, []).
Proof.
  intros [b1 [W1 R1]]%encodes_reflection [b2 [W2 R2]]%encodes_reflection.
  exists b1, b2. split; [|split].
  - rewrite W1. simpl. by rewrite W2, app_assoc.
  - apply R1.
  - specialize (R2 []). by rewrite app_nil_r in R2.
Qed.

(** *** The sources of a program *)

(** X16: the validator takes for a program the first source with the
    snippet index of its vertex shader and the first with that of its
    fragment shader; the pair is undefined exactly if one of the two names
    is missing from its map or no source carries one of the two snippet
    indices, so that the later assertions on the snippet indices of the
    sources found never fail. *)
Theorem linked_sources_are_the_first_matches (inp : input_t)
    (spv_cross : spirvcross_t) (prog : program_t) :
  linked_sources inp spv_cross prog
  = match vs_map inp !! prog_vs_name prog, fs_map inp !! prog_fs_name prog with
    | Some vs_snippet_index, Some fs_snippet_index =>
        match list_find (λ s, src_snippet_index s = vs_snippet_index)
                (sources spv_cross),
              list_find (λ s, src_snippet_index s = fs_snippet_index)
                (sources spv_cross) with
        | Some (_, vs_src), Some (_, fs_src) => Some (vs_src, fs_src)
        | _, _ => None
        end
    | _, _ => None
    end.
Proof.
  unfold linked_sources, find_source_by_snippet_index.
  destruct (vs_map inp !! _) as [vi|]; simpl; [|done].
  destruct (fs_map inp !! _) as [fi|]; simpl; [|done].
  rewrite !find_source_from_spec.
  destruct (list_find _ _) as [[kv vs]|] eqn:Hv; simpl; [|done].
  rewrite (bool_decide_true (0 ≤ 0 + Z.of_nat kv)) by lia.
  destruct (list_find (λ s, src_snippet_index s = fi) _) as [[kf fs]|] eqn:Hf;
    simpl; [|done].
  rewrite (bool_decide_true (0 ≤ 0 + Z.of_nat kf)) by lia. simpl.
  apply list_find_Some in Hv as (Hkv & Hvi & _).
  apply list_find_Some in Hf as (Hkf & Hfi & _).
  unfold vec_at. rewrite !bool_decide_true by lia.
  rewrite !Z.add_0_l, !Nat2Z.id, Hkv, Hkf. simpl.
  by rewrite !bool_decide_true by done.
Qed.

(** X17: after a pass that ended without error the source of a blob is
    found by the blob's snippet index: the search returns the position of
    the first blob with that snippet index, where a valid source with
    that snippet index stands, and -1 for a snippet index that no blob
    carries. *)
Theorem blob_sources_found_by_snippet_index (inp : input_t) (spirv : spirv_t)
    (slang : slang_t) (r : spirvcross_t) :
  translate inp spirv slang = Some r →
  err_valid (error r) = false →
  (∀ (k : nat) blob,
     blobs spirv !! k = Some blob →
     (∀ (j : nat) b, (j < k)%nat → blobs spirv !! j = Some b →
                     blob_snippet_index b ≠ blob_snippet_index blob) →
     find_source_by_snippet_index r (blob_snippet_index blob) = Z.of_nat k
     ∧ ∃ src, sources r !! k = Some src ∧ src_valid src = true
              ∧ src_snippet_index src = blob_snippet_index blob)
  ∧ (∀ snippet_index,
       snippet_index ∉ map blob_snippet_index (blobs spirv) →
       find_source_by_snippet_index r snippet_index = -1).
Proof.
  intros Hr Herr. pose proof (translate_ok_loop _ _ _ _ Hr Herr) as Hloop.
  destruct (translate_blobs_continue _ _ _ _ _ [] pass_inv_empty Hloop)
    as (_ & _ & Hsrcs). simpl in Hsrcs.
  unfold find_source_by_snippet_index. split.
  - intros k blob Hk Hfirst.
    destruct (Forall2_lookup_r _ _ _ _ _ Hsrcs Hk) as (src & Hsrc & Hv & Hi & _).
    rewrite find_source_from_spec.
    assert (list_find (λ s, src_snippet_index s = blob_snippet_index blob)
              (sources r) = Some (k, src)) as ->.
    { apply list_find_Some. split; [done|]. split; [done|].
      intros j s Hj Hlt Hs.
      destruct (Forall2_lookup_l _ _ _ _ _ Hsrcs Hj) as (b & Hb & _ & Hib & _).
      apply (Hfirst j b Hlt Hb). congruence. }
    split; [lia|]. by exists src.
  - intros snippet_index Hnot. rewrite find_source_from_spec.
    destruct (list_find _ _) as [[k s]|] eqn:Hf; [|done].
    apply list_find_Some in Hf as (Hk & Hs & _).
    destruct (Forall2_lookup_l _ _ _ _ _ Hsrcs Hk) as (b & Hb & _ & Hib & _).
    destruct Hnot. apply list_elem_of_fmap. exists b.
    split; [congruence|by eapply list_elem_of_lookup_2].
Qed.


(** ** The deduplicator and the pass, outcome by outcome *)

(** *** A conflict that the deduplicator reaches *)

Lemma gather_uniform_blocks_of_reaches inp pool pre ub post pool1 pre'
    (k : nat) e :
  gather_uniform_blocks_of inp pool pre = (pool1, pre', None) →
  list_find (λ e, ub_name e = ub_name ub) pool1 = Some (k, e) →
  ub_equals ub e = false →
  gather_uniform_blocks_of inp pool (pre ++ ub :: post)
  = (pool1, pre' ++ ub :: post, Some (ub_conflict inp (ub_name ub))).
Proof.
  revert pool pre'. induction pre as [|x pre IH]; intros pool pre'; simpl.
  - intros [= <- <-] Hf He. by rewrite gather_uniform_block_spec, Hf, He.
  - destruct (gather_uniform_block inp pool x) as [[p1 x1] [err|]]; [done|].
    destruct (gather_uniform_blocks_of inp p1 pre) as [[p2 pre2] e2] eqn:Hrest.
    intros [= <- <- ->] Hf He. by rewrite (IH _ _ Hrest Hf He).
Qed.

Lemma gather_images_of_reaches inp pool pre img post pool1 pre' (k : nat) e :
  gather_images_of inp pool pre = (pool1, pre', None) →
  list_find (λ e, img_name e = img_name img) pool1 = Some (k, e) →
  img_equals img e = false →
  gather_images_of inp pool (pre ++ img :: post)
  = (pool1, pre' ++ img :: post, Some (img_conflict inp (img_name img))).
Proof.
  revert pool pre'. induction pre as [|x pre IH]; intros pool pre'; simpl.
  - intros [= <- <-] Hf He. by rewrite gather_image_spec, Hf, He.
  - destruct (gather_image inp pool x) as [[p1 x1] [err|]]; [done|].
    destruct (gather_images_of inp p1 pre) as [[p2 pre2] e2] eqn:Hrest.
    intros [= <- <- ->] Hf He. by rewrite (IH _ _ Hrest Hf He).
Qed.

Lemma gather_uniform_blocks_in_reaches inp pool spre src spost pre ub post
    pool0 spre' pool1 pre' (k : nat) e :
  uniform_blocks (refl src) = pre ++ ub :: post →
  gather_uniform_blocks_in inp pool spre = (pool0, spre', None) →
  gather_uniform_blocks_of inp pool0 pre = (pool1, pre', None) →
  list_find (λ e, ub_name e = ub_name ub) pool1 = Some (k, e) →
  ub_equals ub e = false →
  gather_uniform_blocks_in inp pool (spre ++ src :: spost)
  = (pool1, spre' ++ set_uniform_blocks src (pre' ++ ub :: post) :: spost,
     Some (ub_conflict inp (ub_name ub))).
Proof.
  intros Hsrc. revert pool spre'.
  induction spre as [|s spre IH]; intros pool spre'; simpl.
  - intros [= <- <-] Hof Hf He. rewrite Hsrc.
    by rewrite (gather_uniform_blocks_of_reaches _ _ _ _ _ _ _ _ _ Hof Hf He).
  - destruct (gather_uniform_blocks_of inp pool _) as [[p1 ubs1] [err|]];
      [done|].
    destruct (gather_uniform_blocks_in inp p1 spre) as [[p2 ss2] e2] eqn:Hrest.
    intros [= <- <- ->] Hof Hf He. by rewrite (IH _ _ Hrest Hof Hf He).
Qed.

Lemma gather_images_in_reaches inp pool spre src spost pre img post
    pool0 spre' pool1 pre' (k : nat) e :
  images (refl src) = pre ++ img :: post →
  gather_images_in inp pool spre = (pool0, spre', None) →
  gather_images_of inp pool0 pre = (pool1, pre', None) →
  list_find (λ e, img_name e = img_name img) pool1 = Some (k, e) →
  img_equals img e = false →
  gather_images_in inp pool (spre ++ src :: spost)
  = (pool1, spre' ++ set_images src (pre' ++ img :: post) :: spost,
     Some (img_conflict inp (img_name img))).
Proof.
  intros Hsrc. revert pool spre'.
  induction spre as [|s spre IH]; intros pool spre'; simpl.
  - intros [= <- <-] Hof Hf He. rewrite Hsrc.
    by rewrite (gather_images_of_reaches _ _ _ _ _ _ _ _ _ Hof Hf He).
  - destruct (gather_images_of inp pool _) as [[p1 imgs1] [err|]]; [done|].
    destruct (gather_images_in inp p1 spre) as [[p2 ss2] e2] eqn:Hrest.
    intros [= <- <- ->] Hof Hf He. by rewrite (IH _ _ Hrest Hof Hf He).
Qed.

Lemma ub_conflict_reached_fails inp spv ub result :
  ub_conflict_reached inp spv ub result →
  gather_unique_uniform_blocks inp spv = (false, result)
  ∧ error result = ub_conflict inp (ub_name ub)
  ∧ err_valid (error result) = true.
Proof.
  intros (spre & spre' & src & spost & pre & pre' & post & pool0 & pool1 & k & e
          & Hs & Hb & Hin & Hof & Hf & He & ->).
  split; [|done]. unfold gather_unique_uniform_blocks. rewrite Hs.
  by rewrite (gather_uniform_blocks_in_reaches _ _ _ _ _ _ _ _ _ _ _ _ _ _
                Hb Hin Hof Hf He).
Qed.

Lemma img_conflict_reached_fails inp spv img result :
  img_conflict_reached inp spv img result →
  gather_unique_images inp spv = (false, result)
  ∧ error result = img_conflict inp (img_name img)
  ∧ err_valid (error result) = true.
Proof.
  intros (spre & spre' & src & spost & pre & pre' & post & pool0 & pool1 & k & e
          & Hs & Hb & Hin & Hof & Hf & He & ->).
  split; [|done]. unfold gather_unique_images. rewrite Hs.
  by rewrite (gather_images_in_reaches _ _ _ _ _ _ _ _ _ _ _ _ _ _
                Hb Hin Hof Hf He).
Qed.

(** a conflict that a round of the pass reaches ends the pass *)
Lemma translate_conflict_reached inp spirv slang pre blob post spv src :
  blobs spirv = pre ++ blob :: post →
  translate_blobs inp slang spirvcross_empty pre = Some (true, spv) →
  blob_translates inp slang blob src →
  (∀ ub result,
     ub_conflict_reached inp (with_source_of spv blob src) ub result →
     translate inp spirv slang = Some result
     ∧ error result = ub_conflict inp (ub_name ub)
     ∧ err_valid (error result) = true)
  ∧ (∀ spv1 img result,
       gather_unique_uniform_blocks inp (with_source_of spv blob src)
       = (true, spv1) →
       img_conflict_reached inp spv1 img result →
       translate inp spirv slang = Some result
       ∧ error result = img_conflict inp (img_name img)
       ∧ err_valid (error result) = true).
Proof.
  intros Hblobs Hpre (snippet & Hsn & Hty & Hsw & Hvalid).
  destruct (translate_blob_conflict inp slang spv blob snippet src
              Hsn Hty Hsw Hvalid) as [Hu Hi].
  split.
  - intros ub result (Hg & He & Hv)%ub_conflict_reached_fails.
    split; [|done]. eapply translate_returns_at_failure; [done..|].
    by apply Hu.
  - intros spv1 img result Hg1 (Hg & He & Hv)%img_conflict_reached_fails.
    split; [|done]. eapply translate_returns_at_failure; [done..|].
    by eapply Hi.
Qed.

(** *** The occurrences after a round without conflict *)

Lemma ub_matched_mono pool pool' ub ub' :
  pool `prefix_of` pool' → ub_matched pool ub ub' → ub_matched pool' ub ub'.
Proof.
  intros Hpre (k & e & ? & Hk & ? & ?). exists k, e.
  split; [done|]. split; [by eapply prefix_lookup_Some|done].
Qed.

Lemma img_matched_mono pool pool' img img' :
  pool `prefix_of` pool' → img_matched pool img img' →
  img_matched pool' img img'.
Proof.
  intros Hpre (k & e & ? & Hk & ? & ?). exists k, e.
  split; [done|]. split; [by eapply prefix_lookup_Some|done].
Qed.

Lemma gather_uniform_block_matched inp pool ub pool' ub' :
  gather_uniform_block inp pool ub = (pool', ub', None) →
  ub_matched pool' ub ub' ∧ pool `prefix_of` pool'.
Proof.
  rewrite gather_uniform_block_spec.
  destruct (list_find _ pool) as [[k e]|] eqn:Hf.
  - apply list_find_Some in Hf as (Hk & Hn & _).
    destruct (ub_equals ub e) eqn:He; [|done]. intros [= <- <-].
    split; [|done]. exists k, e. by repeat split; auto.
  - intros [= <- <-]. split; [|by apply prefix_app_r].
    exists (length pool), (set_ub_unique_index ub (Z.of_nat (length pool))).
    split; [done|]. split; [by apply list_lookup_middle|]. split; [done|].
    by right.
Qed.

Lemma gather_image_matched inp pool img pool' img' :
  gather_image inp pool img = (pool', img', None) →
  img_matched pool' img img' ∧ pool `prefix_of` pool'.
Proof.
  rewrite gather_image_spec.
  destruct (list_find _ pool) as [[k e]|] eqn:Hf.
  - apply list_find_Some in Hf as (Hk & Hn & _).
    destruct (img_equals img e) eqn:He; [|done]. intros [= <- <-].
    split; [|done]. exists k, e. by repeat split; auto.
  - intros [= <- <-]. split; [|by apply prefix_app_r].
    exists (length pool), (set_img_unique_index img (Z.of_nat (length pool))).
    split; [done|]. split; [by apply list_lookup_middle|]. split; [done|].
    by right.
Qed.

Lemma gather_uniform_blocks_of_matched inp pool ubs pool' ubs' :
  gather_uniform_blocks_of inp pool ubs = (pool', ubs', None) →
  Forall2 (ub_matched pool') ubs ubs' ∧ pool `prefix_of` pool'.
Proof.
  revert pool ubs'. induction ubs as [|ub ubs IH]; intros pool ubs'; simpl.
  - intros [= <- <-]. by split; [constructor|].
  - destruct (gather_uniform_block inp pool ub) as [[p1 u1] [err|]] eqn:Hb;
      [done|].
    destruct (gather_uniform_blocks_of inp p1 ubs) as [[p2 us2] e2] eqn:Hrest.
    intros [= <- <- ->].
    apply gather_uniform_block_matched in Hb as [Hm Hp1].
    destruct (IH _ _ Hrest) as [HF Hp2].
    split; [|by etrans]. constructor; [by eapply ub_matched_mono|done].
Qed.

Lemma gather_images_of_matched inp pool imgs pool' imgs' :
  gather_images_of inp pool imgs = (pool', imgs', None) →
  Forall2 (img_matched pool') imgs imgs' ∧ pool `prefix_of` pool'.
Proof.
  revert pool imgs'. induction imgs as [|img imgs IH]; intros pool imgs'; simpl.
  - intros [= <- <-]. by split; [constructor|].
  - destruct (gather_image inp pool img) as [[p1 u1] [err|]] eqn:Hb; [done|].
    destruct (gather_images_of inp p1 imgs) as [[p2 us2] e2] eqn:Hrest.
    intros [= <- <- ->].
    apply gather_image_matched in Hb as [Hm Hp1].
    destruct (IH _ _ Hrest) as [HF Hp2].
    split; [|by etrans]. constructor; [by eapply img_matched_mono|done].
Qed.

Lemma gather_uniform_blocks_in_matched inp pool srcs pool' srcs' :
  gather_uniform_blocks_in inp pool srcs = (pool', srcs', None) →
  Forall2 (λ src src', Forall2 (ub_matched pool') (uniform_blocks (refl src))
                         (uniform_blocks (refl src'))) srcs srcs'
  ∧ pool `prefix_of` pool'.
Proof.
  revert pool srcs'. induction srcs as [|src srcs IH]; intros pool srcs'; simpl.
  - intros [= <- <-]. by split; [constructor|].
  - destruct (gather_uniform_blocks_of inp pool _) as [[p1 ubs1] [err|]] eqn:Hof;
      [done|].
    destruct (gather_uniform_blocks_in inp p1 srcs) as [[p2 ss2] e2] eqn:Hrest.
    intros [= <- <- ->].
    apply gather_uniform_blocks_of_matched in Hof as [Hm Hp1].
    destruct (IH _ _ Hrest) as [HF Hp2].
    split; [|by etrans]. constructor; [|done]. simpl.
    eapply Forall2_impl; [exact Hm|]. intros. by eapply ub_matched_mono.
Qed.

Lemma gather_images_in_matched inp pool srcs pool' srcs' :
  gather_images_in inp pool srcs = (pool', srcs', None) →
  Forall2 (λ src src', Forall2 (img_matched pool') (images (refl src))
                         (images (refl src'))) srcs srcs'
  ∧ pool `prefix_of` pool'.
Proof.
  revert pool srcs'. induction srcs as [|src srcs IH]; intros pool srcs'; simpl.
  - intros [= <- <-]. by split; [constructor|].
  - destruct (gather_images_of inp pool _) as [[p1 imgs1] [err|]] eqn:Hof;
      [done|].
    destruct (gather_images_in inp p1 srcs) as [[p2 ss2] e2] eqn:Hrest.
    intros [= <- <- ->].
    apply gather_images_of_matched in Hof as [Hm Hp1].
    destruct (IH _ _ Hrest) as [HF Hp2].
    split; [|by etrans]. constructor; [|done]. simpl.
    eapply Forall2_impl; [exact Hm|]. intros. by eapply img_matched_mono.
Qed.

Lemma gather_unique_uniform_blocks_matched inp spv spv' :
  gather_unique_uniform_blocks inp spv = (true, spv') →
  Forall2 (λ src src',
             Forall2 (ub_matched (unique_uniform_blocks spv'))
               (uniform_blocks (refl src)) (uniform_blocks (refl src')))
    (sources spv) (sources spv').
Proof.
  intros (e & Hin & _ & Hok & _)%gather_unique_uniform_blocks_spec.
  destruct e; [done|]. by apply gather_uniform_blocks_in_matched in Hin as [? _].
Qed.

Lemma gather_unique_images_matched inp spv spv' :
  gather_unique_images inp spv = (true, spv') →
  Forall2 (λ src src',
             Forall2 (img_matched (unique_images spv'))
               (images (refl src)) (images (refl src')))
    (sources spv) (sources spv').
Proof.
  intros (e & Hin & _ & Hok & _)%gather_unique_images_spec.
  destruct e; [done|]. by apply gather_images_in_matched in Hin as [? _].
Qed.


Lemma translate_switch_unindexed slang blob opt_mask type src :
  translate_switch slang blob opt_mask type = Some src →
  Forall (λ ub, ub_unique_index ub = -1) (uniform_blocks (refl src))
  ∧ Forall (λ img, img_unique_index img = -1) (images (refl src)).
Proof.
  rewrite translate_switch_unfold. case_bool_decide; simpl.
  - intros [= <-]. by split; constructor.
  - destruct (parse_reflection _ _) as [r|] eqn:Hr; simpl; [|done].
    apply parse_reflection_fields in Hr as (_ & _ & Hub & Himg).
    intros [= <-]. simpl.
    assert (uniform_blocks (if is_metal slang
                            then set_entry_point r (entry_point r +:+ "0")
                            else r) = uniform_blocks r
            ∧ images (if is_metal slang
                      then set_entry_point r (entry_point r +:+ "0")
                      else r) = images r) as [-> ->]
      by by destruct (is_metal slang).
    rewrite Hub, Himg. split; by apply Forall_fmap, Forall_true.
Qed.

Lemma ub_matched_same pool ub : ub_matched pool ub ub → ub_agrees pool ub.
Proof.
  intros (k & e & Hub & Hk & Hn & He). exists k, e.
  split; [by rewrite Hub|]. split; [done|]. split; [done|].
  destruct He; auto.
Qed.

Lemma ub_matched_new pool ub ub' :
  ub_unique_index ub = -1 → ub_matched pool ub ub' → ub_agrees pool ub'.
Proof.
  intros Hidx (k & e & -> & Hk & Hn & He). exists k, e.
  split; [done|]. split; [done|]. split; [done|].
  destruct He as [He|He]; [|by left]. right. right.
  destruct ub. simpl in *. by subst.
Qed.

Lemma img_matched_same pool img : img_matched pool img img → img_agrees pool img.
Proof.
  intros (k & e & Himg & Hk & Hn & He). exists k, e.
  split; [by rewrite Himg|]. split; [done|]. split; [done|].
  destruct He; auto.
Qed.

Lemma img_matched_new pool img img' :
  img_unique_index img = -1 → img_matched pool img img' → img_agrees pool img'.
Proof.
  intros Hidx (k & e & -> & Hk & Hn & He). exists k, e.
  split; [done|]. split; [done|]. split; [done|].
  destruct He as [He|He]; [|by left]. right. right.
  destruct img. simpl in *. by subst.
Qed.

Lemma Forall2_diag_elem_of {A} (P : A → A → Prop) l x :
  Forall2 P l l → x ∈ l → P x x.
Proof.
  intros HF [i Hi]%list_elem_of_lookup. by eapply Forall2_lookup_lr.
Qed.

(** after a round of the loop over the blobs that goes on, every block
    and image agrees with the pool entry it points at *)
Lemma translate_blob_agrees inp slang spv blob r done :
  pass_inv spv done →
  translate_blob inp slang spv blob = Some (true, r) →
  pools_agree r.
Proof.
  intros ((Hpu & Hnu & Hau & Hpi & Hni & Hai) & _ & _). unfold translate_blob.
  destruct (vec_at (snippets inp) _) as [snippet|]; simpl; [|done].
  case_match; [done|].
  destruct (translate_switch _ _ _ _) as [src|] eqn:Hsw; simpl; [|done].
  destruct (src_valid src); [|by destruct (vec_at _ _)].
  destruct (gather_unique_uniform_blocks _ _) as [[] spv1] eqn:Hg1; [|done].
  destruct (gather_unique_images _ _) as [[] spv2] eqn:Hg2; [|done].
  simpl. intros [= <-].
  apply translate_switch_unindexed in Hsw as [Hnu0 Hni0].
  pose proof (gather_unique_uniform_blocks_matched _ _ _ Hg1) as Hm1.
  pose proof (gather_unique_images_matched _ _ _ Hg2) as Hm2.
  apply gather_unique_uniform_blocks_spec in Hg1 as (e1 & Hin1 & Himgs1 & Hok1 & _).
  apply gather_unique_images_spec in Hg2 as (e2 & Hin2 & Hubs2 & Hok2 & _).
  destruct e1; [done|]. destruct e2; [done|]. simpl in *.
  pose proof (gather_uniform_blocks_in_frame _ _ _ _ _ _ Hin1) as Hf1.
  pose proof (gather_images_in_frame _ _ _ _ _ _ Hin2) as Hf2.
  rewrite Himgs1 in Hin2.
  apply gather_uniform_blocks_in_resumed in Hin1 as (rest1 & Hs1 & Hr1);
    [|by rewrite Hnu; apply first_seen_NoDup; constructor
     |apply Forall_forall; intros s Hs; apply Forall_forall; intros ub Hub;
      by eapply Hau].
  apply gather_in_one_length in Hr1 as [src1 ->].
  rewrite Hs1 in Hin2, Hm2, Hf2, Hm1, Hf1.
  apply gather_images_in_resumed in Hin2 as (rest2 & Hs2 & Hr2);
    [|by rewrite Hni; apply first_seen_NoDup; constructor
     |apply Forall_forall; intros s Hs; apply Forall_forall; intros img Himg;
      by eapply Hai].
  apply gather_images_in_one_length in Hr2 as [src2 ->].
  rewrite Hs2 in Hm2, Hf2.
  apply Forall2_app_inv in Hm1 as [Hm1 Hl1]; [|done].
  apply Forall2_app_inv in Hm2 as [Hm2 Hl2]; [|done].
  apply Forall2_app_inv in Hf1 as [_ Hf1]; [|done].
  apply Forall2_app_inv in Hf2 as [_ Hf2]; [|done].
  apply Forall2_cons_1 in Hl1 as [Hl1 _]. apply Forall2_cons_1 in Hl2 as [Hl2 _].
  apply Forall2_cons_1 in Hf1 as [Hf1 _]. apply Forall2_cons_1 in Hf2 as [Hf2 _].
  apply same_but_ubs_core in Hf1 as [_ Hi1].
  apply same_but_images_core in Hf2 as [_ Hu2].
  simpl in Hl1, Hi1. rewrite Hi1 in Hl2. rewrite <-Hu2 in Hl1.
  unfold pools_agree. rewrite Hs2, Hubs2. split.
  - intros s ub [Hs| ->%list_elem_of_singleton]%elem_of_app Hub.
    + apply ub_matched_same.
      eapply (Forall2_diag_elem_of _ _ ub); [|done].
      by eapply (Forall2_diag_elem_of _ _ s Hm1).
    + apply list_elem_of_lookup in Hub as [j Hj].
      destruct (Forall2_lookup_r _ _ _ _ _ Hl1 Hj) as (ub0 & Hj0 & Hm).
      eapply ub_matched_new; [|done].
      rewrite Forall_forall in Hnu0. apply Hnu0.
      by eapply list_elem_of_lookup_2.
  - intros s img [Hs| ->%list_elem_of_singleton]%elem_of_app Himg.
    + apply img_matched_same.
      eapply (Forall2_diag_elem_of _ _ img); [|done].
      by eapply (Forall2_diag_elem_of _ _ s Hm2).
    + apply list_elem_of_lookup in Himg as [j Hj].
      destruct (Forall2_lookup_r _ _ _ _ _ Hl2 Hj) as (img0 & Hj0 & Hm).
      eapply img_matched_new; [|done].
      rewrite Forall_forall in Hni0. apply Hni0.
      by eapply list_elem_of_lookup_2.
Qed.

Lemma pools_agree_empty : pools_agree spirvcross_empty.
Proof. split; intros ? ? Hs; by apply elem_of_nil in Hs. Qed.

Lemma translate_blobs_agree inp slang spv blobs r done :
  pass_inv spv done → pools_agree spv →
  translate_blobs inp slang spv blobs = Some (true, r) →
  pools_agree r.
Proof.
  revert spv done. induction blobs as [|blob blobs IH]; intros spv done Hinv Ha;
    simpl; [by intros [= <-]|].
  destruct (translate_blob inp slang spv blob) as [[[] spv1]|] eqn:Hb;
    [|done..].
  apply (IH spv1 (done ++ [blob])).
  - by eapply translate_blob_continue.
  - by eapply translate_blob_agrees.
Qed.

Lemma translate_pools_agree inp spirv slang r :
  translate inp spirv slang = Some r →
  err_valid (error r) = false →
  pools_agree r.
Proof.
  intros Hr Herr. pose proof (translate_ok_loop _ _ _ _ Hr Herr) as Hloop.
  eapply translate_blobs_agree; [apply pass_inv_empty|apply pools_agree_empty|].
  exact Hloop.
Qed.

(** *** What a pass without error has passed *)

Lemma translate_blob_translates inp slang spv blob spv' :
  translate_blob inp slang spv blob = Some (true, spv') →
  ∃ src, blob_translates inp slang blob src.
Proof.
  unfold translate_blob.
  destruct (vec_at (snippets inp) _) as [snippet|] eqn:Hsn; simpl; [|done].
  case_match eqn:Hty; [done|].
  destruct (translate_switch _ _ _ _) as [src|] eqn:Hsw; simpl; [|done].
  destruct (src_valid src) eqn:Hvalid;
    [|by destruct (vec_at (snippet_lines snippet) 0)].
  intros _. exists src, snippet. split; [done|]. split; [|done].
  apply negb_false_iff, orb_true_iff in Hty as [Hty|Hty];
    apply bool_decide_eq_true in Hty; auto.
Qed.

Lemma translate_blobs_translate inp slang spv blobs spv' :
  translate_blobs inp slang spv blobs = Some (true, spv') →
  Forall (λ blob, ∃ src, blob_translates inp slang blob src) blobs.
Proof.
  revert spv. induction blobs as [|blob blobs IH]; intros spv; simpl;
    [constructor|].
  destruct (translate_blob inp slang spv blob) as [[[] spv1]|] eqn:Hb;
    [|done..].
  intros Hrest. constructor; [by eapply translate_blob_translates|].
  by eapply IH.
Qed.

Lemma link_slots_None_inv inp prog vs_src fs_src count i :
  link_slots inp prog vs_src fs_src count i = Some None →
  slots_equal vs_src fs_src i (i + Z.of_nat count).
Proof.
  revert i. induction count as [|count IH]; intros i; simpl.
  - intros _ j Hj. lia.
  - destruct (vec_at (outputs _) i) as [a|] eqn:Ha; simpl; [|done].
    destruct (vec_at (inputs _) i) as [b|] eqn:Hb; simpl; [|done].
    destruct (attr_equals a b) eqn:Hab; simpl; [|done].
    intros Hrest%IH j Hj. destruct (decide (j = i)) as [->|Hne].
    + by exists a, b.
    + apply Hrest. lia.
Qed.

Lemma link_slots_error_valid inp prog vs_src fs_src count i err :
  link_slots inp prog vs_src fs_src count i = Some (Some err) →
  err_valid err = true.
Proof.
  revert i. induction count as [|count IH]; intros i; simpl; [done|].
  destruct (vec_at (outputs _) i) as [a|]; simpl; [|done].
  destruct (vec_at (inputs _) i) as [b|]; simpl; [|done].
  destruct (attr_equals a b); simpl; [apply IH|]. by intros [= <-].
Qed.

Lemma link_programs_ok_inv inp spv progs err :
  link_programs inp spv progs = Some err →
  err_valid err = false →
  Forall (λ prog_item, program_links inp spv prog_item.2) progs.
Proof.
  induction progs as [|p progs IH]; simpl; [constructor|].
  unfold link_program at 1.
  destruct (linked_sources inp spv p.2) as [[vs fs]|] eqn:Hsrc; simpl; [|done].
  destruct (link_slots inp p.2 vs fs attr_NUM 0) as [[e|]|] eqn:Hsl; simpl;
    [| |done].
  - intros [= <-] Hv. apply link_slots_error_valid in Hsl. congruence.
  - intros Hrest Hv. constructor; [|by apply IH].
    exists vs, fs. split; [done|]. by apply link_slots_None_inv in Hsl.
Qed.

Lemma translate_ok_links inp spirv slang r :
  translate inp spirv slang = Some r →
  err_valid (error r) = false →
  Forall (λ prog_item, program_links inp r prog_item.2) (programs inp).
Proof.
  unfold translate.
  destruct (translate_blobs _ _ _ _) as [[[] spv]|] eqn:Hloop; [| |done].
  - destruct (validate_linking inp spv) as [err|] eqn:Hl; simpl; [|done].
    destruct (err_valid err) eqn:Hv; intros [= <-]; simpl; [congruence|].
    intros _. by eapply link_programs_ok_inv.
  - intros [= <-] Herr.
    destruct (translate_blobs_stop _ _ _ _ _ Hloop)
      as (pre & blob & post & spv1 & _ & _ & Hstop).
    apply translate_blob_stop in Hstop as (Hvalid & _). congruence.
Qed.

Lemma translate_ok_sources inp spirv slang r :
  translate inp spirv slang = Some r →
  err_valid (error r) = false →
  sources_match (sources r) (blobs spirv).
Proof.
  intros Hr Herr. pose proof (translate_ok_loop _ _ _ _ Hr Herr) as Hloop.
  by destruct (translate_blobs_continue _ _ _ _ _ [] pass_inv_empty Hloop)
    as (_ & _ & ?).
Qed.

(** a blob that the translator turns into no text ends the pass *)
Lemma translate_rejected inp spirv slang pre blob post spv snippet line_index
    lines :
  blobs spirv = pre ++ blob :: post →
  translate_blobs inp slang spirvcross_empty pre = Some (true, spv) →
  vec_at (snippets inp) (blob_snippet_index blob) = Some snippet →
  snippet_type_of snippet = VS ∨ snippet_type_of snippet = FS →
  snippet_lines snippet = line_index :: lines →
  emitted slang blob (snippet_options snippet slang)
    (snippet_type_of snippet) = "" →
  translate inp spirv slang
  = Some (set_error spv (cross_compile_error inp slang line_index)).
Proof.
  intros Hblobs Hpre Hsn Hty Hlines Hem.
  eapply translate_returns_at_failure; [done..|].
  unfold translate_blob. rewrite Hsn. simpl.
  assert (negb (bool_decide (snippet_type_of snippet = VS)
                || bool_decide (snippet_type_of snippet = FS)) = false)
    as -> by (destruct Hty as [-> | ->]; done).
  rewrite translate_switch_unfold, Hem. simpl.
  unfold vec_at. simpl. by rewrite Hlines.
Qed.

(** the validator's verdict is the verdict of the pass *)
Lemma translate_linked inp spirv slang spv :
  translate_blobs inp slang spirvcross_empty (blobs spirv) = Some (true, spv) →
  Forall (λ prog_item, program_links inp spv prog_item.2) (programs inp) →
  translate inp spirv slang = Some spv ∧ err_valid (error spv) = false.
Proof.
  intros Hloop Hall. unfold translate, validate_linking. rewrite Hloop.
  rewrite (link_programs_all _ _ _ Hall). simpl. split; [done|].
  by destruct (translate_blobs_continue _ _ _ _ _ [] pass_inv_empty Hloop)
    as (_ & ? & _).
Qed.

Lemma translate_mismatch inp spirv slang spv pre prog_item post vs_src fs_src
    m vs_out fs_inp :
  translate_blobs inp slang spirvcross_empty (blobs spirv) = Some (true, spv) →
  programs inp = pre ++ prog_item :: post →
  Forall (λ prog_item, program_links inp spv prog_item.2) pre →
  linked_sources inp spv prog_item.2 = Some (vs_src, fs_src) →
  0 ≤ m < Z.of_nat attr_NUM →
  slots_equal vs_src fs_src 0 m →
  vec_at (outputs (refl vs_src)) m = Some vs_out →
  vec_at (inputs (refl fs_src)) m = Some fs_inp →
  attr_equals vs_out fs_inp = false →
  translate inp spirv slang
  = Some (set_error spv (mismatch_error inp prog_item.2 m vs_out fs_inp)).
Proof.
  intros Hloop Hprogs Hpre Hsrc Hm Heq Ha Hb Hab.
  unfold translate, validate_linking. rewrite Hloop, Hprogs.
  by rewrite (link_programs_first_mismatch _ _ _ _ _ _ _ _ _ _ Hpre Hsrc Hm
                Heq Ha Hb Hab).
Qed.


(** C1: for every uniform block and every image that the deduplicator
    reaches in a pass: if the pool has an entry of the same name that is
    structurally equal, the occurrence receives that entry's
    [unique_index]; if the entry differs, the deduplicator reports the
    conflict error naming the resource, leaves that resource and
    everything after it untouched, and the pass returns at once with
    that error; if the pool has no entry of that name, the resource is
    appended with the pool's size as its index. So a structurally
    different occurrence makes the deduplicator and the pass fail: when
    the walk over the sources reaches, without a conflict before it, a
    block or image whose pool entry differs, the deduplicator returns
    [false] and the pass returns the result built up to there with the
    conflict error for that resource. And when the deduplicator returns
    [true], every occurrence carries the index of a pool entry of its
    name to which it was found equal or which is the occurrence itself.
    The pools of a pass that ends without error are therefore indexed
    from 0 in first-seen order, and every block and image points at the
    entry of its name and agrees with it. *)
Theorem dedup_assigns_first_seen_indices (inp : input_t) :
  (∀ pool ub, ub_pool_indexed pool →
     match list_find (λ e, ub_name e = ub_name ub) pool with
     | Some (_, e) =>
         if ub_equals ub e then
           gather_uniform_block inp pool ub
           = (pool, set_ub_unique_index ub (ub_unique_index e), None)
         else
           gather_uniform_block inp pool ub
           = (pool, ub, Some (ub_conflict inp (ub_name ub)))
     | None =>
         let ub' := set_ub_unique_index ub (Z.of_nat (length pool)) in
         gather_uniform_block inp pool ub = (pool ++ [ub'], ub', None)
     end)
  ∧ (∀ pool img, img_pool_indexed pool →
       match list_find (λ e, img_name e = img_name img) pool with
       | Some (_, e) =>
           if img_equals img e then
             gather_image inp pool img
             = (pool, set_img_unique_index img (img_unique_index e), None)
           else
             gather_image inp pool img
             = (pool, img, Some (img_conflict inp (img_name img)))
       | None =>
           let img' := set_img_unique_index img (Z.of_nat (length pool)) in
           gather_image inp pool img = (pool ++ [img'], img', None)
       end)
  ∧ (∀ spv spv', gather_unique_uniform_blocks inp spv = (false, spv') →
       ∃ spre spre' src spost pre pre' ub post,
         sources spv = spre ++ src :: spost
         ∧ uniform_blocks (refl src) = pre ++ ub :: post
         ∧ sources spv'
           = spre' ++ set_uniform_blocks src (pre' ++ ub :: post) :: spost
         ∧ error spv' = ub_conflict inp (ub_name ub)
         ∧ ∃ e, e ∈ unique_uniform_blocks spv' ∧ ub_name e = ub_name ub
                ∧ ub_equals ub e = false)
  ∧ (∀ spv spv', gather_unique_images inp spv = (false, spv') →
       ∃ spre spre' src spost pre pre' img post,
         sources spv = spre ++ src :: spost
         ∧ images (refl src) = pre ++ img :: post
         ∧ sources spv' = spre' ++ set_images src (pre' ++ img :: post) :: spost
         ∧ error spv' = img_conflict inp (img_name img)
         ∧ ∃ e, e ∈ unique_images spv' ∧ img_name e = img_name img
                ∧ img_equals img e = false)
  ∧ (∀ slang spv blob snippet src,
       vec_at (snippets inp) (blob_snippet_index blob) = Some snippet →
       snippet_type_of snippet = VS ∨ snippet_type_of snippet = FS →
       translate_switch slang blob (snippet_options snippet slang)
         (snippet_type_of snippet) = Some src →
       src_valid src = true →
       let pushed :=
         push_source spv (set_snippet_index src (blob_snippet_index blob)) in
       (∀ spv', gather_unique_uniform_blocks inp pushed = (false, spv') →
                translate_blob inp slang spv blob = Some (false, spv'))
       ∧ (∀ spv1 spv',
            gather_unique_uniform_blocks inp pushed = (true, spv1) →
            gather_unique_images inp spv1 = (false, spv') →
            translate_blob inp slang spv blob = Some (false, spv')))
  ∧ (∀ spirv slang pre blob post spv r,
       blobs spirv = pre ++ blob :: post →
       translate_blobs inp slang spirvcross_empty pre = Some (true, spv) →
       translate_blob inp slang spv blob = Some (false, r) →
       translate inp spirv slang = Some r)
  ∧ (∀ spirv slang r,
       translate inp spirv slang = Some r →
       err_valid (error r) = false →
       pools_in_first_seen_order r)
  (* a structurally different occurrence makes the deduplicator fail *)
  ∧ (∀ spv ub result,
       ub_conflict_reached inp spv ub result →
       gather_unique_uniform_blocks inp spv = (false, result)
       ∧ error result = ub_conflict inp (ub_name ub)
       ∧ err_valid (error result) = true)
  ∧ (∀ spv img result,
       img_conflict_reached inp spv img result →
       gather_unique_images inp spv = (false, result)
       ∧ error result = img_conflict inp (img_name img)
       ∧ err_valid (error result) = true)
  (* and the pass with it *)
  ∧ (∀ spirv slang pre blob post spv src,
       blobs spirv = pre ++ blob :: post →
       translate_blobs inp slang spirvcross_empty pre = Some (true, spv) →
       blob_translates inp slang blob src →
       (∀ ub result,
          ub_conflict_reached inp (with_source_of spv blob src) ub result →
          translate inp spirv slang = Some result
          ∧ error result = ub_conflict inp (ub_name ub)
          ∧ err_valid (error result) = true)
       ∧ (∀ spv1 img result,
            gather_unique_uniform_blocks inp (with_source_of spv blob src)
            = (true, spv1) →
            img_conflict_reached inp spv1 img result →
            translate inp spirv slang = Some result
            ∧ error result = img_conflict inp (img_name img)
            ∧ err_valid (error result) = true))
  (* without a conflict every occurrence is matched with a pool entry *)
  ∧ (∀ spv spv',
       gather_unique_uniform_blocks inp spv = (true, spv') →
       Forall2 (λ src src',
                  Forall2 (ub_matched (unique_uniform_blocks spv'))
                    (uniform_blocks (refl src)) (uniform_blocks (refl src')))
         (sources spv) (sources spv'))
  ∧ (∀ spv spv',
       gather_unique_images inp spv = (true, spv') →
       Forall2 (λ src src',
                  Forall2 (img_matched (unique_images spv'))
                    (images (refl src)) (images (refl src')))
         (sources spv) (sources spv'))
  ∧ (∀ spirv slang r,
       translate inp spirv slang = Some r →
       err_valid (error r) = false →
       pools_agree r).
Proof.
  split; [|split; [|split; [|split; [|split; [|split; [|split; [|split;
    [|split; [|split; [|split; [|split]]]]]]]]]]].
  - intros pool ub Hp. rewrite gather_uniform_block_spec.
    destruct (list_find _ pool) as [[k e]|] eqn:Hfind; [|done].
    apply list_find_Some in Hfind as (Hk & _). rewrite (Hp _ _ Hk).
    by destruct (ub_equals ub e).
  - intros pool img Hp. rewrite gather_image_spec.
    destruct (list_find _ pool) as [[k e]|] eqn:Hfind; [|done].
    apply list_find_Some in Hfind as (Hk & _). rewrite (Hp _ _ Hk).
    by destruct (img_equals img e).
  - intros spv spv' (e & Hin & _ & Hok & Herr)%gather_unique_uniform_blocks_spec.
    destruct e as [e|]; [|done]. rewrite Herr.
    apply gather_uniform_blocks_in_conflict in Hin
      as (spre & spre' & src & spost & pre & pre' & ub & post & H1 & H2 & H3
          & H4 & H5).
    by exists spre, spre', src, spost, pre, pre', ub, post.
  - intros spv spv' (e & Hin & _ & Hok & Herr)%gather_unique_images_spec.
    destruct e as [e|]; [|done]. rewrite Herr.
    apply gather_images_in_conflict in Hin
      as (spre & spre' & src & spost & pre & pre' & img & post & H1 & H2 & H3
          & H4 & H5).
    by exists spre, spre', src, spost, pre, pre', img, post.
  - intros. by eapply translate_blob_conflict.
  - intros. by eapply translate_returns_at_failure.
  - intros. by eapply translate_pools.
  - intros. by apply ub_conflict_reached_fails.
  - intros. by apply img_conflict_reached_fails.
  - intros. by eapply translate_conflict_reached.
  - intros. by eapply gather_unique_uniform_blocks_matched.
  - intros. by eapply gather_unique_images_matched.
  - intros. by eapply translate_pools_agree.
Qed.

(** C3: a target pass over a well-formed input returns a result, and the
    result is one of two kinds. Either the pass succeeded: the error is
    unset and there is exactly one valid source per blob, in the order of
    the blobs. Or it failed fast with its one error record set: at the
    first blob whose translation fails or whose blocks or images conflict
    with the pool the pass returns at once, with at most that blob's
    source added and whatever blobs follow; or, all blobs being
    translated, the interface validator reported a mismatch. Each of the
    three events does fail the pass. A pass without error has translated
    every blob to a valid source, its blocks and images agree with the
    pool entries they point at, and every program links at every slot;
    it is the result of the loop over the blobs whenever every program
    links. A blob for which the translator returns no text, the blobs
    before it being translated, makes the pass return what was built so
    far with the cross-compile error at the first line of the blob's
    snippet; a conflict that the deduplicator reaches in the round of a
    blob makes it return with the conflict error; and, all blobs being
    translated, the first program and slot at which vertex output and
    fragment input differ make it return with the mismatch error. *)
Theorem translate_succeeds_or_fails_fast (inp : input_t) (spirv : spirv_t)
    (slang : slang_t) :
  (pass_wf inp spirv slang →
   ∃ r, translate inp spirv slang = Some r ∧
     ((err_valid (error r) = false ∧ sources_match (sources r) (blobs spirv))
      ∨ (err_valid (error r) = true ∧
         ((∃ pre blob post spv,
             blobs spirv = pre ++ blob :: post
             ∧ translate_blobs inp slang spirvcross_empty pre = Some (true, spv)
             ∧ sources_match (sources spv) pre
             ∧ translate_blob inp slang spv blob = Some (false, r)
             ∧ blob_failure inp slang (error r)
             ∧ (length (sources r) ≤ length pre + 1)%nat
             ∧ ∀ post', translate inp {| blobs := pre ++ blob :: post' |} slang
                        = Some r)
          ∨ (∃ spv prog_item m vs_out fs_inp,
               translate_blobs inp slang spirvcross_empty (blobs spirv)
               = Some (true, spv)
               ∧ sources_match (sources spv) (blobs spirv)
               ∧ prog_item ∈ programs inp
               ∧ validate_linking inp spv
                 = Some (mismatch_error inp prog_item.2 m vs_out fs_inp)
               ∧ r = set_error spv
                       (mismatch_error inp prog_item.2 m vs_out fs_inp))))))
  (* what a pass without error has passed *)
  ∧ (∀ r, translate inp spirv slang = Some r →
          err_valid (error r) = false →
          sources_match (sources r) (blobs spirv)
          ∧ Forall (λ blob, ∃ src, blob_translates inp slang blob src)
              (blobs spirv)
          ∧ pools_agree r
          ∧ Forall (λ prog_item, program_links inp r prog_item.2)
              (programs inp))
  ∧ (∀ spv,
       translate_blobs inp slang spirvcross_empty (blobs spirv)
       = Some (true, spv) →
       Forall (λ prog_item, program_links inp spv prog_item.2) (programs inp) →
       translate inp spirv slang = Some spv ∧ err_valid (error spv) = false)
  (* a translation failure fails the pass *)
  ∧ (∀ pre blob post spv snippet line_index lines,
       blobs spirv = pre ++ blob :: post →
       translate_blobs inp slang spirvcross_empty pre = Some (true, spv) →
       vec_at (snippets inp) (blob_snippet_index blob) = Some snippet →
       snippet_type_of snippet = VS ∨ snippet_type_of snippet = FS →
       snippet_lines snippet = line_index :: lines →
       emitted slang blob (snippet_options snippet slang)
         (snippet_type_of snippet) = "" →
       translate inp spirv slang
       = Some (set_error spv (cross_compile_error inp slang line_index))
       ∧ err_valid (cross_compile_error inp slang line_index) = true)
  (* a deduplication conflict fails the pass *)
  ∧ (∀ pre blob post spv src,
       blobs spirv = pre ++ blob :: post →
       translate_blobs inp slang spirvcross_empty pre = Some (true, spv) →
       blob_translates inp slang blob src →
       (∀ ub result,
          ub_conflict_reached inp (with_source_of spv blob src) ub result →
          translate inp spirv slang = Some result
          ∧ error result = ub_conflict inp (ub_name ub)
          ∧ err_valid (error result) = true)
       ∧ (∀ spv1 img result,
            gather_unique_uniform_blocks inp (with_source_of spv blob src)
            = (true, spv1) →
            img_conflict_reached inp spv1 img result →
            translate inp spirv slang = Some result
            ∧ error result = img_conflict inp (img_name img)
            ∧ err_valid (error result) = true))
  (* an interface mismatch fails the pass *)
  ∧ (∀ spv pre prog_item post vs_src fs_src m vs_out fs_inp,
       translate_blobs inp slang spirvcross_empty (blobs spirv)
       = Some (true, spv) →
       programs inp = pre ++ prog_item :: post →
       Forall (λ prog_item, program_links inp spv prog_item.2) pre →
       linked_sources inp spv prog_item.2 = Some (vs_src, fs_src) →
       0 ≤ m < Z.of_nat attr_NUM →
       slots_equal vs_src fs_src 0 m →
       vec_at (outputs (refl vs_src)) m = Some vs_out →
       vec_at (inputs (refl fs_src)) m = Some fs_inp →
       attr_equals vs_out fs_inp = false →
       translate inp spirv slang
       = Some (set_error spv (mismatch_error inp prog_item.2 m vs_out fs_inp))
       ∧ err_valid (mismatch_error inp prog_item.2 m vs_out fs_inp) = true).
Proof.
  split; [|split; [|split; [|split; [|split]]]].
  - intros [Hblobs Hprogs]. unfold translate.
    destruct (translate_blobs_total inp slang spirvcross_empty (blobs spirv))
      as [[[] spv] Hloop].
    { intros blob s Hb.
      destruct (Hblobs blob Hb) as (snippet & Hsn & Hty & Hl & Hsw).
      by eapply translate_blob_total. }
    + (* the loop ran to its end *)
      rewrite Hloop.
      destruct (translate_blobs_continue _ _ _ _ _ [] pass_inv_empty Hloop)
        as (Hpools & Herr & Hsrcs). simpl in Hsrcs.
      assert (map src_snippet_index (sources spv)
              = map blob_snippet_index (blobs spirv)) as Hidx.
      { clear -Hsrcs. induction Hsrcs as [|s b l k (_ & Hi & _) _ IH]; simpl;
          [done|]. by rewrite Hi, IH. }
      destruct (link_programs_total inp spv (programs inp))
        as [Hl|(p & m & a & b & Hp & Hl)].
      * clear -Hsrcs. induction Hsrcs as [|s b l k (_ & _ & Hsz) _ IH];
          by constructor.
      * intros p Hp. rewrite Hidx. by apply Hprogs.
      * unfold validate_linking. rewrite Hl. simpl.
        exists spv. split; [done|]. by left.
      * unfold validate_linking. rewrite Hl. simpl.
        eexists. split; [done|]. right. split; [done|]. right.
        by exists spv, p, m, a, b.
    + (* the loop was left from within *)
      rewrite Hloop. exists spv. split; [done|]. right.
      destruct (translate_blobs_stop _ _ _ _ _ Hloop)
        as (pre & blob & post & spv1 & Hsplit & Hpre & Hstop).
      destruct (translate_blob_stop _ _ _ _ _ Hstop) as (Hvalid & Hcause & Hlen).
      destruct (translate_blobs_continue _ _ _ _ _ [] pass_inv_empty Hpre)
        as (_ & _ & Hsrcs). simpl in Hsrcs.
      split; [done|]. left. exists pre, blob, post, spv1.
      repeat split; try done.
      * apply Forall2_length in Hsrcs. lia.
      * intros post'. simpl.
        by rewrite (translate_blobs_stop_any_tail _ _ _ _ _ _ _ post' Hpre Hstop).
  - intros r Hr Herr.
    split; [by eapply translate_ok_sources|].
    split; [eapply translate_blobs_translate; by eapply translate_ok_loop|].
    split; [by eapply translate_pools_agree|by eapply translate_ok_links].
  - intros. by apply translate_linked.
  - intros. split; [by eapply translate_rejected|done].
  - intros. by eapply translate_conflict_reached.
  - intros. split; [by eapply translate_mismatch|done].
Qed.


End Properties.

(** ** The theorems at concrete inputs *)

#[local] Existing Instance spec_decls.
#[local] Existing Instance example_translator.

Lemma example_vs_resources_wf : resources_wf (get_shader_resources example_vs).
Proof.
  split; [refine (bool_decide_unpack _ _); vm_compute; exact I|].
  split; vm_compute; reflexivity.
Defined.

Lemma fix_bind_slots_overwrites_every_binding_witness :
  slots_assigned (get_shader_resources example_vs)
    (prepared HLSL5 example_vs_blob VS) 0 1.
Proof.
  refine (proj1 (proj2 (proj2 (fix_bind_slots_overwrites_every_binding
    example_vs_blob VS example_vs_resources_wf))) HLSL5 _).
  discriminate.
Defined.

Lemma vulkan_fragment_offset_recovered_witness :
  get_decoration (fix_bind_slots example_vs VS true) 10%N DecorationBinding = 0
  ∧ get_decoration (fix_bind_slots example_vs FS true) 10%N DecorationBinding
    = 0 + 4
  ∧ ub_slot (reflect_uniform_block (fix_bind_slots example_vs FS true) true
               (resource 10%N 1%N "params")) = 0
  ∧ ub_slot (reflect_uniform_block (fix_bind_slots example_vs VS true) true
               (resource 10%N 1%N "params")) = 0.
Proof.
  destruct (vulkan_fragment_offset_recovered example_vs 0
    (resource 10%N 1%N "params") example_vs_resources_wf eq_refl)
    as (Hvs & Hfs0 & Hfs & _ & Hrf & Hrv & _).
  split; [exact Hvs|]. split; [|split; [exact Hrf|apply Hrv; reflexivity]].
  simpl in Hfs, Hfs0. rewrite Hfs, Hfs0. reflexivity.
Defined.

Lemma matrices_colmajor_before_compile_witness :
  matrices_colmajor (bytecode example_vs_blob)
    (prepared HLSL5 example_vs_blob VS).
Proof.
  exact (proj1 (matrices_colmajor_before_compile HLSL5 example_vs_blob VS)
           eq_refl).
Defined.

(** C9 as stated fails on a Metal target: the vertex shader's [mat4 mvp]
    reaches the translator without the column-major decoration. *)
Lemma matrices_colmajor_before_compile_counterexample :
  ¬ matrices_colmajor (bytecode example_vs_blob)
      (prepared METAL_MACOS example_vs_blob VS).
Proof.
  intros Hc.
  specialize (Hc (resource 10%N 1%N "params") 0%nat 2%N).
  assert (has_member_decoration (prepared METAL_MACOS example_vs_blob VS)
            1%N 0 DecorationColMajor = true) as Hd.
  { apply Hc; [by left|reflexivity|]. repeat split; vm_compute; reflexivity. }
  vm_compute in Hd. discriminate.
Qed.

Lemma entry_point_renamed_for_metal_only_witness :
  ∃ res, translate_switch METAL_MACOS example_vs_blob 0 VS = Some res
         ∧ entry_point (refl res) = "main0".
Proof.
  eexists. split; [vm_compute; reflexivity|].
  refine (proj2 (entry_point_renamed_for_metal_only METAL_MACOS example_vs_blob
                   0 VS _ _ _) _ _); vm_compute; reflexivity.
Defined.

Lemma stage_attributes_stored_unchecked_witness :
  is_Some (parse_reflection example_vs false).
Proof.
  refine (proj2 (proj1 (stage_attributes_stored_unchecked example_vs false _))
            _).
  - vm_compute. discriminate.
  - repeat constructor.
Defined.

Lemma write_string_contract_witness :
  ∃ lo hi,
    write_string [] "main" = Some ([] ++ lo :: hi :: list_byte_of_string "main")
    ∧ Z_of_byte lo + 256 * Z_of_byte hi = Z.of_nat (String.length "main")
    ∧ length (list_byte_of_string "main") = String.length "main".
Proof.
  apply (proj1 (write_string_contract [] "main")). vm_compute. reflexivity.
Defined.

(** C7 as stated fails at length 65535: the length is below 65536 and fits
    16 bits, and the assertion of the writer fails. *)
Lemma write_string_contract_counterexample :
  Z.of_nat (String.length long_string) < 65536
  ∧ write_string [] long_string = None.
Proof. split; vm_compute; reflexivity. Qed.

(** a bound between numerals, by evaluation *)
Ltac by_evaluation :=
  unfold attr_encodable, uniform_encodable, image_encodable, fits_u16, fits_u8,
    string_fits;
  repeat split; vm_compute; first [reflexivity | discriminate].

Lemma bones_refl_encodable : refl_encodable (bones_refl 0).
Proof.
  assert (used_attrs (replicate 16 attr_default) = []) as Hunused
    by (vm_compute; reflexivity).
  unfold refl_encodable. cbn [bones_refl inputs outputs]. rewrite Hunused.
  split; [by_evaluation|]. split; [by_evaluation|]. split; [constructor|].
  split; [by_evaluation|]. split; [constructor|].
  split; [by_evaluation|]. split.
  - constructor; [|constructor]. split; [by_evaluation|].
    constructor; [by_evaluation|]. constructor; [by_evaluation|constructor].
  - split; [by_evaluation|constructor].
Defined.

Lemma binary_layout_round_trip_witness :
  ∃ bytes,
    write_binary_reflection_info [] (bones_refl 0) = Some bytes
    ∧ read_binary_reflection_info bytes = Some (layout_of (bones_refl 0), []).
Proof.
  destruct (binary_layout_round_trip (bones_refl 0) bones_refl_encodable)
    as (bytes & W & R & _).
  exists bytes. split; [exact W|exact R].
Defined.

(** C6 as stated fails: the offset of a member behind 64 KiB of matrices
    is written modulo 2^16, so two records that differ in that offset have
    the same bytes, and no reader can tell them apart; nor can it tell
    apart two records that differ in the name, slot and size of a block,
    of which the stream holds the members only. *)
Lemma binary_layout_round_trip_counterexample :
  is_Some (write_binary_reflection_info [] (bones_refl 0))
  ∧ write_binary_reflection_info [] (bones_refl 65536)
    = write_binary_reflection_info [] (bones_refl 0)
  ∧ uniform_blocks (bones_refl 65536) ≠ uniform_blocks (bones_refl 0)
  ∧ write_binary_reflection_info [] renamed_refl
    = write_binary_reflection_info [] (bones_refl 0)
  ∧ uniform_blocks renamed_refl ≠ uniform_blocks (bones_refl 0).
Proof.
  split; [vm_compute; by eexists|]. split; [vm_compute; reflexivity|].
  split; [discriminate|]. split; [vm_compute; reflexivity|discriminate].
Qed.

Lemma validate_linking_first_mismatch_witness :
  ∃ spv vs_out fs_inp,
    translate_blobs example_input GLSL330 spirvcross_empty
      (blobs mismatch_spirv) = Some (true, spv)
    ∧ attr_name vs_out = "color" ∧ attr_name fs_inp = "uv"
    ∧ validate_linking example_input spv
      = Some (mismatch_error example_input
                {| prog_vs_name := "vs"; prog_fs_name := "fs";
                   prog_line_index := 9 |} 0 vs_out fs_inp).
Proof.
  eexists _, _, _. split; [vm_compute; reflexivity|].
  split; [|split];
    [| |refine (proj1 (proj2 (validate_linking_first_mismatch example_input _)
           [] ("prog", {| prog_vs_name := "vs"; prog_fs_name := "fs";
                          prog_line_index := 9 |}) [] _ _ 0 _ _
           eq_refl (Forall_nil_2 _) _ _ _ _ _ _))].
  3: vm_compute; reflexivity.
  3: split; vm_compute; (reflexivity || discriminate).
  3: intros j Hj; lia.
  3, 4: vm_compute; reflexivity.
  3: vm_compute; reflexivity.
  all: reflexivity.
Defined.

Lemma example_pass_wf : pass_wf example_input example_spirv GLSL330.
Proof.
  split.
  - intros blob Hb.
    apply elem_of_cons in Hb as [->|Hb];
      [|apply elem_of_cons in Hb as [->|Hb]; [|by apply elem_of_nil in Hb]].
    + exists (example_snippet VS).
      split; [reflexivity|]. split; [by left|]. split; [discriminate|].
      vm_compute. by eexists.
    + exists (example_snippet FS).
      split; [reflexivity|]. split; [by right|]. split; [discriminate|].
      vm_compute. by eexists.
  - intros prog_item Hp. apply elem_of_cons in Hp as [->|Hp];
      [|by apply elem_of_nil in Hp].
    exists 0, 1. split; [reflexivity|]. split; [reflexivity|].
    split; [by left|by right; left].
Defined.

(** the example pass succeeds; with the fragment shader that reads [uv]
    where the vertex shader writes [color], the pass fails with the
    mismatch error *)
Lemma translate_succeeds_or_fails_fast_witness :
  is_Some (translate example_input example_spirv GLSL330)
  ∧ ∃ spv prog_item vs_out fs_inp,
      translate example_input mismatch_spirv GLSL330
      = Some (set_error spv
                (mismatch_error example_input prog_item 0 vs_out fs_inp))
      ∧ err_valid (mismatch_error example_input prog_item 0 vs_out fs_inp)
        = true.
Proof.
  split.
  - destruct (proj1 (translate_succeeds_or_fails_fast example_input
                       example_spirv GLSL330) example_pass_wf) as (r & Hr & _).
    exists r. exact Hr.
  - pose proof (proj2 (proj2 (proj2 (proj2 (proj2
      (translate_succeeds_or_fails_fast example_input mismatch_spirv
         GLSL330)))))) as Hmismatch.
    do 4 eexists.
    eapply (Hmismatch _ [] (_, _) []);
      [vm_compute; reflexivity
      |reflexivity
      |constructor
      |vm_compute; reflexivity
      |vm_compute; split; [intros; discriminate|reflexivity]
      |intros j Hj; lia
      |vm_compute; reflexivity
      |vm_compute; reflexivity
      |vm_compute; reflexivity].
Defined.

(** the example pass ends with pools in first-seen order whose entries
    the blocks and images agree with; with the fragment shader whose
    block [params] has one member only, the pass fails with the conflict
    error for that block *)
Lemma dedup_assigns_first_seen_indices_witness :
  (∃ r, translate example_input example_spirv GLSL330 = Some r
        ∧ pools_in_first_seen_order r ∧ pools_agree r)
  ∧ ∃ ub result,
      translate example_input conflict_spirv GLSL330 = Some result
      ∧ error result = ub_conflict example_input (ub_name ub)
      ∧ err_valid (error result) = true.
Proof.
  pose proof (dedup_assigns_first_seen_indices example_input)
    as (_ & _ & _ & _ & _ & _ & Hpools & _ & _ & Hconflict & _ & _ & Hagree).
  split.
  - eexists. split; [vm_compute; reflexivity|].
    split; [apply (Hpools example_spirv GLSL330)
           |apply (Hagree example_spirv GLSL330)]; vm_compute; reflexivity.
  - set (blob := {| blob_snippet_index := 1; bytecode := example_fs_small |}).
    destruct (translate_blobs example_input GLSL330 spirvcross_empty
                [example_vs_blob]) as [[[] spv]|] eqn:Hpre;
      [|vm_compute in Hpre; discriminate..].
    pose proof Hpre as Hspv. vm_compute in Hspv. injection Hspv as <-.
    destruct (translate_switch GLSL330 blob 0 FS) as [src|] eqn:Hsw;
      [|vm_compute in Hsw; discriminate].
    pose proof Hsw as Hsrc. vm_compute in Hsrc. injection Hsrc as <-.
    do 2 eexists.
    eapply (proj1 (Hconflict conflict_spirv GLSL330 [example_vs_blob] blob []
                     _ _ eq_refl Hpre
                     (ex_intro _ (example_snippet FS)
                        (conj eq_refl (conj (or_intror eq_refl)
                                         (conj Hsw eq_refl)))))).
    lazymatch goal with
    | |- ub_conflict_reached _ (with_source_of ?s ?b ?x) _ _ =>
        exists (sources s); eexists;
        exists (set_snippet_index x (blob_snippet_index b));
        exists []; exists []; eexists; exists []; do 4 eexists
    end.
    split; [reflexivity|]. split; [vm_compute; reflexivity|].
    split; [vm_compute; reflexivity|]. split; [reflexivity|].
    split; [vm_compute; reflexivity|]. split; [vm_compute; reflexivity|].
    reflexivity.
Defined.

(** ** The scenarios of the specification, evaluated *)

(** with the declarations chosen above two unused slots are equal *)
Example unused_slots_equal : attr_equals attr_default attr_default = true.
Proof. reflexivity. Qed.

(** a vertex and a fragment shader that declare the same block [params]:
    one pool entry, and both sources point at index 0 *)
Example shared_block_one_pool_entry :
  ∃ r, translate example_input example_spirv GLSL330 = Some r
       ∧ err_valid (error r) = false
       ∧ map ub_name (unique_uniform_blocks r) = ["params"]
       ∧ map (λ src, map ub_unique_index (uniform_blocks (refl src)))
           (sources r) = [[0]; [0]].
Proof. eexists. split; [vm_compute; reflexivity|]. by repeat split. Qed.

(** the fragment shader's [params] has another member list: the pass
    fails with the conflict error for [params] *)
Example differing_block_conflict :
  ∃ r, translate example_input conflict_spirv GLSL330 = Some r
       ∧ error r = ub_conflict example_input "params"
       ∧ err_msg (error r)
         = "conflicting uniform block definitions found for 'params'".
Proof. eexists. split; [vm_compute; reflexivity|]. by split. Qed.

(** the vertex shader writes [color] where the fragment shader reads [uv]:
    the pass fails with the mismatch error for slot 0 *)
Example mismatched_interface :
  ∃ r, translate example_input mismatch_spirv GLSL330 = Some r
       ∧ err_valid (error r) = true
       ∧ err_line_index (error r) = 9
       ∧ err_msg (error r)
         = "outputs of vs 'vs' don't match inputs of fs 'fs' for attr #0 (vs=color,fs=uv)"
           +:+ String (ascii_of_nat 10) "".
Proof. eexists. split; [vm_compute; reflexivity|]. by repeat split. Qed.

(** on the WebGPU target the block of the vertex shader is bound at 0 and
    that of the fragment shader at 4, and both are reflected at slot 0 *)
Example vulkan_bindings_and_slots :
  get_decoration (prepared WGPU example_vs_blob VS) 10%N DecorationBinding = 0
  ∧ get_decoration (prepared WGPU example_fs_blob FS) 10%N DecorationBinding = 4
  ∧ (∃ r, translate example_input example_spirv WGPU = Some r
          ∧ map (λ src, map ub_slot (uniform_blocks (refl src))) (sources r)
            = [[0]; [0]]).
Proof.
  split; [vm_compute; reflexivity|]. split; [vm_compute; reflexivity|].
  eexists. split; [vm_compute; reflexivity|]. reflexivity.
Qed.

(** a translator that returns no text fails the pass at the first blob *)
Example failed_translation :
  ∃ r, @translate spec_decls failing_translator example_input example_spirv
         HLSL5 = Some r
       ∧ sources r = []
       ∧ error r = input_error example_input 3
                     "Failed to cross-compile to hlsl5.".
Proof. eexists. split; [vm_compute; reflexivity|]. by split. Qed.

(** ** The further properties at the examples *)

Lemma fix_bind_slots_changes_bindings_only_witness :
  decorations (fix_bind_slots example_vs VS true) !! (20%N, DecorationLocation)
  = decorations example_vs !! (20%N, DecorationLocation).
Proof.
  apply (proj2 (fix_bind_slots_changes_bindings_only example_vs VS true)).
  left. split; discriminate.
Defined.

Lemma mat4_members_reach_the_translator_colmajor_witness :
  has_member_decoration (prepared HLSL5 example_vs_blob VS) 1%N 0
    DecorationColMajor = true.
Proof.
  refine (proj1 (mat4_members_reach_the_translator_colmajor HLSL5
                   example_vs_blob VS)
            (resource 10%N 1%N "params") 0%nat 2%N _ _ _ _);
    [reflexivity|cbn; left|reflexivity|reflexivity].
Defined.

Lemma attribute_arrays_indexed_by_slot_witness :
  ∃ r, parse_reflection example_vs false = Some r
       ∧ place_attrs attr_NUM (used_attrs (inputs r)) = inputs r.
Proof.
  destruct (parse_reflection example_vs false) as [r|] eqn:Hr;
    [|vm_compute in Hr; discriminate].
  exists r. split; [reflexivity|].
  exact (proj2 (proj2 (proj1
    (attribute_arrays_indexed_by_slot example_vs false r Hr)))).
Defined.

Lemma five_blocks_resources_wf :
  resources_wf (get_shader_resources five_blocks_vs).
Proof.
  split; [refine (bool_decide_unpack _ _); vm_compute; exact I|].
  split; vm_compute; reflexivity.
Defined.

Lemma example_translator_keeps_bindings : compile_keeps_bindings.
Proof. intros options c. split; [reflexivity|intros id; reflexivity]. Defined.

(** the fifth block of a vertex shader is reflected at slot 0 for the
    Vulkan-style target *)
Lemma reflected_slots_follow_declaration_order_witness :
  ∃ res ub,
    translate_switch WGPU five_blocks_blob 0 VS = Some res
    ∧ uniform_blocks (refl res) !! 4%nat = Some ub
    ∧ ub_slot ub = 4 - 4.
Proof.
  destruct (translate_switch WGPU five_blocks_blob 0 VS) as [res|] eqn:Hres;
    [|vm_compute in Hres; discriminate].
  pose proof Hres as Hcomputed. vm_compute in Hcomputed.
  assert (src_valid res = true) as Hvalid
    by (injection Hcomputed as <-; reflexivity).
  destruct (uniform_blocks (refl res) !! 4%nat) as [ub|] eqn:Hub;
    [|injection Hcomputed as <-; discriminate].
  exists res, ub. split; [reflexivity|]. split; [exact Hub|].
  exact (proj2 (proj1 (proj2 (proj2
    (reflected_slots_follow_declaration_order WGPU five_blocks_blob 0 VS res
       example_translator_keeps_bindings five_blocks_resources_wf Hres
       Hvalid))) 4%nat ub Hub)).
Defined.

Lemma example_pass_result :
  ∃ r, translate example_input example_spirv GLSL330 = Some r
       ∧ err_valid (error r) = false.
Proof. eexists. split; vm_compute; reflexivity. Defined.

Lemma unique_index_identifies_the_name_witness :
  ∃ r, translate example_input example_spirv GLSL330 = Some r
       ∧ NoDup (map ub_name (unique_uniform_blocks r)).
Proof.
  destruct example_pass_result as (r & Hr & Herr). exists r.
  split; [exact Hr|].
  exact (proj1 (unique_index_identifies_the_name example_input example_spirv
                  GLSL330 r Hr Herr)).
Defined.

Lemma pass_only_appends_witness :
  ∃ r spv,
    translate example_input example_spirv GLSL330 = Some r
    ∧ translate_blobs example_input GLSL330 spirvcross_empty [example_vs_blob]
      = Some (true, spv)
    ∧ sources spv `prefix_of` sources r.
Proof.
  destruct example_pass_result as (r & Hr & Herr).
  destruct (pass_only_appends example_input example_spirv GLSL330 r
              [example_vs_blob] [example_fs_blob] Hr Herr eq_refl)
    as (spv & Hspv & _ & Hpre & _).
  exists r, spv. split; [exact Hr|]. split; [exact Hspv|exact Hpre].
Defined.

Lemma pass_sources_are_the_translations_witness :
  ∃ r, translate example_input example_spirv GLSL330 = Some r
       ∧ Forall2 (λ src blob, translation_of example_input GLSL330 blob src)
           (sources r) (blobs example_spirv).
Proof.
  destruct example_pass_result as (r & Hr & Herr). exists r.
  split; [exact Hr|].
  exact (pass_sources_are_the_translations example_input example_spirv GLSL330
           r Hr Herr).
Defined.

(** with a translator that rejects every module the pass stops at the
    vertex shader and reports line 3 *)
Lemma rejected_blob_stops_the_pass_witness :
  @translate spec_decls failing_translator example_input example_spirv GLSL330
  = Some (set_error spirvcross_empty
            (cross_compile_error example_input GLSL330 3)).
Proof.
  exact (@rejected_blob_stops_the_pass spec_decls failing_translator
           example_input example_spirv GLSL330 [] [example_fs_blob]
           example_vs_blob spirvcross_empty (example_snippet VS)
           eq_refl eq_refl eq_refl (or_introl eq_refl) eq_refl).
Defined.

Lemma serializer_fails_on_long_strings_only_witness :
  ∃ body,
    write_binary_reflection_info [] (bones_refl 0)
    = Some ([] ++ record_header ++ body).
Proof.
  destruct (write_binary_reflection_info [] (bones_refl 0)) as [out|] eqn:Hout;
    [|vm_compute in Hout; discriminate].
  destruct (proj2 (serializer_fails_on_long_strings_only (bones_refl 0))
              [] out Hout) as (body & -> & _).
  exists body. reflexivity.
Defined.

Lemma records_are_read_back_in_sequence_witness :
  ∃ bytes1 bytes2,
    read_binary_reflection_info (bytes1 ++ bytes2)
    = Some (layout_of (bones_refl 0), bytes2)
    ∧ read_binary_reflection_info bytes2
      = Some (layout_of (bones_refl 0), []).
Proof.
  destruct (records_are_read_back_in_sequence (bones_refl 0) (bones_refl 0) []
              bones_refl_encodable bones_refl_encodable)
    as (b1 & b2 & _ & R1 & R2).
  exists b1, b2. split; [exact R1|exact R2].
Defined.

Lemma blob_sources_found_by_snippet_index_witness :
  ∃ r, translate example_input example_spirv GLSL330 = Some r
       ∧ find_source_by_snippet_index r 1 = 1.
Proof.
  destruct example_pass_result as (r & Hr & Herr). exists r.
  split; [exact Hr|].
  refine (proj1 (proj1 (blob_sources_found_by_snippet_index example_input
                          example_spirv GLSL330 r Hr Herr)
                   1%nat example_fs_blob eq_refl _)).
  intros [|j] b Hj Hb; [|lia]. injection Hb as <-. discriminate.
Defined.

(** the [mat4 mvp] of the block [params] is decorated by the fixup *)
Lemma colmajor_marks_exactly_the_float_matrices_witness :
  is_Some (member_decorations (fix_ub_matrix_force_colmajor example_vs)
             !! (1%N, 0%nat, DecorationColMajor)).
Proof.
  apply (proj2 (proj2 (colmajor_marks_exactly_the_float_matrices example_vs)
                  (1%N, 0%nat, DecorationColMajor))).
  right. exists (resource 10%N 1%N "params"), 0%nat, 2%N.
  split; [cbn; left|]. split; [reflexivity|]. split; [reflexivity|].
  split; [reflexivity|]. split; vm_compute; reflexivity.
Defined.

Lemma reflected_type_tags_witness :
  spirtype_to_uniform_type (float_type 4 4) ≠ UNIFORM_INVALID.
Proof.
  apply (proj2 (proj1 (reflected_type_tags (float_type 4 4)))).
  split; [reflexivity|]. right. split; reflexivity.
Defined.
